(** * OC submission bot (src/index.js): a shallow embedding and its properties

    The bot listens to one submissions channel, extracts a character name from
    each message, rejects names already present in a published roster sheet,
    and otherwise makes sure that a role and a private channel exist for the
    character.

    How the program is modelled.

    - JavaScript strings are sequences of UTF-16 code units: lists of [N].
      [trim], [split], [match] and [replace] are written out on such lists.
    - The regular expressions of the source are terms of a small abstract
      syntax, run by a backtracking matcher that tries alternatives and
      repetitions in ECMAScript's order (greedy, leftmost).
    - [toLowerCase] and [normalize('NFKD')] rest on Unicode tables that are no
      part of the repository: they are the two fields of the class [Runtime],
      of which only the behaviour on ASCII text is assumed.
    - The [messageCreate] listener is a computation in a state-and-exception
      monad.  The state holds the world (the roles and channels of the guild
      as the caches show them, the roles of the members, the next identifier
      of the platform, the answer of the sheet, and the variable
      [existingOCNames]), a schedule saying which of the coming platform calls
      reject, and the trace of the effects so far (fetches, log lines, replies,
      creations, messages, role assignments), in order.
    - A platform call that rejects throws and changes nothing; one that
      succeeds acts on the world and is recorded.  A created role or channel
      is cached under the name given.  The default role of a guild has the
      identifier of the guild.
    - The [ready] listener is a computation in the same monad, with the
      continuation of its promise run to the end; its result holds the lines
      of [console.log].
    - Identifiers are numbers.  An environment variable is an optional
      identifier, [None] when it is unset or empty. *)

From stdpp Require Import base decidable option list strings gmap sets.
From Stdlib Require Import NArith Lia.

Local Open Scope N_scope.
Local Open Scope list_scope.

(** ** Strings as UTF-16 code units *)

Module JS.

Abbreviation str := (list N).

(** An ASCII literal as a JavaScript string. *)
Definition lit (s : string) : str := List.map Ascii.N_of_ascii (String.list_ascii_of_string s).

Definition between (lo hi c : N) : bool := (lo <=? c) && (c <=? hi).

(** ECMAScript LineTerminator: LF, CR, LS, PS. *)
Definition is_line_terminator (c : N) : bool :=
  (c =? 10) || (c =? 13) || (c =? 8232) || (c =? 8233).

(** ECMAScript WhiteSpace and LineTerminator, the class [\s] and the set that
    [String.prototype.trim] removes. *)
Definition is_ws (c : N) : bool :=
  between 9 13 c || (c =? 32) || (c =? 160) || (c =? 5760) ||
  between 8192 8202 c || (c =? 8232) || (c =? 8233) || (c =? 8239) ||
  (c =? 8287) || (c =? 12288) || (c =? 65279).

(** The class [.] (no [s] flag): anything but a line terminator. *)
Definition dot (c : N) : bool := negb (is_line_terminator c).

Definition is_lower (c : N) : bool := between 97 122 c.
Definition is_upper (c : N) : bool := between 65 90 c.
Definition is_digit (c : N) : bool := between 48 57 c.
Definition is_ascii (c : N) : bool := c <? 128.

(** A letter of a pattern under the [i] flag (and no [u] flag): an ASCII
    letter matches exactly its two ASCII cases. *)
Definition ci (lower : N) (c : N) : bool := (c =? lower) || (c =? lower - 32).

Definition only (x : N) (c : N) : bool := c =? x.

Fixpoint drop_while (p : N -> bool) (s : str) : str :=
  match s with
  | [] => []
  | c :: s' => if p c then drop_while p s' else s
  end.

Definition trimStart (s : str) : str := drop_while is_ws s.
Definition trimEnd (s : str) : str := rev (drop_while is_ws (rev s)).

(** [String.prototype.trim] *)
Definition trim (s : str) : str := trimEnd (trimStart s).

(** [String.prototype.slice(0, n)] *)
Definition slice0 (n : nat) (s : str) : str := take n s.

(** ASCII behaviour of [toLowerCase] on one code unit. *)
Definition ascii_lower (c : N) : N := if is_upper c then c + 32 else c.

(** The two library functions whose tables are not part of the repository.
    Both are fixed by the ECMAScript standard; the two laws record how they act
    on ASCII text, which is all the development relies on. *)
Class Runtime := {
  toLowerCase : str -> str;
  normalizeNFKD : str -> str;
  toLowerCase_ascii s :
    forallb is_ascii s = true -> toLowerCase s = List.map ascii_lower s;
  normalizeNFKD_ascii s :
    forallb is_ascii s = true -> normalizeNFKD s = s
}.

(** ** Regular expressions

    The fragment used by the source: quantifiers apply to character classes
    only, there is at most one capturing group, and the anchors are those of a
    pattern without the [m] flag. *)

Inductive regex : Type :=
| Chr (p : N -> bool)          (* one code unit of the class *)
| Star (p : N -> bool)         (* p*  greedy *)
| Plus (p : N -> bool)         (* p+  greedy *)
| Opt (p : N -> bool)          (* p?  greedy *)
| Bos                          (* ^ *)
| Eos                          (* $ *)
| Seq (r1 r2 : regex)
| Alt (r1 r2 : regex)          (* r1|r2, left first *)
| Group (r : regex).           (* ( r ), group 1 *)

Declare Scope regex_scope.
Delimit Scope regex_scope with re.
Bind Scope regex_scope with regex.
Infix "·" := Seq (at level 40, left associativity) : regex_scope.

Section Matcher.
Context {R : Type}.

(** A continuation receives the index reached, the input left, and group 1. *)
Definition cont := nat -> str -> option str -> option R.

(** Greedy iteration of a class: take the longest run first and give code
    units back one at a time when the continuation fails. *)
Fixpoint star (p : N -> bool) (i : nat) (s : str) (cap : option str) (k : cont)
  : option R :=
  match s with
  | c :: s' =>
      if p c then
        match star p (S i) s' cap k with
        | Some r => Some r
        | None => k i s cap
        end
      else k i s cap
  | [] => k i s cap
  end.

Fixpoint run (r : regex) (i : nat) (s : str) (cap : option str) (k : cont)
  : option R :=
  match r with
  | Chr p =>
      match s with
      | c :: s' => if p c then k (S i) s' cap else None
      | [] => None
      end
  | Star p => star p i s cap k
  | Plus p =>
      match s with
      | c :: s' => if p c then star p (S i) s' cap k else None
      | [] => None
      end
  | Opt p =>
      match s with
      | c :: s' =>
          if p c then
            match k (S i) s' cap with
            | Some r => Some r
            | None => k i s cap
            end
          else k i s cap
      | [] => k i s cap
      end
  | Bos => if Nat.eqb i 0 then k i s cap else None
  | Eos => match s with [] => k i s cap | _ :: _ => None end
  | Seq r1 r2 => run r1 i s cap (fun i' s' cap' => run r2 i' s' cap' k)
  | Alt r1 r2 =>
      match run r1 i s cap k with
      | Some r => Some r
      | None => run r2 i s cap k
      end
  | Group r1 =>
      run r1 i s cap (fun i' s' _ => k i' s' (Some (take (i' - i) s)))
  end.

End Matcher.

(** One attempt at index [i], where [s] is the input from [i] on: the end
    index of the match and group 1. *)
Definition match_at (r : regex) (i : nat) (s : str) : option (nat * option str) :=
  run r i s None (fun e _ cap => Some (e, cap)).

(** [RegExp.prototype.exec] without the sticky flag: the leftmost index from
    [i] on at which the pattern matches. *)
Fixpoint search (r : regex) (i : nat) (s : str) : option (nat * nat * option str) :=
  match match_at r i s with
  | Some (e, cap) => Some (i, e, cap)
  | None =>
      match s with
      | [] => None
      | _ :: s' => search r (S i) s'
      end
  end.

(** [s.match(r)] for a pattern without the [g] flag, read at [[1]]; [None] is
    JavaScript's [null].  (Every pattern so used has a group 1 that takes part
    in each match.) *)
Definition match1 (r : regex) (s : str) : option str :=
  match search r 0%nat s with
  | Some (_, _, Some cap) => Some cap
  | Some (_, _, None) => Some []
  | None => None
  end.

(** [s.replace(r, rep)] for a pattern with the [g] flag and a replacement text
    without [$]: [skip] counts the code units of the current match still to
    be dropped. *)
Fixpoint replace_go (r : regex) (rep : str) (skip i : nat) (s : str) : str :=
  match skip with
  | S n =>
      match s with
      | [] => []
      | _ :: s' => replace_go r rep n (S i) s'
      end
  | O =>
      match match_at r i s with
      | Some (e, _) =>
          rep ++
          match s with
          | [] => []
          | c :: s' =>
              if Nat.eqb e i then c :: replace_go r rep 0 (S i) s'
              else replace_go r rep (e - i - 1) (S i) s'
          end
      | None =>
          match s with
          | [] => []
          | c :: s' => c :: replace_go r rep 0 (S i) s'
          end
      end
  end.

Definition replace_all (r : regex) (rep : str) (s : str) : str :=
  replace_go r rep 0 0 s.

(** [s.split(r)] for a pattern without capturing groups: [cur] is the piece
    being collected since the last separator. *)
Fixpoint split_go (r : regex) (skip i : nat) (cur : str) (s : str) : list str :=
  match s with
  | [] => [cur]
  | c :: s' =>
      match skip with
      | S n => split_go r n (S i) cur s'
      | O =>
          match match_at r i s with
          | Some (e, _) =>
              if Nat.eqb e i then
                match cur with
                | [] => split_go r 0 (S i) [c] s'
                | _ :: _ => cur :: split_go r 0 (S i) [c] s'
                end
              else cur :: split_go r (e - i - 1) (S i) [] s'
          | None => split_go r 0 (S i) (cur ++ [c]) s'
          end
      end
  end.

Definition split (r : regex) (s : str) : list str :=
  match s with
  | [] => match match_at r 0 [] with Some _ => [] | None => [[]] end
  | _ :: _ => split_go r 0 0 [] s
  end.

(** [s.split(sep)] for a separator of one code unit. *)
Fixpoint split_on_go (sep : N) (cur : str) (s : str) : list str :=
  match s with
  | [] => [cur]
  | c :: s' =>
      if c =? sep then cur :: split_on_go sep [] s'
      else split_on_go sep (cur ++ [c]) s'
  end.

Definition split_on (sep : N) (s : str) : list str := split_on_go sep [] s.

End JS.

Import JS.
Local Open Scope regex_scope.

(** ** The pure functions of src/index.js *)

Definition ws : N -> bool := is_ws.
Definition colon : N -> bool := only 58.
Definition hyphen : N := 45.

(** [/^\s*oc\s*:\s*(.+)$/i] *)
Definition re_oc_line : regex :=
  Bos · Star ws · Chr (ci 111) · Chr (ci 99) · Star ws · Chr colon · Star ws ·
  Group (Plus dot) · Eos.

(** [/^\s*name\s*:\s*(.+)$/i] *)
Definition re_name_line : regex :=
  Bos · Star ws · Chr (ci 110) · Chr (ci 97) · Chr (ci 109) · Chr (ci 101) ·
  Star ws · Chr colon · Star ws · Group (Plus dot) · Eos.

(** [/OC\s*:\s*(.+)/i], the pattern applied to an embed title. *)
Definition re_embed_title : regex :=
  Chr (ci 111) · Chr (ci 99) · Star ws · Chr colon · Star ws · Group (Plus dot).

(** [/[\u0300-\u036f]/g], the combining diacritical marks. *)
Definition re_combining : regex := Chr (between 768 879).

Definition alnum (c : N) : bool := is_lower c || is_digit c.

(** [/[^a-z0-9]+/g] *)
Definition re_non_alnum : regex := Plus (fun c => negb (alnum c)).

(** [/(^-|-$)/g] *)
Definition re_edge_hyphen : regex :=
  Group (Alt (Bos · Chr (only hyphen)) (Chr (only hyphen) · Eos)).

(** [/\s+/] *)
Definition re_spaces : regex := Plus ws.

(** [/\r?\n/] *)
Definition re_newline : regex := Opt (only 13) · Chr (only 10).

(** A JavaScript [a || b] on the results of [match]. *)
Definition or_else {A} (a b : option A) : option A :=
  match a with Some _ => a | None => b end.

(** [parseOCName] (lines 30-36). *)
Definition parseOCName (content : str) : str :=
  let trimmed := trim content in
  let m := or_else (match1 re_oc_line trimmed) (match1 re_name_line trimmed) in
  trim (match m with Some g1 => g1 | None => trimmed end).

Section WithRuntime.
Context `{RT : Runtime}.

(** [slugify] (lines 46-54). *)
Definition slugify (text : str) : str :=
  slice0 90
    (replace_all re_edge_hyphen []
       (replace_all re_non_alnum [hyphen]
          (toLowerCase
             (replace_all re_combining [] (normalizeNFKD text))))).

End WithRuntime.

(** The runtime cut down to ASCII: it agrees with every ECMAScript engine on
    ASCII text and is used to run the model on concrete ASCII inputs. *)
Definition ascii_runtime : Runtime :=
  {| toLowerCase := List.map ascii_lower;
     normalizeNFKD := fun s => s;
     toLowerCase_ascii := fun _ _ => eq_refl;
     normalizeNFKD_ascii := fun _ _ => eq_refl |}.

(** ** The platform, the configuration and the effects *)

Definition snowflake := N.

(** The channel kinds of the platform that matter here; [isTextBased] is true
    of the kinds that can receive messages. *)
Inductive ChannelType := GuildText | GuildVoice | GuildCategory | GuildAnnouncement | GuildForum.

Definition isTextBased (t : ChannelType) : bool :=
  match t with
  | GuildText | GuildVoice | GuildAnnouncement => true
  | GuildCategory | GuildForum => false
  end.

#[global] Instance ChannelType_eq_dec : EqDecision ChannelType.
Proof. solve_decision. Defined.

Inductive Permission :=
| ViewChannel | SendMessages | ReadMessageHistory | AttachFiles | EmbedLinks
| AddReactions | ManageMessages | ManageChannels.

(** One entry of [permissionOverwrites].  The [id] is an option because the
    source passes [MOD_ROLE_ID] as it is, set or not. *)
Record Overwrite := {
  ow_id : option snowflake;
  ow_allow : list Permission;
  ow_deny : list Permission
}.

Record Role := { role_id : snowflake; role_name : str }.

Record Channel := {
  channel_id : snowflake;
  channel_name : str;
  channel_type : ChannelType;
  channel_parent : option snowflake;
  channel_overwrites : list Overwrite
}.

Record Embed := { embed_title : option str; embed_data : N }.

Record Message := {
  author_id : snowflake;
  author_bot : bool;
  webhookId : option snowflake;
  guild : option snowflake;           (* message.guild, null in a DM *)
  channel : snowflake;                (* message.channel.id *)
  content : str;
  embeds : list Embed;
  member : option snowflake           (* message.member, null when absent *)
}.

(** The environment variables of lines 11-19.  [None] stands for a variable
    that is unset or empty: both are falsy and equal to no identifier. *)
Record Config := {
  GUILD_ID : option snowflake;
  SUBMISSIONS_CHANNEL_ID : option snowflake;
  OC_CATEGORY_ID : option snowflake;
  MOD_ROLE_ID : option snowflake;
  GM_ROLE_ID : option snowflake;
  LOG_CHANNEL_ID : option snowflake
}.

(** What the published sheet answers to a [fetch] at the moment. *)
Inductive SheetResponse :=
| NetworkError                 (* fetch rejects *)
| HttpStatus (status : N)      (* res.ok is false *)
| BodyError                    (* res.text() rejects *)
| Body (text : str).

Record World := {
  roles : list Role;                        (* guild.roles.cache, insertion order *)
  channels : list Channel;                  (* guild.channels.cache *)
  member_roles : gset (snowflake * snowflake);  (* (member, role) *)
  next_id : snowflake;                      (* the id the platform hands out next *)
  sheet : SheetResponse;
  existingOCNames : gset str                (* the variable of line 21 *)
}.

Inductive Exn :=
| FetchFailed | BadStatus (status : N) | TextFailed   (* inside loadExistingOCs *)
| ApiError                                            (* a platform call rejects *)
| TypeError.                                          (* property of null *)

Inductive Reply := DuplicateNotice (fullName : str) | FormatHelp.

Inductive Payload :=
| Welcome (fullName : str)
| EmbedCopy (data : N)
| AuditLog (fullName : str) (role chan author : snowflake).

Inductive Event :=
| Fetched                                   (* fetch(url) *)
| Warned (e : Exn)                          (* console.warn *)
| Errored (e : Exn)                         (* console.error *)
| Replied (r : Reply)                       (* message.reply *)
| GuildFetched                              (* client.guilds.fetch *)
| RoleCreated (r : Role)                    (* guild.roles.create *)
| ChannelCreated (c : Channel)              (* guild.channels.create *)
| Sent (chan : snowflake) (p : Payload)     (* channel.send *)
| RoleAdded (who role : snowflake).         (* member.roles.add *)

(** The state threaded through a handler run.  [faults] schedules the
    platform calls still to come: a [true] makes the next call reject. *)
Record St := { world : World; faults : list bool; trace : list Event }.

Inductive result (A : Type) := Ok (a : A) | Throw (e : Exn).
Arguments Ok {A} a.
Arguments Throw {A} e.

Definition M (A : Type) := St -> result A * St.

Definition ret {A} (a : A) : M A := fun st => (Ok a, st).

Definition bind {A B} (m : M A) (f : A -> M B) : M B :=
  fun st =>
    match m st with
    | (Ok a, st') => f a st'
    | (Throw e, st') => (Throw e, st')
    end.

Definition throw {A} (e : Exn) : M A := fun st => (Throw e, st).

(** [try { m } catch (err) { h err }] *)
Definition try_catch {A} (m : M A) (h : Exn -> M A) : M A :=
  fun st =>
    match m st with
    | (Ok a, st') => (Ok a, st')
    | (Throw e, st') => h e st'
    end.

Notation "'let*' x ':=' m 'in' k" := (bind m (fun x => k))
  (at level 10, x name, m at level 100, k at level 200).
Notation "m ';;' k" := (bind m (fun _ => k))
  (at level 100, k at level 200, right associativity).

Definition get_world : M World := fun st => (Ok (world st), st).

Definition emit (ev : Event) : M unit :=
  fun st => (Ok tt, {| world := world st; faults := faults st; trace := trace st ++ [ev] |}).

Definition set_existingOCNames (names : gset str) : M unit :=
  fun st =>
    let w := world st in
    (Ok tt,
     {| world := {| roles := roles w; channels := channels w;
                    member_roles := member_roles w; next_id := next_id w;
                    sheet := sheet w; existingOCNames := names |};
        faults := faults st; trace := trace st |}).

(** An awaited platform call: it rejects when the schedule says so, and
    otherwise acts on the world and is recorded in the trace. *)
Definition call {A} (act : World -> A * World) (ev : A -> Event) : M A :=
  fun st =>
    match faults st with
    | true :: fs => (Throw ApiError, {| world := world st; faults := fs; trace := trace st |})
    | fs =>
        let '(a, w') := act (world st) in
        (Ok a, {| world := w'; faults := tail fs; trace := trace st ++ [ev a] |})
    end.

(** ** The handler *)

Definition nonempty (s : str) : bool := match s with [] => false | _ :: _ => true end.

(** Lines 130-139: the name offered by the first embed's title, if any;
    [None] is a [fullName] still [undefined]. *)
Definition embed_name (msg : Message) : option str :=
  match embeds msg with
  | embed :: _ =>
      match embed_title embed with
      | Some title =>
          if nonempty title then
            match match1 re_embed_title title with
            | Some g1 => Some (trim g1)
            | None => None
            end
          else None
      | None => None
      end
  | [] => None
  end.

(** Lines 130-143: [fullName] as it stands before the test of line 144. *)
Definition extract_name (msg : Message) : str :=
  match embed_name msg with
  | Some n => if nonempty n then n else parseOCName (content msg)
  | None => parseOCName (content msg)
  end.

Section Handler.
Context `{RT : Runtime}.

(** Lines 76-90: the names of a sheet exported as CSV. *)
Definition sheet_lines (text : str) : list str :=
  List.filter (fun l => nonempty (trim l)) (split re_newline text).

Definition add_row (names : gset str) (line : str) : gset str :=
  let cells := split_on 44 line in
  let rawName := trim (nth 1 cells []) in
  if nonempty rawName then {[ toLowerCase rawName ]} ∪ names else names.

Definition parse_sheet (text : str) : gset str :=
  fold_left add_row (tail (sheet_lines text)) ∅.

(** [loadExistingOCs] (lines 68-96). *)
Definition loadExistingOCs : M (gset str) :=
  try_catch
    (emit Fetched ;;
     let* w := get_world in
     match sheet w with
     | NetworkError => throw FetchFailed
     | HttpStatus status => throw (BadStatus status)
     | BodyError => throw TextFailed
     | Body text => ret (parse_sheet text)
     end)
    (fun err => emit (Warned err) ;; ret ∅).

Definition view_only : list Permission := [ViewChannel].

Definition member_allow : list Permission :=
  [ViewChannel; SendMessages; ReadMessageHistory; AttachFiles; EmbedLinks; AddReactions].

Definition staff_allow : list Permission :=
  [ViewChannel; SendMessages; ReadMessageHistory; ManageMessages; ManageChannels].

(** Lines 191-230. *)
Definition build_overwrites (cfg : Config) (everyone : snowflake) (role : Role)
  : list Overwrite :=
  [ {| ow_id := Some everyone; ow_allow := []; ow_deny := view_only |};
    {| ow_id := Some (role_id role); ow_allow := member_allow; ow_deny := [] |};
    {| ow_id := MOD_ROLE_ID cfg; ow_allow := staff_allow; ow_deny := [] |} ] ++
  match GM_ROLE_ID cfg with
  | Some gm => [ {| ow_id := Some gm; ow_allow := staff_allow; ow_deny := [] |} ]
  | None => []
  end.

Definition with_roles (w : World) (rs : list Role) (next : snowflake) : World :=
  {| roles := rs; channels := channels w; member_roles := member_roles w;
     next_id := next; sheet := sheet w; existingOCNames := existingOCNames w |}.

Definition with_channels (w : World) (cs : list Channel) (next : snowflake) : World :=
  {| roles := roles w; channels := cs; member_roles := member_roles w;
     next_id := next; sheet := sheet w; existingOCNames := existingOCNames w |}.

Definition with_member_roles (w : World) (mr : gset (snowflake * snowflake)) : World :=
  {| roles := roles w; channels := channels w; member_roles := mr;
     next_id := next_id w; sheet := sheet w; existingOCNames := existingOCNames w |}.

(** [guild.roles.create({ name })] *)
Definition roles_create (name : str) : M Role :=
  call (fun w =>
          let r := {| role_id := next_id w; role_name := name |} in
          (r, with_roles w (roles w ++ [r]) (next_id w + 1)))
       RoleCreated.

(** [guild.channels.create({ name, type, parent, permissionOverwrites })] *)
Definition channels_create (name : str) (parent : option snowflake)
    (overwrites : list Overwrite) : M Channel :=
  call (fun w =>
          let c := {| channel_id := next_id w; channel_name := name;
                      channel_type := GuildText; channel_parent := parent;
                      channel_overwrites := overwrites |} in
          (c, with_channels w (channels w ++ [c]) (next_id w + 1)))
       ChannelCreated.

Definition send (c : Channel) (p : Payload) : M unit :=
  call (fun w => (tt, w)) (fun _ => Sent (channel_id c) p).

Definition reply (r : Reply) : M unit :=
  call (fun w => (tt, w)) (fun _ => Replied r).

Definition guilds_fetch : M unit :=
  call (fun w => (tt, w)) (fun _ => GuildFetched).

Definition roles_add (who : snowflake) (role : Role) : M unit :=
  call (fun w => (tt, with_member_roles w ({[ (who, role_id role) ]} ∪ member_roles w)))
       (fun _ => RoleAdded who (role_id role)).

(** Lines 175-177: the first cached role whose name matches without case. *)
Definition find_role (roleName : str) (w : World) : option Role :=
  List.find (fun r => bool_decide (toLowerCase (role_name r) = toLowerCase roleName))
            (roles w).

(** Lines 186-188: the first cached text channel of that very name. *)
Definition find_channel (channelName : str) (w : World) : option Channel :=
  List.find (fun c => bool_decide (channel_type c = GuildText) &&
                      bool_decide (channel_name c = channelName))
            (channels w).

(** Lines 166-277: what the handler does once the name has passed the
    duplicate check and the shape check; [g] is the guild of the message,
    which is [GUILD_ID] there. *)
Definition provision (cfg : Config) (g : snowflake) (msg : Message)
    (fullName : str) (parts : list str) : M unit :=
  let firstName := nth 0 parts [] in
  let roleName := firstName in
  let channelSlug := slugify fullName in
  let channelName := lit "oc-" ++ channelSlug in
  guilds_fetch ;;
  let* w := get_world in
  let* role :=
    match find_role roleName w with
    | Some r => ret r
    | None => roles_create roleName
    end in
  let* w := get_world in
  let* chan :=
    match find_channel channelName w with
    | Some c => ret c
    | None =>
        let overwrites := build_overwrites cfg g role in
        let* c := channels_create channelName (OC_CATEGORY_ID cfg) overwrites in
        send c (Welcome fullName) ;;
        match embeds msg with
        | first :: _ =>
            try_catch (send c (EmbedCopy (embed_data first)))
                      (fun e => emit (Warned e))
        | [] => ret tt
        end ;;
        ret c
    end in
  match member msg with
  | None => throw TypeError
  | Some who =>
      let* w := get_world in
      (if bool_decide ((who, role_id role) ∈ member_roles w) then ret tt
       else roles_add who role) ;;
      match LOG_CHANNEL_ID cfg with
      | Some log_id =>
          let* w := get_world in
          match List.find (fun c => bool_decide (channel_id c = log_id)) (channels w) with
          | Some logChannel =>
              if isTextBased (channel_type logChannel) then
                send logChannel
                  (AuditLog fullName (role_id role) (channel_id chan) (author_id msg))
              else ret tt
          | None => ret tt
          end
      | None => ret tt
      end
  end.

(** Lines 121-277: the body of the [try] block. *)
Definition handler_body (cfg : Config) (msg : Message) : M unit :=
  if author_bot msg && negb (bool_decide (is_Some (webhookId msg))) then ret tt else
  match guild msg with
  | None => ret tt
  | Some g =>
      if negb (bool_decide (GUILD_ID cfg = Some g)) then ret tt else
      if negb (bool_decide (SUBMISSIONS_CHANNEL_ID cfg = Some (channel msg))) then ret tt else
      let fullName := extract_name msg in
      if negb (nonempty fullName) then ret tt else
      let* names := loadExistingOCs in
      set_existingOCNames names ;;
      let* w := get_world in
      if bool_decide (toLowerCase fullName ∈ existingOCNames w) then
        reply (DuplicateNotice fullName)
      else
        let parts := split re_spaces fullName in
        if (length parts <? 2)%nat then reply FormatHelp
        else provision cfg g msg fullName parts
  end.

(** The [messageCreate] listener (lines 120-281). *)
Definition handler (cfg : Config) (msg : Message) : M unit :=
  try_catch (handler_body cfg msg) (fun err => emit (Errored err)).

(** One delivery of [msg]: the world afterwards and the effects, in order. *)
Definition deliver (cfg : Config) (msg : Message) (fs : list bool) (w : World)
  : World * list Event :=
  let st := snd (handler cfg msg {| world := w; faults := fs; trace := [] |}) in
  (world st, trace st).

End Handler.

(** A line written by [console.log]. *)
Inductive Logged :=
| LoggedIn (tag : str)               (* Logged in as ... *)
| LoadedOCs (names : gset str).      (* Loaded existing OCs from sheet: ... *)

(** The [ready] listener (lines 108-115) with the continuation of the
    promise run to its end; [tag] is [client.user.tag].  The result holds the
    lines of [console.log], the trace being kept for the calls, the warnings
    and the errors; the second line prints the set, whose order of insertion
    is not kept here. *)
Definition ready `{RT : Runtime} (tag : str) : M (list Logged) :=
  let* set := loadExistingOCs in
  set_existingOCNames set ;;
  ret [LoggedIn tag; LoadedOCs set].

(** ** Vocabulary of the properties *)

(** The roster a [fetch] of the sheet yields at the moment: what
    [loadExistingOCs] returns for each answer of the sheet. *)
Definition roster_of `{RT : Runtime} (sh : SheetResponse) : gset str :=
  match sh with
  | Body text => parse_sheet text
  | NetworkError | HttpStatus _ | BodyError => ∅
  end.

(** The warning [loadExistingOCs] logs for each answer of the sheet. *)
Definition warning_of (sh : SheetResponse) : list Event :=
  match sh with
  | NetworkError => [Warned FetchFailed]
  | HttpStatus status => [Warned (BadStatus status)]
  | BodyError => [Warned TextFailed]
  | Body _ => []
  end.

Definition with_names (w : World) (names : gset str) : World :=
  {| roles := roles w; channels := channels w; member_roles := member_roles w;
     next_id := next_id w; sheet := sheet w; existingOCNames := names |}.

(** The world after the published sheet has been edited. *)
Definition with_sheet (w : World) (sh : SheetResponse) : World :=
  {| roles := roles w; channels := channels w; member_roles := member_roles w;
     next_id := next_id w; sheet := sh; existingOCNames := existingOCNames w |}.

Definition with_embeds (msg : Message) (es : list Embed) : Message :=
  {| author_id := author_id msg; author_bot := author_bot msg;
     webhookId := webhookId msg; guild := guild msg; channel := channel msg;
     content := content msg; embeds := es; member := member msg |}.

(** The message passes the guards of lines 123-127. *)
Definition in_scope (cfg : Config) (msg : Message) (g : snowflake) : Prop :=
  (author_bot msg = false \/ is_Some (webhookId msg)) /\
  guild msg = Some g /\ GUILD_ID cfg = Some g /\
  SUBMISSIONS_CHANNEL_ID cfg = Some (channel msg).

Definition is_reply (ev : Event) : bool :=
  match ev with Replied _ => true | _ => false end.

Definition is_duplicate_notice (ev : Event) : bool :=
  match ev with Replied (DuplicateNotice _) => true | _ => false end.

Definition is_error (ev : Event) : bool :=
  match ev with Errored _ => true | _ => false end.

Definition is_creation (ev : Event) : bool :=
  match ev with RoleCreated _ | ChannelCreated _ => true | _ => false end.

(** The permission overwrites of a new channel, written out: the guild's
    default role, the character's role, the moderators, and the game masters
    when there are any. *)
Definition overwrites_shape (cfg : Config) (g rid : snowflake) : list Overwrite :=
  [ {| ow_id := Some g; ow_allow := []; ow_deny := [ViewChannel] |};
    {| ow_id := Some rid;
       ow_allow := [ViewChannel; SendMessages; ReadMessageHistory; AttachFiles;
                    EmbedLinks; AddReactions];
       ow_deny := [] |};
    {| ow_id := MOD_ROLE_ID cfg;
       ow_allow := [ViewChannel; SendMessages; ReadMessageHistory; ManageMessages;
                    ManageChannels];
       ow_deny := [] |} ] ++
  match GM_ROLE_ID cfg with
  | Some gm =>
      [ {| ow_id := Some gm;
           ow_allow := [ViewChannel; SendMessages; ReadMessageHistory;
                        ManageMessages; ManageChannels];
           ow_deny := [] |} ]
  | None => []
  end.

(** What a [message.reply] adds to the trace, the handler's [catch]
    included. *)
Definition reply_outcome (fs : list bool) (r : Reply) : list Event :=
  match fs with
  | true :: _ => [Errored ApiError]
  | _ => [Replied r]
  end.

(** The outcome of provisioning when no platform call is rejected: at most
    one role and one channel are added, and none where the lookup succeeds. *)
Definition calm_outcome `{RT : Runtime} (msg : Message)
    (firstName channelName : str) (w : World) (tr : list Event)
    (r : result unit) (st' : St) : Prop :=
  faults st' = [] /\
  (is_Some (member msg) -> r = Ok tt) /\
  match find_role firstName w with
  | Some _ =>
      roles (world st') = roles w /\
      forall x, RoleCreated x ∈ trace st' -> RoleCreated x ∈ tr
  | None =>
      exists role, roles (world st') = roles w ++ [role] /\ role_name role = firstName
  end /\
  match find_channel channelName w with
  | Some _ =>
      channels (world st') = channels w /\
      forall x, ChannelCreated x ∈ trace st' -> ChannelCreated x ∈ tr
  | None =>
      exists c, channels (world st') = channels w ++ [c] /\
        channel_name c = channelName /\ channel_type c = GuildText
  end.

(** An embed copy sent during a delivery is a copy of the first embed. *)
Definition copies_first (msg : Message) (ev : Event) : Prop :=
  match ev with
  | Sent _ (EmbedCopy d) => exists e es, embeds msg = e :: es /\ d = embed_data e
  | _ => True
  end.

(** At most one role answering to [name] and at most one text channel called
    [chan] have been added to [w], and none where the lookup in [w] finds
    one. *)
Definition at_most_one_each `{RT : Runtime} (name chan : str) (w w' : World) : Prop :=
  (roles w' = roles w \/
   find_role name w = None /\
   exists role, roles w' = roles w ++ [role] /\ role_name role = name) /\
  (channels w' = channels w \/
   find_channel chan w = None /\
   exists c, channels w' = channels w ++ [c] /\
     channel_name c = chan /\ channel_type c = GuildText).

(** A role answers to a first name when the two are equal once lower-cased;
    a channel is the character's when it is a text channel of exactly that
    name. *)
Definition answers_to `{RT : Runtime} (firstName : str) (r : Role) : Prop :=
  toLowerCase (role_name r) = toLowerCase firstName.

Definition text_channel_named (channelName : str) (c : Channel) : Prop :=
  channel_type c = GuildText /\ channel_name c = channelName.

(** An event by which provisioning changes the guild or writes into a new
    channel. *)
Definition provisions (ev : Event) : bool :=
  match ev with
  | RoleCreated _ | ChannelCreated _ | RoleAdded _ _
  | Sent _ (Welcome _) | Sent _ (EmbedCopy _) => true
  | _ => false
  end.

(** The roles and the channels that a trace shows created, in order. *)
Definition created_roles (tr : list Event) : list Role :=
  omap (fun ev => match ev with RoleCreated r => Some r | _ => None end) tr.

Definition created_channels (tr : list Event) : list Channel :=
  omap (fun ev => match ev with ChannelCreated c => Some c | _ => None end) tr.

(** What a run of provisioning with no platform call rejected creates. *)
Definition creates_what_is_missing `{RT : Runtime} (firstName channelName : str)
    (w : World) (tr : list Event) (st' : St) : Prop :=
  match find_role firstName w with
  | Some _ =>
      roles (world st') = roles w /\ created_roles (trace st') = created_roles tr
  | None =>
      exists role, roles (world st') = roles w ++ [role] /\
        role_name role = firstName /\
        created_roles (trace st') = created_roles tr ++ [role]
  end /\
  match find_channel channelName w with
  | Some _ =>
      channels (world st') = channels w /\
      created_channels (trace st') = created_channels tr
  | None =>
      exists c, channels (world st') = channels w ++ [c] /\
        text_channel_named channelName c /\
        created_channels (trace st') = created_channels tr ++ [c]
  end.

(** *** Vocabulary of slugs *)

(** Runs of code units outside [a-z0-9] replaced by one hyphen each;
    [in_run] says that the run at the head has already got its hyphen. *)
Fixpoint hyphenate (in_run : bool) (s : str) : str :=
  match s with
  | [] => []
  | c :: s' =>
      if alnum c then c :: hyphenate false s'
      else if in_run then hyphenate true s'
      else hyphen :: hyphenate true s'
  end.

(** A hyphen at the very end removed. *)
Fixpoint strip_last (u : str) : str :=
  match u with
  | [] => []
  | c :: u' =>
      match u' with
      | [] => if c =? hyphen then [] else [c]
      | _ :: _ => c :: strip_last u'
      end
  end.

(** A hyphen at the very start removed, then one at the very end. *)
Definition strip_edges (t : str) : str :=
  match t with
  | [] => []
  | c :: t' => if c =? hyphen then strip_last t' else c :: strip_last t'
  end.

Definition slug_char (c : N) : bool := alnum c || (c =? hyphen).

Definition starts_with_hyphen (s : str) : bool :=
  match s with c :: _ => c =? hyphen | [] => false end.

Fixpoint ends_with_hyphen (s : str) : bool :=
  match s with
  | [] => false
  | c :: s' =>
      match s' with
      | [] => c =? hyphen
      | _ :: _ => ends_with_hyphen s'
      end
  end.

(** No two hyphens in a row. *)
Fixpoint no_double (s : str) : bool :=
  match s with
  | [] => true
  | c :: s' => negb ((c =? hyphen) && starts_with_hyphen s') && no_double s'
  end.

(** *** Vocabulary of name extraction *)

Fixpoint take_while (p : N -> bool) (s : str) : str :=
  match s with
  | [] => []
  | c :: s' => if p c then c :: take_while p s' else []
  end.

(** The class [p] does not go on at the head of [s]. *)
Definition stops (p : N -> bool) (s : str) : bool :=
  match s with [] => true | c :: _ => negb (p c) end.

(** [s] starts with the letters of [word], in either case. *)
Fixpoint starts_ci (word : list N) (s : str) : bool :=
  match word with
  | [] => true
  | l :: word' =>
      match s with
      | c :: s' => ci l c && starts_ci word' s'
      | [] => false
      end
  end.

(** [s] starts with [word], optional white space and a colon. *)
Definition has_prefix (word : list N) (s : str) : bool :=
  starts_ci word s &&
  match drop_while is_ws (drop (length word) s) with
  | c :: _ => c =? 58
  | [] => false
  end.

(** What follows the colon of the prefix. *)
Definition after_prefix (word : list N) (s : str) : str :=
  tail (drop_while is_ws (drop (length word) s)).

(** The patterns of [parseOCName] and of the embed title, cut at the word. *)
Fixpoint re_word (word : list N) (rest : regex) : regex :=
  match word with
  | [] => rest
  | l :: word' => Seq (Chr (ci l)) (re_word word' rest)
  end.

Definition re_tail (anchored : bool) : regex :=
  Seq (Star ws) (Seq (Chr colon) (Seq (Star ws)
    (if anchored then Seq (Group (Plus dot)) Eos else Group (Plus dot)))).

Definition word_oc : list N := [111; 99].
Definition word_name : list N := [110; 97; 109; 101].

Definition lower_letters (word : list N) : Prop :=
  Forall (fun l => between 97 122 l = true) word /\ word <> [].

(** [parseOCName] without patterns: the remainder after a prefix when it is
    not blank and stays on one line, and the whole trimmed text otherwise. *)
Definition remainder_or_all (word : list N) (s : str) : str :=
  let r := trimStart (after_prefix word s) in
  if nonempty r && forallb dot r then trim r else s.

Definition parseOCName_direct (content : str) : str :=
  let s := trim content in
  if has_prefix word_oc s then remainder_or_all word_oc s
  else if has_prefix word_name s then remainder_or_all word_name s
  else s.

(** The extraction as the specification words it: the rest of a matching
    embed title, trimmed; otherwise the remainder after an [oc:] or [name:]
    prefix of the trimmed text, trimmed; otherwise the trimmed text. *)
Definition claimed_text_name (content : str) : str :=
  let t := trim content in
  if has_prefix word_oc t then trim (after_prefix word_oc t)
  else if has_prefix word_name t then trim (after_prefix word_name t)
  else t.

Definition claimed_name (msg : Message) : str :=
  match embeds msg with
  | e :: _ =>
      match embed_title e with
      | Some title =>
          match match1 re_embed_title title with
          | Some rest => trim rest
          | None => claimed_text_name (content msg)
          end
      | None => claimed_text_name (content msg)
      end
  | [] => claimed_text_name (content msg)
  end.

(** *** Vocabulary of provisioning, of the sheet and of the title *)

(** The character's entry among the overwrites of a new channel. *)
Definition member_entry (rid : snowflake) : Overwrite :=
  {| ow_id := Some rid; ow_allow := member_allow; ow_deny := [] |}.

(** The outcome of provisioning for a message with a member when no platform
    call is rejected. *)
Definition member_outcome `{RT : Runtime} (cfg : Config) (g who : snowflake)
    (firstName channelName : str) (w : World) (tr : list Event)
    (r : result unit) (st' : St) : Prop :=
  r = Ok tt /\
  exists role,
    find_role firstName (world st') = Some role /\
    (forall x, x ∈ member_roles (world st') <->
               x = (who, role_id role) \/ x ∈ member_roles w) /\
    (RoleAdded who (role_id role) ∈ trace st' ->
       RoleAdded who (role_id role) ∈ tr \/ (who, role_id role) ∉ member_roles w) /\
    ((who, role_id role) ∉ member_roles w ->
       RoleAdded who (role_id role) ∈ trace st') /\
    (find_channel channelName w = None ->
       exists c, find_channel channelName (world st') = Some c /\
         channel_parent c = OC_CATEGORY_ID cfg /\
         channel_overwrites c = build_overwrites cfg g role).

(** A call on behalf of the submitting member: the role assignment or the
    audit message. *)
Definition for_member (ev : Event) : bool :=
  match ev with
  | RoleAdded _ _ | Sent _ (AuditLog _ _ _ _) => true
  | _ => false
  end.

(** What holds when an audit message is in the trace of provisioning. *)
Definition audit_facts `{RT : Runtime} (cfg : Config) (msg : Message)
    (fullName firstName channelName : str) (st' : St) (ev : Event) : Prop :=
  exists logChannel role chan who,
    ev = Sent (channel_id logChannel)
           (AuditLog fullName (role_id role) (channel_id chan) (author_id msg)) /\
    LOG_CHANNEL_ID cfg = Some (channel_id logChannel) /\
    logChannel ∈ channels (world st') /\
    isTextBased (channel_type logChannel) = true /\
    role ∈ roles (world st') /\
    toLowerCase (role_name role) = toLowerCase firstName /\
    chan ∈ channels (world st') /\
    channel_name chan = channelName /\
    channel_type chan = GuildText /\
    member msg = Some who /\
    (who, role_id role) ∈ member_roles (world st') /\
    last (trace st') = Some ev.

Definition is_audit (ev : Event) : bool :=
  match ev with Sent _ (AuditLog _ _ _ _) => true | _ => false end.

(** The platform calls that provisioning makes before the embed copy when the
    channel is to be created: the guild fetch, the role creation if the role
    is missing, the channel creation and the welcome. *)
Definition calls_before_copy `{RT : Runtime} (firstName : str) (w : World) : nat :=
  match find_role firstName w with Some _ => 3%nat | None => 4%nat end.

Definition is_copy (ev : Event) : bool :=
  match ev with Sent _ (EmbedCopy _) => true | _ => false end.

(** What stands behind an event of provisioning: a role is created under
    the first name when no role answers to it; a channel is created as a text
    channel of the given name under the category when no text channel has
    that name; and a welcome or a copy of the embed goes to a channel created
    in the same run. *)
Definition justified `{RT : Runtime} (cfg : Config) (fullName firstName channelName : str)
    (w : World) (tr : list Event) (ev : Event) : Prop :=
  match ev with
  | RoleCreated r => role_name r = firstName /\ find_role firstName w = None
  | ChannelCreated c =>
      channel_name c = channelName /\ channel_type c = GuildText /\
      channel_parent c = OC_CATEGORY_ID cfg /\ find_channel channelName w = None
  | Sent ch (Welcome n) =>
      n = fullName /\ exists c, ChannelCreated c ∈ tr /\ channel_id c = ch
  | Sent ch (EmbedCopy _) => exists c, ChannelCreated c ∈ tr /\ channel_id c = ch
  | _ => True
  end.

(** [s.split(/\s+/)] without the pattern: the text is cut at every maximal
    run of the class [p]; [in_run] says that the run at hand has been cut
    already, and [cur] is the piece being collected. *)
Fixpoint split_runs (p : N -> bool) (in_run : bool) (cur : str) (s : str) : list str :=
  match s with
  | [] => [cur]
  | c :: s' =>
      if p c then
        if in_run then split_runs p true cur s' else cur :: split_runs p true [] s'
      else split_runs p false (cur ++ [c]) s'
  end.

Definition not_ws (c : N) : bool := negb (is_ws c).

Definition ends_cr (s : str) : bool :=
  match last s with Some c => c =? 13 | None => false end.

(** A carriage return at the very end removed. *)
Definition strip_cr (s : str) : str := if ends_cr s then removelast s else s.

(** [text.split(/\r?\n/)] without the pattern: the text is cut at every line
    feed, and a piece that is followed by a line feed loses one carriage
    return at its end. *)
Fixpoint lines_go (cur : str) (s : str) : list str :=
  match s with
  | [] => [cur]
  | c :: s' =>
      if c =? 10 then strip_cr cur :: lines_go [] s' else lines_go (cur ++ [c]) s'
  end.

Definition starts_lf (s : str) : bool :=
  match s with c :: _ => c =? 10 | [] => false end.

(** Neither a comma nor a line feed. *)
Definition plain (c : N) : bool := negb (c =? 44) && negb (c =? 10).

(** An ASCII letter or digit. *)
Definition is_alnum (c : N) : bool := is_lower c || is_upper c || is_digit c.

(** An event of the making of a channel: its creation, the welcome, the
    copy of the embed. *)
Definition for_new_channel (ev : Event) : bool :=
  match ev with
  | ChannelCreated _ | Sent _ (Welcome _) | Sent _ (EmbedCopy _) => true
  | _ => false
  end.

(** The match of the title pattern at the start of [s], read at group 1.
    After the word, the colon and the white space, the group takes what is
    left of the line; when nothing is left, the white space gives back its
    last code unit that is no line terminator, and the group is that one
    code unit. *)
Definition title_attempt (s : str) : option str :=
  if has_prefix word_oc s then
    let rem := after_prefix word_oc s in
    match drop_while is_ws rem with
    | x :: r => Some (take_while dot (x :: r))
    | [] =>
        match last (List.filter dot rem) with
        | Some c => Some [c]
        | None => None
        end
    end
  else None.

(** [title.match(/OC\s*:\s*(.+)/i)] without the pattern, read at group 1. *)
Fixpoint title_search (s : str) : option str :=
  match title_attempt s with
  | Some g => Some g
  | None =>
      match s with
      | [] => None
      | _ :: s' => title_search s'
      end
  end.

(** [extract_name] with the search of the title written out. *)
Definition extract_name_by_search (msg : Message) : str :=
  let from_text := parseOCName (content msg) in
  match embeds msg with
  | e :: _ =>
      match embed_title e with
      | Some title =>
          match title_search title with
          | Some g => if nonempty (trim g) then trim g else from_text
          | None => from_text
          end
      | None => from_text
      end
  | [] => from_text
  end.

Definition ending : @cont (nat * option str) := fun e _ cap => Some (e, cap).

(** The role made for a first name in [w], and the channel made after it. *)
Definition new_role (firstName : str) (w : World) : Role :=
  {| role_id := next_id w; role_name := firstName |}.

Definition new_channel (cfg : Config) (g : snowflake) (channelName : str) (w : World)
  : Channel :=
  {| channel_id := next_id w + 1; channel_name := channelName;
     channel_type := GuildText; channel_parent := OC_CATEGORY_ID cfg;
     channel_overwrites := overwrites_shape cfg g (next_id w) |}.

Definition not_lf (c : N) : bool := negb (c =? 10).




(** ** Concrete inputs used to run the model *)

Definition cfg_demo : Config :=
  {| GUILD_ID := Some 1; SUBMISSIONS_CHANNEL_ID := Some 2; OC_CATEGORY_ID := Some 3;
     MOD_ROLE_ID := Some 4; GM_ROLE_ID := None; LOG_CHANNEL_ID := None |}.

(** A sheet with a header row and two registered characters. *)
Definition sheet_demo : str :=
  lit "Timestamp,Name" ++ [10] ++ lit "2024,Sakura Haruno,x" ++ [13; 10] ++
  lit "2025, Tobi " ++ [10].

Definition world_demo : World :=
  {| roles := []; channels := []; member_roles := ∅; next_id := 100;
     sheet := Body sheet_demo; existingOCNames := ∅ |}.

Definition msg_demo (text : string) : Message :=
  {| author_id := 7; author_bot := false; webhookId := None; guild := Some 1;
     channel := 2; content := lit text; embeds := []; member := Some 7 |}.

(** A message of another bot, without a webhook. *)
Definition msg_bot : Message :=
  {| author_id := 8; author_bot := true; webhookId := None; guild := Some 1;
     channel := 2; content := lit "OC: Mito Uzumaki"; embeds := []; member := Some 8 |}.

Definition st_demo : St := {| world := world_demo; faults := []; trace := [] |}.

Definition msg_mito : Message := msg_demo "OC: Mito Uzumaki".

Definition msg_tobi : Message := msg_demo "TOBI".

(** The channel that the first delivery of [msg_mito] creates in
    [world_demo] under [cfg_demo]. *)
Definition channel_mito : Channel :=
  {| channel_id := 101;
     channel_name := lit "oc-mito-uzumaki";
     channel_type := GuildText;
     channel_parent := Some 3;
     channel_overwrites := overwrites_shape cfg_demo 1 100 |}.

Definition msg_blank_title : Message :=
  with_embeds (msg_demo "Mito Uzumaki")
    [ {| embed_title := Some (lit "OC: "); embed_data := 0 |} ].

Definition two_lines : str := lit "OC: Mito Uzumaki" ++ [10] ++ lit "Age: 12".

Definition msg_two_lines : Message :=
  {| author_id := 7; author_bot := false; webhookId := None; guild := Some 1;
     channel := 2; content := two_lines; embeds := []; member := Some 7 |}.

(** A submission relayed by a webhook: it has an embed and no member. *)
Definition msg_webhook : Message :=
  {| author_id := 9; author_bot := true; webhookId := Some 55; guild := Some 1;
     channel := 2; content := [];
     embeds := [ {| embed_title := Some (lit "OC: Mito Uzumaki"); embed_data := 42 |} ];
     member := None |}.

(** A configuration with a log channel, and a world that has it. *)
Definition cfg_log : Config :=
  {| GUILD_ID := Some 1; SUBMISSIONS_CHANNEL_ID := Some 2; OC_CATEGORY_ID := Some 3;
     MOD_ROLE_ID := Some 4; GM_ROLE_ID := None; LOG_CHANNEL_ID := Some 5 |}.

Definition channel_log : Channel :=
  {| channel_id := 5; channel_name := lit "bot-log"; channel_type := GuildText;
     channel_parent := None; channel_overwrites := [] |}.

Definition world_log : World :=
  {| roles := []; channels := [channel_log]; member_roles := ∅; next_id := 100;
     sheet := Body sheet_demo; existingOCNames := ∅ |}.

(** Another member's character with the same first name. *)
Definition msg_senju : Message :=
  {| author_id := 9; author_bot := false; webhookId := None; guild := Some 1;
     channel := 2; content := lit "OC: mito Senju"; embeds := []; member := Some 9 |}.

(** The name of [msg_mito] typed otherwise. *)
Definition msg_shout : Message := msg_demo "OC: MITO  UZUMAKI!".

(** [msg_mito] with an embed that has no title. *)
Definition msg_embed : Message :=
  with_embeds msg_mito [ {| embed_title := None; embed_data := 42 |} ].

Definition msg_comma : Message := msg_demo "Haruno, Sakura".

(** A world where a role [MITO] is there already, and a text channel whose
    name differs from [oc-mito-uzumaki] in case only. *)
Definition world_reuse : World :=
  {| roles := [ {| role_id := 50; role_name := lit "MITO" |} ];
     channels := [ {| channel_id := 60; channel_name := lit "OC-Mito-Uzumaki";
                      channel_type := GuildText; channel_parent := None;
                      channel_overwrites := [] |} ];
     member_roles := ∅; next_id := 100;
     sheet := Body sheet_demo; existingOCNames := ∅ |}.

(** ** Reasoning about handler runs *)

(** [wp m Q st]: running [m] from [st] ends in a result and a state that
    satisfy [Q]. *)
Definition wp {A} (m : M A) (Q : result A -> St -> Prop) (st : St) : Prop :=
  Q (fst (m st)) (snd (m st)).

(** [rel R m]: every run of [m] takes a state to an [R]-related one. *)
Definition rel (R : St -> St -> Prop) {A} (m : M A) : Prop :=
  forall st, R st (snd (m st)).

(** The events added to the trace all satisfy [P]. *)
Definition extends (P : Event -> Prop) (st st' : St) : Prop :=
  exists tr', trace st' = trace st ++ tr' /\ Forall P tr'.

(** The component [f] of the world is left alone. *)
Definition keeps {X} (f : World -> X) (st st' : St) : Prop :=
  f (world st') = f (world st).

Definition is_log (ev : Event) : bool :=
  match ev with Warned _ | Errored _ => true | _ => false end.

Definition is_throw {A} (r : result A) : bool :=
  match r with Throw _ => true | Ok _ => false end.

(** Every rejected platform call of a run of [m] is accounted for: the run
    consumes a prefix of the schedule, and if that prefix holds a rejection
    then the run has thrown or has logged a warning or an error. *)
Definition accounted {A} (m : M A) : Prop :=
  forall st, exists used new,
    faults st = used ++ faults (snd (m st)) /\
    trace (snd (m st)) = trace st ++ new /\
    (true ∈ used -> is_throw (fst (m st)) = true \/ existsb is_log new = true).

Section WpRules.
Context {A B : Type}.
Implicit Types (Q : result A -> St -> Prop).

Lemma wp_ret (a : A) Q st : Q (Ok a) st -> wp (ret a) Q st.
Proof. done. Qed.

Lemma wp_throw e Q st : Q (Throw e) st -> wp (throw e) Q st.
Proof. done. Qed.

Lemma wp_bind (m : M B) (f : B -> M A) Q st :
  wp m (fun r st' =>
          match r with
          | Ok b => wp (f b) Q st'
          | Throw e => Q (Throw e) st'
          end) st ->
  wp (bind m f) Q st.
Proof. unfold wp, bind. by destruct (m st) as [[b|e] st']. Qed.

Lemma wp_try_catch (m : M A) h Q st :
  wp m (fun r st' =>
          match r with
          | Ok a => Q (Ok a) st'
          | Throw e => wp (h e) Q st'
          end) st ->
  wp (try_catch m h) Q st.
Proof. unfold wp, try_catch. by destruct (m st) as [[a|e] st']. Qed.

Lemma wp_call (act : World -> A * World) ev Q w fs tr :
  (forall fs', fs = true :: fs' ->
     Q (Throw ApiError) {| world := w; faults := fs'; trace := tr |}) ->
  (head fs <> Some true ->
     Q (Ok (fst (act w)))
       {| world := snd (act w); faults := tail fs;
          trace := tr ++ [ev (fst (act w))] |}) ->
  wp (call act ev) Q {| world := w; faults := fs; trace := tr |}.
Proof.
  intros Hf Hs. unfold wp, call; cbn [world faults trace].
  destruct fs as [|[] fs]; [ | by apply Hf | ];
    (destruct (act w) eqn:E; simpl in *; by apply Hs).
Qed.

Lemma wp_mono (m : M A) Q Q' st :
  wp m Q st -> (forall r st', Q r st' -> Q' r st') -> wp m Q' st.
Proof. unfold wp. auto. Qed.

End WpRules.

Lemma wp_get_world Q st : Q (Ok (world st)) st -> wp get_world Q st.
Proof. done. Qed.

Lemma wp_emit ev Q st :
  Q (Ok tt) {| world := world st; faults := faults st; trace := trace st ++ [ev] |} ->
  wp (emit ev) Q st.
Proof. done. Qed.

Lemma wp_set_existingOCNames names Q st :
  Q (Ok tt) {| world := with_names (world st) names; faults := faults st;
               trace := trace st |} ->
  wp (set_existingOCNames names) Q st.
Proof. done. Qed.

Ltac wp_step :=
  lazymatch goal with
  | |- wp (bind _ _) _ _ => apply wp_bind
  | |- wp (try_catch _ _) _ _ => apply wp_try_catch
  | |- wp (ret _) _ _ => apply wp_ret
  | |- wp (throw _) _ _ => apply wp_throw
  | |- wp get_world _ _ => apply wp_get_world
  | |- wp (emit _) _ _ => apply wp_emit
  | |- wp (set_existingOCNames _) _ _ => apply wp_set_existingOCNames
  | |- wp (call _ _) _ _ => apply wp_call; [intros ? ?|intros ?]
  | |- wp (match ?x with _ => _ end) _ _ => destruct x eqn:?
  end; cbn [world faults trace fst snd].

Section RelRules.
Context (R : St -> St -> Prop) {HR : PreOrder R}.

Lemma rel_ret {A} (a : A) : rel R (ret a).
Proof. intros st. reflexivity. Qed.

Lemma rel_throw {A} e : rel R (@throw A e).
Proof. intros st. reflexivity. Qed.

Lemma rel_get_world : rel R get_world.
Proof. intros st. reflexivity. Qed.

Lemma rel_bind {A B} (m : M A) (f : A -> M B) :
  rel R m -> (forall a, rel R (f a)) -> rel R (bind m f).
Proof.
  intros Hm Hf st. unfold bind. specialize (Hm st).
  destruct (m st) as [[a|e] st']; simpl in *; [|done].
  etransitivity; [exact Hm | apply Hf].
Qed.

Lemma rel_try_catch {A} (m : M A) (h : Exn -> M A) :
  rel R m -> (forall e, rel R (h e)) -> rel R (try_catch m h).
Proof.
  intros Hm Hh st. unfold try_catch. specialize (Hm st).
  destruct (m st) as [[a|e] st']; simpl in *; [done|].
  etransitivity; [exact Hm | apply Hh].
Qed.

Lemma rel_call {A} (act : World -> A * World) (ev : A -> Event) :
  (forall w fs tr, R {| world := w; faults := true :: fs; trace := tr |}
                     {| world := w; faults := fs; trace := tr |}) ->
  (forall w fs tr, R {| world := w; faults := fs; trace := tr |}
                     {| world := snd (act w); faults := tail fs;
                        trace := tr ++ [ev (fst (act w))] |}) ->
  rel R (call act ev).
Proof.
  intros Hf Hs [w fs tr]. unfold call; simpl.
  destruct fs as [|[] fs]; [ | apply Hf | ];
    (specialize (Hs w); destruct (act w); apply Hs).
Qed.

End RelRules.

#[global] Instance extends_preorder P : PreOrder (extends P).
Proof.
  split.
  - intros st. exists []. by rewrite app_nil_r.
  - intros a b c (t1 & E1 & F1) (t2 & E2 & F2). exists (t1 ++ t2).
    rewrite E2, E1, app_assoc. split; [done|]. by apply Forall_app.
Qed.

#[global] Instance keeps_preorder {X} (f : World -> X) : PreOrder (keeps f).
Proof. split; [done|]. intros a b c H1 H2. unfold keeps in *. congruence. Qed.

Lemma extends_call {A} P (act : World -> A * World) ev :
  (forall w, P (ev (fst (act w)))) -> rel (extends P) (call act ev).
Proof.
  intros H. apply rel_call.
  - intros. exists []. simpl. by rewrite app_nil_r.
  - intros. eexists. simpl. split; [done|]. by constructor.
Qed.

Lemma extends_emit P ev : P ev -> rel (extends P) (emit ev).
Proof. intros H st. eexists. split; [done|]. by constructor. Qed.

Lemma extends_set_existingOCNames P names : rel (extends P) (set_existingOCNames names).
Proof. intros st. exists []. simpl. by rewrite app_nil_r. Qed.

Lemma keeps_call {A X} (f : World -> X) (act : World -> A * World) ev :
  (forall w, f (snd (act w)) = f w) -> rel (keeps f) (call act ev).
Proof. intros H. apply rel_call; [done|]. intros. apply H. Qed.

Lemma keeps_emit {X} (f : World -> X) ev : rel (keeps f) (emit ev).
Proof. done. Qed.

Ltac rel_step :=
  match goal with
  | |- rel _ (bind _ _) => apply rel_bind; [apply _| |intros ?]
  | |- rel _ (try_catch _ _) => apply rel_try_catch; [apply _| |intros ?]
  | |- rel _ (ret _) => apply rel_ret; apply _
  | |- rel _ (throw _) => apply rel_throw; apply _
  | |- rel _ get_world => apply rel_get_world; apply _
  | |- rel (extends _) (call _ _) => apply extends_call; intros ?
  | |- rel (extends _) (emit _) => apply extends_emit
  | |- rel (extends _) (set_existingOCNames _) => apply extends_set_existingOCNames
  | |- rel (keeps _) (call _ _) => apply keeps_call; intros ?
  | |- rel (keeps _) (emit _) => apply keeps_emit
  | |- rel _ (match ?x with _ => _ end) => destruct x eqn:?
  end.

(** Every event of a run from the empty trace satisfies [P]. *)
Lemma extends_from_empty {A} P (m : M A) w fs :
  rel (extends P) m ->
  Forall P (trace (snd (m {| world := w; faults := fs; trace := [] |}))).
Proof. intros H. destruct (H {| world := w; faults := fs; trace := [] |}) as (tr & -> & ?). done. Qed.

Lemma accounted_pure {A} (m : M A) :
  (forall st, faults (snd (m st)) = faults st /\ exists new, trace (snd (m st)) = trace st ++ new) ->
  accounted m.
Proof.
  intros H st. destruct (H st) as [Hf [new Ht]]. exists [], new.
  rewrite Hf. split; [done|]. split; [done|]. by intros ?%elem_of_nil.
Qed.

Lemma accounted_ret {A} (a : A) : accounted (ret a).
Proof. apply accounted_pure. intros st. split; [done|]. exists []. by rewrite app_nil_r. Qed.

Lemma accounted_throw {A} e : accounted (@throw A e).
Proof. apply accounted_pure. intros st. split; [done|]. exists []. by rewrite app_nil_r. Qed.

Lemma accounted_get_world : accounted get_world.
Proof. apply accounted_pure. intros st. split; [done|]. exists []. by rewrite app_nil_r. Qed.

Lemma accounted_emit ev : accounted (emit ev).
Proof. apply accounted_pure. intros st. split; [done|]. by exists [ev]. Qed.

Lemma accounted_set_existingOCNames names : accounted (set_existingOCNames names).
Proof. apply accounted_pure. intros st. split; [done|]. exists []. by rewrite app_nil_r. Qed.

Lemma accounted_call {A} (act : World -> A * World) ev : accounted (call act ev).
Proof.
  intros [w fs tr]. unfold call; cbn [world faults trace].
  destruct fs as [|[] fs]; [ | | ]; try destruct (act w) as [a w'] eqn:E; cbn [fst snd faults trace].
  - exists [], [ev a]. split; [done|]. split; [done|]. by intros ?%elem_of_nil.
  - exists [true], []. rewrite app_nil_r. split; [done|]. split; [done|]. auto.
  - exists [false], [ev a]. split; [done|]. split; [done|].
    intros H. apply list_elem_of_singleton in H. discriminate.
Qed.

Lemma accounted_bind {A B} (m : M A) (f : A -> M B) :
  accounted m -> (forall a, accounted (f a)) -> accounted (bind m f).
Proof.
  intros Hm Hf st. unfold bind. destruct (Hm st) as (u1 & n1 & Hu1 & Hn1 & H1).
  destruct (m st) as [[a|e] st1]; cbn [fst snd] in *.
  - destruct (Hf a st1) as (u2 & n2 & Hu2 & Hn2 & H2).
    exists (u1 ++ u2), (n1 ++ n2). rewrite Hu1, Hu2, Hn2, Hn1, !app_assoc.
    split; [done|]. split; [done|]. rewrite elem_of_app, existsb_app.
    intros [H|H].
    + destruct (H1 H) as [?| ->]; [done|]. auto.
    + destruct (H2 H) as [?| ->]; [auto|]. right. apply orb_true_r.
  - exists u1, n1. auto.
Qed.

Lemma accounted_try_catch {A} (m : M A) (h : Exn -> M A) :
  accounted m ->
  (forall e st, faults (snd (h e st)) = faults st /\
     exists new, trace (snd (h e st)) = trace st ++ new /\ existsb is_log new = true) ->
  accounted (try_catch m h).
Proof.
  intros Hm Hh st. unfold try_catch. destruct (Hm st) as (u1 & n1 & Hu1 & Hn1 & H1).
  destruct (m st) as [[a|e] st1]; cbn [fst snd] in *.
  - exists u1, n1. auto.
  - destruct (Hh e st1) as (Hf & n2 & Hn2 & Hlog).
    exists u1, (n1 ++ n2). rewrite Hf, Hn2, Hn1, app_assoc.
    split; [done|]. split; [done|]. intros _. right.
    rewrite existsb_app, Hlog. apply orb_true_r.
Qed.

Lemma logs_emit ev st :
  is_log ev = true ->
  faults (snd (emit ev st)) = faults st /\
  exists new, trace (snd (emit ev st)) = trace st ++ new /\ existsb is_log new = true.
Proof. intros H. split; [done|]. exists [ev]. split; [done|]. simpl. by rewrite H. Qed.

Lemma logs_warn_ret {A} (a : A) e st :
  faults (snd ((emit (Warned e) ;; ret a) st)) = faults st /\
  exists new, trace (snd ((emit (Warned e) ;; ret a) st)) = trace st ++ new /\
    existsb is_log new = true.
Proof. split; [done|]. by exists [Warned e]. Qed.

Ltac accounted_step :=
  match goal with
  | |- accounted (bind _ _) => apply accounted_bind; [|intros ?]
  | |- accounted (try_catch _ _) =>
      apply accounted_try_catch;
        [|intros ? ?; first [apply logs_warn_ret | by apply logs_emit]]
  | |- accounted (ret _) => apply accounted_ret
  | |- accounted (throw _) => apply accounted_throw
  | |- accounted get_world => apply accounted_get_world
  | |- accounted (emit _) => apply accounted_emit
  | |- accounted (set_existingOCNames _) => apply accounted_set_existingOCNames
  | |- accounted (call _ _) => apply accounted_call
  | |- accounted (match ?x with _ => _ end) => destruct x eqn:?
  end.

(** ** The phases of the handler *)

Section Phases.
Context `{RT : Runtime}.

Lemma loadExistingOCs_run st :
  loadExistingOCs st =
  (Ok (roster_of (sheet (world st))),
   {| world := world st; faults := faults st;
      trace := trace st ++ Fetched :: warning_of (sheet (world st)) |}).
Proof.
  destruct st as [w fs tr].
  unfold loadExistingOCs, try_catch, bind, emit, get_world, throw, ret; simpl.
  destruct (sheet w); simpl; rewrite <- ?app_assoc; reflexivity.
Qed.

(** A message that fails a guard, or carries no name, ends the handler at
    once; any other message is in scope and has a name. *)
Lemma handler_body_cases cfg msg :
  (forall st, handler_body cfg msg st = (Ok tt, st)) \/
  (exists g, in_scope cfg msg g /\ extract_name msg <> []).
Proof.
  unfold handler_body, in_scope.
  destruct (author_bot msg) eqn:Hb, (webhookId msg) eqn:Hw; simpl; auto;
  (destruct (guild msg) as [g|] eqn:Hg; auto);
  (case_bool_decide; simpl; auto);
  (case_bool_decide; simpl; auto);
  (destruct (extract_name msg) eqn:Hn; simpl; auto);
  right; exists g; naive_solver.
Qed.

Lemma handler_body_in_scope cfg msg g st :
  in_scope cfg msg g ->
  extract_name msg <> [] ->
  handler_body cfg msg st =
  let n := extract_name msg in
  let st1 := {| world := with_names (world st) (roster_of (sheet (world st)));
                faults := faults st;
                trace := trace st ++ Fetched :: warning_of (sheet (world st)) |} in
  if bool_decide (toLowerCase n ∈ roster_of (sheet (world st))) then
    reply (DuplicateNotice n) st1
  else if (length (split re_spaces n) <? 2)%nat then reply FormatHelp st1
  else provision cfg g msg n (split re_spaces n) st1.
Proof.
  intros (Hbot & Hg & Hgid & Hch) Hn. unfold handler_body.
  replace (author_bot msg && negb (bool_decide (is_Some (webhookId msg)))) with false.
  2:{ destruct Hbot as [->| H]; [reflexivity|]. rewrite bool_decide_eq_true_2 by done.
      by rewrite andb_false_r. }
  rewrite Hg, Hgid, Hch. rewrite !bool_decide_eq_true_2 by done.
  replace (nonempty (extract_name msg)) with true by (by destruct (extract_name msg)).
  cbv beta iota zeta delta [negb].
  unfold bind at 1. rewrite loadExistingOCs_run.
  destruct st as [w fs tr].
  cbv [bind set_existingOCNames get_world world faults trace existingOCNames with_names].
  destruct (bool_decide _); [reflexivity|].
  destruct (_ <? _)%nat; reflexivity.
Qed.

End Phases.

(** ** Scope guards *)

Section Guards.
Context `{RT : Runtime}.

(** C6. A message of a bot that is no webhook, a message outside the
    configured guild (or outside any guild), and a message outside the
    submissions channel end the handler at once: the result is a normal
    return and the whole state is as before, so the world is untouched, no
    platform call was made and nothing was added to the trace (no fetch, no
    reply, no creation, no message). *)
Theorem out_of_scope_message_ignored cfg msg st :
  (author_bot msg = true /\ webhookId msg = None) \/
  (forall g, guild msg = Some g -> GUILD_ID cfg <> Some g) \/
  SUBMISSIONS_CHANNEL_ID cfg <> Some (channel msg) ->
  handler cfg msg st = (Ok tt, st).
Proof.
  intros H. unfold handler, try_catch, handler_body.
  destruct (author_bot msg) eqn:Hb, (webhookId msg) eqn:Hw; simpl;
    try (destruct H as [[? ?]|H]; [congruence|]); try reflexivity;
    (destruct (guild msg) as [g|] eqn:Hg; try reflexivity);
    (case_bool_decide; simpl; try reflexivity);
    (case_bool_decide; simpl; try reflexivity);
    exfalso; (destruct H as [H|H]; [eapply H; eauto | eauto]).
Qed.

End Guards.

(** C6 at the message of a bot that is no webhook. *)
Lemma out_of_scope_message_ignored_witness :
  @handler ascii_runtime cfg_demo msg_bot st_demo = (Ok tt, st_demo).
Proof.
  apply (@out_of_scope_message_ignored ascii_runtime cfg_demo msg_bot st_demo).
  left. split; reflexivity.
Defined.

(** ** What provisioning touches *)

Section Provision.
Context `{RT : Runtime}.

Ltac unfold_provision :=
  unfold provision, guilds_fetch, roles_create, channels_create, send, roles_add.

Lemma provision_sends_no_reply cfg g msg n parts :
  rel (extends (fun ev => is_reply ev = false)) (provision cfg g msg n parts).
Proof. unfold_provision. repeat rel_step; simpl; done. Qed.

Lemma provision_keeps_roster cfg g msg n parts :
  rel (keeps (fun w => (sheet w, existingOCNames w))) (provision cfg g msg n parts).
Proof. unfold_provision. repeat rel_step; simpl; done. Qed.

Lemma reply_keeps_world r st : world (snd (reply r st)) = world st.
Proof. destruct st as [w [|[] fs] tr]; reflexivity. Qed.

Lemma existsb_false_Forall {X} (p : X -> bool) l :
  Forall (fun x => p x = false) l -> existsb p l = false.
Proof. induction 1 as [|x l Hx _ IH]; simpl; [done|]. by rewrite Hx, IH. Qed.

Lemma warning_of_no_reply sh : Forall (fun ev => is_reply ev = false) (warning_of sh).
Proof. destruct sh; repeat constructor. Qed.

(** The trace of the body of an in-scope delivery whose name is not a
    duplicate and has the right shape. *)
Lemma in_scope_trace cfg msg g fs w :
  in_scope cfg msg g ->
  extract_name msg <> [] ->
  let st0 := {| world := w; faults := fs; trace := [] |} in
  let n := extract_name msg in
  forall e, fst (handler_body cfg msg st0) = Throw e ->
  Forall (fun ev => is_reply ev = false) (trace (snd (handler_body cfg msg st0))).
Proof.
  intros Hs Hn st0 n e. rewrite (handler_body_in_scope _ _ _ _ Hs Hn).
  cbn zeta. cbn [world faults trace st0 app].
  pose proof (warning_of_no_reply (sheet w)) as Hw.
  destruct (bool_decide _); [|destruct (_ <? _)%nat].
  - unfold reply, call; cbn [world faults trace].
    destruct fs as [|[] fs]; cbn [fst snd trace]; try discriminate.
    intros _. by constructor.
  - unfold reply, call; cbn [world faults trace].
    destruct fs as [|[] fs]; cbn [fst snd trace]; try discriminate.
    intros _. by constructor.
  - intros _.
    match goal with |- context [provision ?a ?b ?c ?d ?e ?s] =>
      destruct (provision_sends_no_reply a b c d e s) as (tr' & -> & Htr) end.
    cbn [trace]. apply Forall_app. split; [by constructor|done].
Qed.

End Provision.

(** ** The handler boundary *)

Section Boundary.
Context `{RT : Runtime}.

Lemma handler_accounted cfg msg : accounted (handler cfg msg).
Proof.
  unfold handler, handler_body, loadExistingOCs, reply, provision, guilds_fetch,
    roles_create, channels_create, send, roles_add.
  repeat accounted_step.
Qed.

(** C8. Whatever the message, the world and the schedule of rejected
    platform calls, the handler returns normally: no exception leaves it.
    An exception that leaves the [try] block is logged by [console.error] as
    the last event of the run, and such a run has sent no reply.  And when
    any platform call of the run was rejected, the run has logged a warning
    or an error. *)
Theorem handler_catches_every_failure cfg msg fs w :
  let st0 := {| world := w; faults := fs; trace := [] |} in
  let st' := snd (handler cfg msg st0) in
  fst (handler cfg msg st0) = Ok tt /\
  (forall e, fst (handler_body cfg msg st0) = Throw e ->
     trace st' = trace (snd (handler_body cfg msg st0)) ++ [Errored e] /\
     existsb is_reply (trace st') = false) /\
  (exists used, fs = used ++ faults st' /\
     (true ∈ used -> existsb is_log (trace st') = true)).
Proof.
  intros st0 st'.
  assert (fst (handler cfg msg st0) = Ok tt) as Hok.
  { unfold handler, try_catch. by destruct (handler_body cfg msg st0) as [[[]|e] s]. }
  split; [exact Hok|]. split.
  - intros e He.
    assert (Forall (fun ev => is_reply ev = false) (trace (snd (handler_body cfg msg st0)))) as Hno.
    { destruct (handler_body_cases cfg msg) as [Hout | (g & Hs & Hn)].
      - rewrite Hout in He. discriminate.
      - by eapply in_scope_trace. }
    unfold st', handler, try_catch.
    destruct (handler_body cfg msg st0) as [[[]|e'] s] eqn:Hb; simpl in *; [done|].
    inversion He; subst e'. split; [done|].
    apply existsb_false_Forall, Forall_app. split; [done|]. by repeat constructor.
  - destruct (handler_accounted cfg msg st0) as (used & new & Hused & Hnew & Hlog).
    exists used. split; [exact Hused|]. intros Hin.
    fold st' in Hnew. rewrite Hnew. cbn [trace st0 app].
    destruct (Hlog Hin) as [Hthrow|Hl]; [|exact Hl]. rewrite Hok in Hthrow. discriminate.
Qed.

End Boundary.

(** ** The roster *)

Section Roster.
Context `{RT : Runtime}.

Lemma handler_world cfg msg st :
  world (snd (handler cfg msg st)) = world (snd (handler_body cfg msg st)).
Proof.
  unfold handler, try_catch. by destruct (handler_body cfg msg st) as [[[]|e] st'].
Qed.

Lemma handler_trace cfg msg st :
  exists tail,
    trace (snd (handler cfg msg st)) = trace (snd (handler_body cfg msg st)) ++ tail /\
    Forall (fun ev => is_error ev = true) tail.
Proof.
  unfold handler, try_catch. destruct (handler_body cfg msg st) as [[[]|e] st']; simpl.
  - exists []. by rewrite app_nil_r.
  - eexists. split; [done|]. by repeat constructor.
Qed.

(** The in-memory roster after a delivery is the one before it or the one
    just fetched, and the sheet is never written. *)
Lemma handler_roster cfg msg st :
  let w' := world (snd (handler cfg msg st)) in
  sheet w' = sheet (world st) /\
  (existingOCNames w' = existingOCNames (world st) \/
   existingOCNames w' = roster_of (sheet (world st))).
Proof.
  cbn zeta. rewrite handler_world.
  destruct (handler_body_cases cfg msg) as [Hout | (g & Hs & Hn)].
  { rewrite Hout. auto. }
  rewrite (handler_body_in_scope _ _ _ _ Hs Hn). cbn zeta.
  destruct (bool_decide _); [|destruct (_ <? _)%nat]; rewrite ?reply_keeps_world; auto.
  match goal with |- context [provision ?a ?b ?c ?d ?e ?s] =>
    pose proof (provision_keeps_roster a b c d e s) as Hk end.
  unfold keeps in Hk. cbn [world with_names sheet existingOCNames] in Hk.
  injection Hk as -> ->. auto.
Qed.

(** The three ways an in-scope delivery with a name goes on after the
    roster has been fetched. *)
Lemma in_scope_decision cfg msg g fs w :
  in_scope cfg msg g ->
  extract_name msg <> [] ->
  let n := extract_name msg in
  let tr := trace (snd (handler cfg msg {| world := w; faults := fs; trace := [] |})) in
  let pre := Fetched :: warning_of (sheet w) in
  if bool_decide (toLowerCase n ∈ roster_of (sheet w)) then
    tr = pre ++ reply_outcome fs (DuplicateNotice n)
  else if (length (split re_spaces n) <? 2)%nat then
    tr = pre ++ reply_outcome fs FormatHelp
  else
    exists rest, tr = pre ++ rest /\ Forall (fun ev => is_reply ev = false) rest.
Proof.
  intros Hs Hn. cbn zeta. unfold handler, try_catch.
  rewrite (handler_body_in_scope _ _ _ _ Hs Hn). cbn zeta. cbn [world faults trace app].
  destruct (bool_decide _); [|destruct (_ <? _)%nat].
  - unfold reply, call; cbn [world faults trace].
    by destruct fs as [|[] fs].
  - unfold reply, call; cbn [world faults trace].
    by destruct fs as [|[] fs].
  - match goal with |- context [provision ?a ?b ?c ?d ?e ?s] =>
      destruct (provision_sends_no_reply a b c d e s) as (tr' & Etr & Htr);
      destruct (provision a b c d e s) as [[[]|e'] st'] end;
      unfold emit; cbn [fst snd trace] in *; rewrite Etr.
    + by exists tr'.
    + exists (tr' ++ [Errored e']). rewrite <- app_assoc. split; [done|].
      apply Forall_app. split; [done|]. by repeat constructor.
Qed.

(** A duplicate notice is sent only for a name that the sheet lists at the
    time of the delivery. *)
Lemma duplicate_notice_only_if_listed cfg msg fs w n :
  Replied (DuplicateNotice n) ∈
    trace (snd (handler cfg msg {| world := w; faults := fs; trace := [] |})) ->
  n = extract_name msg /\ toLowerCase n ∈ roster_of (sheet w).
Proof.
  destruct (handler_body_cases cfg msg) as [Hout | (g & Hs & Hn)].
  { unfold handler, try_catch. rewrite Hout. simpl. by intros ?%elem_of_nil. }
  pose proof (in_scope_decision cfg msg g fs w Hs Hn) as Hd. cbn zeta in Hd.
  pose proof (warning_of_no_reply (sheet w)) as Hw. rewrite Forall_forall in Hw.
  case_bool_decide as Hin; [|destruct (_ <? _)%nat; [|destruct Hd as (rest & Hd & Hrest)]];
    rewrite Hd; rewrite elem_of_app, elem_of_cons; intros H; destruct_or!;
    try discriminate; try (apply Hw in H; discriminate).
  - destruct fs as [|[] fs]; simpl in H; apply list_elem_of_singleton in H;
      by simplify_eq.
  - destruct fs as [|[] fs]; simpl in H; apply list_elem_of_singleton in H;
      by simplify_eq.
  - rewrite Forall_forall in Hrest. apply Hrest in H. discriminate.
Qed.

Lemma fold_add_row rows acc n :
  n ∈ fold_left add_row rows acc <->
  n ∈ acc \/
  exists row, row ∈ rows /\
    trim (nth 1 (split_on 44 row) []) <> [] /\
    n = toLowerCase (trim (nth 1 (split_on 44 row) [])).
Proof.
  revert acc. induction rows as [|row rows IH]; intros acc; simpl.
  - split; [auto|]. intros [?|(row & ?%elem_of_nil & _)]; done.
  - rewrite IH. unfold add_row.
    destruct (trim (nth 1 (split_on 44 row) [])) as [|c raw] eqn:E; simpl.
    + split.
      * intros [?|(r & ? & ? & ?)]; [auto|]. right. exists r. rewrite elem_of_cons. auto.
      * intros [?|(r & [->|?]%elem_of_cons & Hne & ?)]; [auto| |]; [congruence|].
        right. by exists r.
    + rewrite elem_of_union, elem_of_singleton. split.
      * intros [[->|?]|(r & ? & ? & ?)]; [|auto|].
        -- right. exists row. rewrite E. split; [left|done].
        -- right. exists r. rewrite elem_of_cons. auto.
      * intros [?|(r & [->|?]%elem_of_cons & Hne & ->)]; [auto| |].
        -- rewrite E. auto.
        -- right. by exists r.
Qed.

(** C3. For a message in scope with a name [n], the roster is asked for the
    lower-cased [n] before the parts of [n] are counted: a name on the roster
    gets the duplicate notice (and nothing else happens) whatever its number
    of parts; the format help is only sent for a name that is not on the
    roster; and two names with the same lower-case form get the same
    verdict. *)
Theorem duplicate_check_precedes_shape_check cfg msg g fs w :
  in_scope cfg msg g ->
  extract_name msg <> [] ->
  let n := extract_name msg in
  let tr := snd (deliver cfg msg fs w) in
  (toLowerCase n ∈ roster_of (sheet w) -> head fs <> Some true ->
     tr = [Fetched; Replied (DuplicateNotice n)]) /\
  (Replied FormatHelp ∈ tr -> toLowerCase n ∉ roster_of (sheet w)) /\
  (forall msg', in_scope cfg msg' g -> extract_name msg' <> [] ->
     toLowerCase (extract_name msg') = toLowerCase n ->
     existsb is_duplicate_notice (snd (deliver cfg msg' fs w)) =
     existsb is_duplicate_notice tr).
Proof.
  intros Hs Hn. cbn zeta. unfold deliver. cbn [snd].
  pose proof (in_scope_decision cfg msg g fs w Hs Hn) as Hd. cbn zeta in Hd.
  pose proof (warning_of_no_reply (sheet w)) as Hw.
  split; [|split].
  - intros Hin Hfs. rewrite bool_decide_eq_true_2 in Hd by done. rewrite Hd.
    destruct (sheet w); simpl in Hin; try set_solver.
    by destruct fs as [|[] fs].
  - intros Hhelp Hin. rewrite bool_decide_eq_true_2 in Hd by done. rewrite Hd in Hhelp.
    rewrite Forall_forall in Hw.
    rewrite elem_of_app, elem_of_cons in Hhelp. destruct_or!; try discriminate.
    + apply Hw in Hhelp. discriminate.
    + destruct fs as [|[] fs]; simpl in Hhelp; apply list_elem_of_singleton in Hhelp;
        discriminate.
  - intros msg' Hs' Hn' Hlow.
    assert (forall m, in_scope cfg m g -> extract_name m <> [] ->
              existsb is_duplicate_notice
                (trace (snd (handler cfg m {| world := w; faults := fs; trace := [] |}))) =
              bool_decide (toLowerCase (extract_name m) ∈ roster_of (sheet w)) &&
              negb (bool_decide (head fs = Some true))) as Hverdict.
    { intros m Hsm Hnm.
      pose proof (in_scope_decision cfg m g fs w Hsm Hnm) as Hm. cbn zeta in Hm.
      assert (existsb is_duplicate_notice (warning_of (sheet w)) = false) as Hw'
        by (by destruct (sheet w)).
      revert Hm.
      destruct (bool_decide (toLowerCase (extract_name m) ∈ roster_of (sheet w)));
        [|destruct (length (split re_spaces (extract_name m)) <? 2)%nat]; intros Hm.
      - rewrite Hm. simpl. rewrite existsb_app, Hw'. by destruct fs as [|[] fs'].
      - rewrite Hm. simpl. rewrite existsb_app, Hw'. by destruct fs as [|[] fs'].
      - destruct Hm as (rest & -> & Hrest). simpl. rewrite existsb_app, Hw'. simpl.
        apply existsb_false_Forall. eapply Forall_impl; [exact Hrest|]. by intros []. }
    rewrite !Hverdict by done. by rewrite Hlow.
Qed.

(** C10. A delivery never writes the sheet, and the in-memory roster after
    it is either the one before it or the roster just fetched from the
    sheet; the name being provisioned is not added.  Hence a later delivery
    of the same message gets a duplicate notice only if the sheet, as it
    stands then, lists the name; with an unchanged sheet that did not list
    it, the name passes the duplicate check again. *)
Theorem roster_replaced_only_by_fetch cfg msg fs w :
  let w1 := fst (deliver cfg msg fs w) in
  sheet w1 = sheet w /\
  (existingOCNames w1 = existingOCNames w \/
   existingOCNames w1 = roster_of (sheet w)) /\
  (forall fs2 sh n,
     Replied (DuplicateNotice n) ∈ snd (deliver cfg msg fs2 (with_sheet w1 sh)) ->
     toLowerCase (extract_name msg) ∈ roster_of sh) /\
  (forall fs2,
     toLowerCase (extract_name msg) ∉ roster_of (sheet w) ->
     existsb is_duplicate_notice (snd (deliver cfg msg fs2 w1)) = false).
Proof.
  cbn zeta. set (w1 := fst (deliver cfg msg fs w)).
  destruct (handler_roster cfg msg {| world := w; faults := fs; trace := [] |})
    as [Hsh Hnames].
  change (sheet w1 = sheet w) in Hsh.
  change (existingOCNames w1 = existingOCNames w \/
          existingOCNames w1 = roster_of (sheet w)) in Hnames.
  split; [done|]. split; [done|]. split.
  - intros fs2 sh n Hev. unfold deliver in Hev. cbn [snd] in Hev.
    apply duplicate_notice_only_if_listed in Hev as [-> Hin]. done.
  - intros fs2 Hnot. apply existsb_false_Forall, Forall_forall.
    intros [] Hev; try done. destruct r as [n|]; [|done]. exfalso.
    unfold deliver in Hev. cbn [snd] in Hev.
    apply duplicate_notice_only_if_listed in Hev as [-> Hin].
    rewrite Hsh in Hin. done.
Qed.

End Roster.


(** ** Provisioning twice *)

Section Idempotence.
Context `{RT : Runtime}.

Lemma provision_calm cfg g msg n parts w tr :
  wp (provision cfg g msg n parts)
     (calm_outcome msg (nth 0 parts []) (lit "oc-" ++ slugify n) w tr)
     {| world := w; faults := []; trace := tr |}.
Proof.
  unfold provision, guilds_fetch, roles_create, channels_create, send, roles_add.
  repeat (wp_step; cbn [tail]; try done).
  all: unfold calm_outcome, find_channel, find_role in *;
       cbn [world faults trace roles channels with_roles with_channels with_member_roles] in *.
  all: repeat match goal with H : find _ _ = _ |- _ => rewrite H end.
  all: split; [done|]; split; [try done; intros [? ?]; congruence|].
  all: split; try (eexists; split; [reflexivity|done]).
  all: try (split; [done|]; intros x Hx; rewrite ?elem_of_app, ?list_elem_of_singleton in Hx;
            destruct_or?; done).
Qed.

Lemma find_app_None {X} (f : X -> bool) l l' :
  find f l = None -> find f (l ++ l') = find f l'.
Proof. induction l as [|x l IH]; simpl; [done|]. destruct (f x); [done|auto]. Qed.

Lemma find_role_created name w w' role :
  find_role name w = None -> roles w' = roles w ++ [role] -> role_name role = name ->
  find_role name w' = Some role.
Proof.
  unfold find_role. intros Hnone -> <-. rewrite find_app_None by done. simpl.
  by rewrite bool_decide_eq_true_2.
Qed.

Lemma find_channel_created name w w' c :
  find_channel name w = None -> channels w' = channels w ++ [c] ->
  channel_name c = name -> channel_type c = GuildText ->
  find_channel name w' = Some c.
Proof.
  unfold find_channel. intros Hnone -> <- Hty. rewrite find_app_None by done. simpl.
  by rewrite !bool_decide_eq_true_2.
Qed.

(** A no-fault delivery of an in-scope message whose name passes both checks. *)
Lemma deliver_calm cfg msg g w :
  in_scope cfg msg g ->
  (2 <= length (split re_spaces (extract_name msg)))%nat ->
  toLowerCase (extract_name msg) ∉ roster_of (sheet w) ->
  let firstName := nth 0 (split re_spaces (extract_name msg)) [] in
  let channelName := lit "oc-" ++ slugify (extract_name msg) in
  exists r st',
    deliver cfg msg [] w = (world st', trace st' ++ match r with Ok _ => [] | Throw e => [Errored e] end) /\
    calm_outcome msg firstName channelName w (Fetched :: warning_of (sheet w)) r st'.
Proof.
  intros Hs Hlen Hnot. cbn zeta.
  assert (extract_name msg <> []) as Hn.
  { intros E. rewrite E in Hlen. vm_compute in Hlen. lia. }
  unfold deliver, handler, try_catch.
  rewrite (handler_body_in_scope _ _ _ _ Hs Hn). cbn zeta. cbn [world faults trace app].
  rewrite bool_decide_eq_false_2 by done.
  replace (length (split re_spaces (extract_name msg)) <? 2)%nat with false
    by (symmetry; apply Nat.ltb_ge; lia).
  match goal with |- context [provision ?a ?b ?c ?d ?e ?s] =>
    pose proof (provision_calm a b c d e (world s) (trace s)) as Hp;
    unfold wp in Hp; cbn [world faults trace] in Hp;
    destruct (provision a b c d e s) as [[[]|e'] st'] end; cbn [fst snd] in *.
  - exists (Ok tt), st'. rewrite app_nil_r. split; [done|]. exact Hp.
  - exists (Throw e'), st'. split; [done|]. exact Hp.
Qed.

Lemma provision_at_most_one cfg g msg n parts w fs tr :
  wp (provision cfg g msg n parts)
     (fun _ st' => at_most_one_each (nth 0 parts []) (lit "oc-" ++ slugify n) w (world st'))
     {| world := w; faults := fs; trace := tr |}.
Proof.
  unfold provision, guilds_fetch, roles_create, channels_create, send, roles_add.
  repeat wp_step.
  all: unfold at_most_one_each, find_channel, find_role in *;
       cbn [world roles channels with_roles with_channels with_member_roles] in *.
  all: split; eauto 10.
Qed.

Lemma handler_at_most_one cfg msg fs w :
  let name := nth 0 (split re_spaces (extract_name msg)) [] in
  let chan := lit "oc-" ++ slugify (extract_name msg) in
  at_most_one_each name chan w (fst (deliver cfg msg fs w)).
Proof.
  cbn zeta. unfold deliver. cbn [fst]. rewrite handler_world.
  destruct (handler_body_cases cfg msg) as [Hout | (g & Hs & Hn)].
  { rewrite Hout. split; by left. }
  rewrite (handler_body_in_scope _ _ _ _ Hs Hn). cbn zeta.
  destruct (bool_decide _); [|destruct (_ <? _)%nat];
    rewrite ?reply_keeps_world; try (split; by left).
  match goal with |- context [provision ?a ?b ?c ?d ?e ?s] =>
    pose proof (provision_at_most_one a b c d e (world s) (faults s) (trace s)) as Hp end.
  exact Hp.
Qed.

(** Two deliveries of the same message, whatever platform calls are
    rejected in either, add at most one role answering to the first name and
    at most one text channel of the slug's name, and none where one was there
    before. *)
Theorem no_duplicates_whatever_fails cfg msg fs1 fs2 w :
  let name := nth 0 (split re_spaces (extract_name msg)) [] in
  let chan := lit "oc-" ++ slugify (extract_name msg) in
  let w1 := fst (deliver cfg msg fs1 w) in
  let w2 := fst (deliver cfg msg fs2 w1) in
  at_most_one_each name chan w w2.
Proof.
  cbn zeta.
  pose proof (handler_at_most_one cfg msg fs1 w) as [Hr1 Hc1].
  pose proof (handler_at_most_one cfg msg fs2 (fst (deliver cfg msg fs1 w))) as [Hr2 Hc2].
  cbn zeta in *. set (w1 := fst (deliver cfg msg fs1 w)) in *.
  set (w2 := fst (deliver cfg msg fs2 w1)) in *.
  split.
  - destruct Hr1 as [E1|(Hnone & role & E1 & Hname)].
    + destruct Hr2 as [E2|(Hnone2 & role & E2 & Hname)].
      * left. congruence.
      * right. unfold find_role in *. rewrite E1 in *. eauto.
    + destruct Hr2 as [E2|(Hnone2 & _)].
      * right. rewrite E2. eauto.
      * rewrite (find_role_created _ _ _ _ Hnone E1 Hname) in Hnone2. discriminate.
  - destruct Hc1 as [E1|(Hnone & c & E1 & Hname & Hty)].
    + destruct Hc2 as [E2|(Hnone2 & c & E2 & Hname)].
      * left. congruence.
      * right. unfold find_channel in *. rewrite E1 in *. eauto.
    + destruct Hc2 as [E2|(Hnone2 & _)].
      * right. rewrite E2. eauto.
      * rewrite (find_channel_created _ _ _ _ Hnone E1 Hname Hty) in Hnone2. discriminate.
Qed.

End Idempotence.

(** ** Channel creation *)

Section Channels.
Context `{RT : Runtime}.

Lemma find_role_Some name w r :
  find_role name w = Some r ->
  r ∈ roles w /\ toLowerCase (role_name r) = toLowerCase name.
Proof.
  unfold find_role. intros H. apply find_some in H as [? H].
  split; [by apply list_elem_of_In|]. by apply bool_decide_eq_true in H.
Qed.

Lemma find_channel_Some name w c :
  find_channel name w = Some c ->
  c ∈ channels w /\ channel_type c = GuildText /\ channel_name c = name.
Proof.
  unfold find_channel. intros H. apply find_some in H as [? H].
  apply andb_prop in H as [?%bool_decide_eq_true ?%bool_decide_eq_true].
  split; [by apply list_elem_of_In|done].
Qed.

(** Every channel that provisioning creates carries the overwrites of
    [overwrites_shape], for a role of the guild that answers to the first
    name. *)
Lemma provision_created cfg g msg n parts w fs tr :
  wp (provision cfg g msg n parts)
     (fun _ st' => forall c, ChannelCreated c ∈ trace st' ->
        ChannelCreated c ∈ tr \/
        exists role, role ∈ roles (world st') /\
          toLowerCase (role_name role) = toLowerCase (nth 0 parts []) /\
          channel_overwrites c = overwrites_shape cfg g (role_id role))
     {| world := w; faults := fs; trace := tr |}.
Proof.
  unfold provision, guilds_fetch, roles_create, channels_create, send, roles_add,
    build_overwrites.
  repeat wp_step.
  all: intros ch Hch; rewrite ?elem_of_app, ?list_elem_of_singleton in Hch.
  all: repeat match goal with H : _ \/ _ |- _ => destruct H end; try discriminate; auto.
  all: simplify_eq; right.
  all: repeat match goal with
         | H : find_role _ _ = Some _ |- _ => apply find_role_Some in H as [? ?]
         end.
  all: match goal with |- context [Some (role_id ?r)] => exists r end.
  all: split; [|split; [|reflexivity]];
       cbn [roles with_roles with_channels with_member_roles role_name];
       rewrite ?elem_of_app, ?list_elem_of_singleton; eauto.
Qed.

Lemma provision_logs_no_error cfg g msg n parts :
  rel (extends (fun ev => is_error ev = false)) (provision cfg g msg n parts).
Proof.
  unfold provision, guilds_fetch, roles_create, channels_create, send, roles_add.
  repeat rel_step; simpl; done.
Qed.

(** A channel created during a delivery has the overwrites of
    [overwrites_shape] for a role of the guild that answers to the first
    token of the name. *)
Lemma created_channel_shape cfg msg fs w c :
  ChannelCreated c ∈ snd (deliver cfg msg fs w) ->
  exists g role,
    guild msg = Some g /\
    role ∈ roles (fst (deliver cfg msg fs w)) /\
    toLowerCase (role_name role) =
      toLowerCase (nth 0 (split re_spaces (extract_name msg)) []) /\
    channel_overwrites c = overwrites_shape cfg g (role_id role).
Proof.
  unfold deliver. cbn [fst snd]. rewrite handler_world.
  destruct (handler_trace cfg msg {| world := w; faults := fs; trace := [] |})
    as (tl & -> & Htl).
  rewrite elem_of_app. intros [H|H].
  2:{ rewrite Forall_forall in Htl. apply Htl in H. discriminate. }
  revert H.
  destruct (handler_body_cases cfg msg) as [Hout | (g & Hs & Hn)].
  { rewrite Hout. simpl. by intros ?%elem_of_nil. }
  rewrite (handler_body_in_scope _ _ _ _ Hs Hn). cbn zeta. cbn [world faults trace app].
  assert (ChannelCreated c ∉ Fetched :: warning_of (sheet w)) as Hpre.
  { rewrite elem_of_cons. intros [?|H]; [done|].
    destruct (sheet w); simpl in H; rewrite ?list_elem_of_singleton in H;
      try discriminate. by apply elem_of_nil in H. }
  destruct (bool_decide _); [|destruct (_ <? _)%nat].
  - unfold reply, call; cbn [world faults trace].
    destruct fs as [|[] fs]; cbn [snd trace]; rewrite ?elem_of_app, ?list_elem_of_singleton;
      intros ?; destruct_or?; done.
  - unfold reply, call; cbn [world faults trace].
    destruct fs as [|[] fs]; cbn [snd trace]; rewrite ?elem_of_app, ?list_elem_of_singleton;
      intros ?; destruct_or?; done.
  - match goal with |- context [provision ?a ?b ?c ?d ?e ?s] =>
      pose proof (provision_created a b c d e (world s) (faults s) (trace s)) as Hp end.
    unfold wp in Hp. cbn [world faults trace] in Hp.
    intros H. apply Hp in H as [H|(role & Hin & Hname & Hov)]; [done|].
    exists g, role. destruct Hs as (_ & Hg & _). done.
Qed.

(** A delivery in which no platform call is rejected, for a message that
    has a member, logs no error. *)
Lemma calm_delivery_logs_no_error cfg msg w :
  is_Some (member msg) ->
  existsb is_error (snd (deliver cfg msg [] w)) = false.
Proof.
  intros Hmember. unfold deliver. cbn [snd].
  destruct (handler_body_cases cfg msg) as [Hout | (g & Hs & Hn)].
  { unfold handler, try_catch. by rewrite Hout. }
  assert (existsb is_error (Fetched :: warning_of (sheet w)) = false) as Hpre
    by (by destruct (sheet w)).
  pose proof (in_scope_decision cfg msg g [] w Hs Hn) as Hd. cbn zeta in Hd.
  destruct (bool_decide (toLowerCase (extract_name msg) ∈ roster_of (sheet w))) eqn:Edup;
    [|destruct (length (split re_spaces (extract_name msg)) <? 2)%nat eqn:Elen].
  - rewrite Hd. by rewrite existsb_app, Hpre.
  - rewrite Hd. by rewrite existsb_app, Hpre.
  - clear Hd. unfold handler, try_catch.
    rewrite (handler_body_in_scope _ _ _ _ Hs Hn). cbn zeta. cbn [world faults trace app].
    rewrite Edup, Elen.
    match goal with |- context [provision ?a ?b ?c ?d ?e ?s] =>
      pose proof (provision_calm a b c d e (world s) (trace s)) as Hp;
      destruct (provision_logs_no_error a b c d e s) as (new & Hnew & Hno);
      unfold wp in Hp; cbn [world faults trace] in Hp, Hnew;
      destruct (provision a b c d e s) as [r st'] end.
    cbn [fst snd] in *. destruct Hp as (_ & Hok & _). rewrite (Hok Hmember).
    cbn [snd]. rewrite Hnew.
    change (Fetched :: warning_of (sheet w) ++ new)
      with ((Fetched :: warning_of (sheet w)) ++ new).
    rewrite existsb_app, Hpre. by apply existsb_false_Forall.
Qed.

(** C7. A channel created during a delivery has exactly these overwrites,
    in this order: the guild's default role (whose id is the guild's) denied
    the view; the character's role, a role of the guild that answers to the
    first token of the name, allowed view, send, history, attachments, embeds
    and reactions; the moderator role allowed view, send, history, message and
    channel management; and the game-master role with the same allowances
    exactly when [GM_ROLE_ID] is set, so that there are three entries without
    it and four with it.  Without it no error occurs: a delivery in which no
    platform call is rejected, for a message that has a member, logs no
    error. *)
Theorem new_channel_overwrites cfg msg fs w :
  (forall c, ChannelCreated c ∈ snd (deliver cfg msg fs w) ->
     exists g role,
       guild msg = Some g /\
       role ∈ roles (fst (deliver cfg msg fs w)) /\
       toLowerCase (role_name role) =
         toLowerCase (nth 0 (split re_spaces (extract_name msg)) []) /\
       channel_overwrites c = overwrites_shape cfg g (role_id role) /\
       length (channel_overwrites c) =
         match GM_ROLE_ID cfg with Some _ => 4%nat | None => 3%nat end) /\
  (GM_ROLE_ID cfg = None -> is_Some (member msg) ->
     existsb is_error (snd (deliver cfg msg [] w)) = false).
Proof.
  split.
  - intros c Hc. destruct (created_channel_shape _ _ _ _ _ Hc) as (g & role & ? & ? & ? & Hov).
    exists g, role. repeat (split; [done|]).
    rewrite Hov. unfold overwrites_shape. by destruct (GM_ROLE_ID cfg).
  - intros _. apply calm_delivery_logs_no_error.
Qed.

End Channels.

(** ** Embeds *)

Section Embeds.
Context `{RT : Runtime}.

Lemma handler_copies_first cfg msg : rel (extends (copies_first msg)) (handler cfg msg).
Proof.
  unfold handler, handler_body, loadExistingOCs, reply, provision, guilds_fetch,
    roles_create, channels_create, send, roles_add.
  repeat rel_step; simpl; try done; eauto.
Qed.

(** C9. Only the first embed of a message is read.  The name extracted
    from a message is the one extracted when the later embeds are dropped;
    when there is no embed, or the first embed has no title, or its title
    does not match, the name is the one parsed from the text, whatever the
    later embeds are; a whole delivery is the same with the later embeds
    dropped; and every embed copy sent to a new channel is a copy of the
    first embed. *)
Theorem only_first_embed_is_read :
  (forall msg e es, embeds msg = e :: es ->
     extract_name msg = extract_name (with_embeds msg [e])) /\
  (forall msg,
     match embeds msg with
     | [] => True
     | e :: _ =>
         match embed_title e with
         | None => True
         | Some title => match1 re_embed_title title = None
         end
     end ->
     extract_name msg = parseOCName (content msg)) /\
  (forall cfg msg e es fs w, embeds msg = e :: es ->
     deliver cfg msg fs w = deliver cfg (with_embeds msg [e]) fs w) /\
  (forall cfg msg fs w ch d,
     Sent ch (EmbedCopy d) ∈ snd (deliver cfg msg fs w) ->
     exists e es, embeds msg = e :: es /\ d = embed_data e).
Proof.
  split; [|split; [|split]].
  - intros [] e es; simpl. by intros ->.
  - intros msg. unfold extract_name, embed_name.
    destruct (embeds msg) as [|e es]; [done|].
    destruct (embed_title e) as [title|]; [|done].
    intros ->. by destruct (nonempty title).
  - intros cfg [] e es fs w; simpl. by intros ->.
  - intros cfg msg fs w ch d Hev.
    pose proof (extends_from_empty _ _ w fs (handler_copies_first cfg msg)) as H.
    rewrite Forall_forall in H. apply (H _ Hev).
Qed.

End Embeds.

(** ** The matcher on the patterns of the source *)

Lemma take_drop_while p s : take_while p s ++ drop_while p s = s.
Proof. induction s as [|c s IH]; simpl; [done|]. destruct (p c); simpl; [by rewrite IH|done]. Qed.

Lemma take_while_all p s : forallb p (take_while p s) = true.
Proof. induction s as [|c s IH]; simpl; [done|]. destruct (p c) eqn:E; simpl; [by rewrite E|done]. Qed.

Lemma drop_while_stops p s : stops p (drop_while p s) = true.
Proof. induction s as [|c s IH]; simpl; [done|]. destruct (p c) eqn:E; simpl; [done|by rewrite E]. Qed.

Section Star.
Context {R : Type}.
Implicit Types (k : @cont R).

Lemma star_stop p i s cap k : stops p s = true -> star p i s cap k = k i s cap.
Proof. destruct s as [|c s]; simpl; [done|]. by intros ->%negb_true_iff. Qed.

(** Greedy success: the continuation accepts the longest run. *)
Lemma star_greedy p w s i cap k r :
  forallb p w = true -> stops p s = true ->
  k (i + length w)%nat s cap = Some r ->
  star p i (w ++ s) cap k = Some r.
Proof.
  revert i. induction w as [|c w IH]; intros i Hw Hs Hk; simpl in *.
  - rewrite Nat.add_0_r in Hk. by rewrite star_stop.
  - apply andb_prop in Hw as [-> Hw].
    rewrite (IH (S i)); [done..|]. by rewrite <- Nat.add_succ_comm in Hk.
Qed.

(** Failure: the continuation rejects every length of the run. *)
Lemma star_none p w s i cap k :
  forallb p w = true -> stops p s = true ->
  (forall j, (j <= length w)%nat -> k (i + j)%nat (drop j w ++ s) cap = None) ->
  star p i (w ++ s) cap k = None.
Proof.
  revert i. induction w as [|c w IH]; intros i Hw Hs Hk; simpl in *.
  - rewrite star_stop by done. specialize (Hk 0%nat). rewrite Nat.add_0_r in Hk. auto.
  - apply andb_prop in Hw as [-> Hw].
    rewrite (IH (S i)); [|done..|].
    + specialize (Hk 0%nat). rewrite Nat.add_0_r in Hk. apply Hk. lia.
    + intros j Hj. specialize (Hk (S j)). rewrite <- Nat.add_succ_comm in Hk. apply Hk. lia.
Qed.
End Star.

Section Prefix.
Context {R : Type}.
Implicit Types (k : @cont R).

Lemma run_re_oc_line i s cap k :
  run re_oc_line i s cap k =
  if Nat.eqb i 0 then star ws i s cap (fun i' s' cap' =>
    run (re_word word_oc (re_tail true)) i' s' cap' k) else None.
Proof. reflexivity. Qed.

Lemma run_re_name_line i s cap k :
  run re_name_line i s cap k =
  if Nat.eqb i 0 then star ws i s cap (fun i' s' cap' =>
    run (re_word word_name (re_tail true)) i' s' cap' k) else None.
Proof. reflexivity. Qed.

Lemma run_re_embed_title i s cap k :
  run re_embed_title i s cap k = run (re_word word_oc (re_tail false)) i s cap k.
Proof. reflexivity. Qed.

Lemma run_re_word word rest i s cap k :
  run (re_word word rest) i s cap k =
  if starts_ci word s then run rest (i + length word)%nat (drop (length word) s) cap k
  else None.
Proof.
  revert i s. induction word as [|l word IH]; intros i s; simpl.
  - by rewrite Nat.add_0_r.
  - destruct s as [|c s]; [done|]. destruct (ci l c); simpl; [|done].
    rewrite IH. by rewrite Nat.add_succ_comm.
Qed.

Lemma ws_not_colon c : is_ws c = true -> colon c = false.
Proof.
  unfold colon, only. destruct (N.eqb_spec c 58) as [->|]; [|done]. by vm_compute.
Qed.

Lemma ws_is_dot_or_not c : is_ws c = false -> dot c = true.
Proof.
  unfold dot, is_line_terminator, is_ws, between. intros H.
  repeat match goal with |- context [N.eqb ?a ?b] => destruct (N.eqb_spec a b); subst end;
    try done; vm_compute in H; done.
Qed.

Lemma length_take_while_drop p (s : str) : (length (take_while p s) + length (drop_while p s) = length s)%nat.
Proof. rewrite <- length_app. by rewrite take_drop_while. Qed.

(** The tail of the patterns succeeds on white space, a colon, white space
    and a non-blank remainder that goes on to the end of the line. *)
Lemma run_re_tail_match (anchored : bool) i s rem cap k res :
  drop_while is_ws s = 58 :: rem ->
  let r := drop_while is_ws rem in
  let line := take_while dot r in
  r <> [] ->
  (if anchored then drop_while dot r = [] else True) ->
  k (i + (length s - length (drop_while dot r)))%nat (drop_while dot r) (Some line) = Some res ->
  run (re_tail anchored) i s cap k = Some res.
Proof.
  intros Hs r line Hr Hanch Hk.
  rewrite <- (take_drop_while is_ws s), Hs. cbn [run re_tail].
  apply star_greedy; [apply take_while_all|done|]. cbn [colon only N.eqb Pos.eqb].
  rewrite <- (take_drop_while is_ws rem). fold r.
  apply star_greedy; [apply take_while_all|apply drop_while_stops|].
  assert (exists x r', r = x :: r' /\ dot x = true) as (x & r' & Er & Hx).
  { pose proof (drop_while_stops is_ws rem) as Hst. fold r in Hst.
    destruct r as [|x r']; [done|]. exists x, r'. split; [done|].
    apply ws_is_dot_or_not. by apply negb_true_iff. }
  assert (take_while dot r = x :: take_while dot r') as Eline by (rewrite Er; simpl; by rewrite Hx).
  assert (drop_while dot r = drop_while dot r') as Edrop by (rewrite Er; simpl; by rewrite Hx).
  set (j := (S (i + length (take_while is_ws s)) + length (take_while is_ws rem))%nat).
  assert (i + (length s - length (drop_while dot r)) = S j + length (take_while dot r'))%nat as Eidx.
  { pose proof (length_take_while_drop is_ws s) as H1. rewrite Hs in H1. simpl in H1.
    pose proof (length_take_while_drop is_ws rem) as H2. fold r in H2.
    pose proof (length_take_while_drop dot r') as H3.
    rewrite Edrop. rewrite Er in H2. simpl in H2. unfold j. lia. }
  assert (take (S j + length (take_while dot r') - j) r = line) as Etake.
  { unfold line. rewrite Eline, Er.
    replace (S j + length (take_while dot r') - j)%nat with (S (length (take_while dot r'))) by lia.
    simpl. f_equal. rewrite <- (take_drop_while dot r') at 2. by rewrite take_app_length. }
  rewrite Eidx, Edrop in Hk.
  destruct anchored; cbn [run]; rewrite Er, Hx.
  - rewrite <- (take_drop_while dot r').
    apply star_greedy; [apply take_while_all|apply drop_while_stops|].
    rewrite take_drop_while. rewrite <- Er, Etake.
    rewrite Edrop in Hanch. rewrite Hanch in *. exact Hk.
  - rewrite <- (take_drop_while dot r').
    apply star_greedy; [apply take_while_all|apply drop_while_stops|].
    rewrite take_drop_while. rewrite <- Er, Etake. exact Hk.
Qed.
End Prefix.

(** *** Trimming *)

Lemma drop_while_id p s : stops p s = true -> drop_while p s = s.
Proof. destruct s as [|c s]; simpl; [done|]. by intros ->%negb_true_iff. Qed.

Lemma trimStart_stops s : stops is_ws (trimStart s) = true.
Proof. apply drop_while_stops. Qed.

(** [trimEnd] cuts a suffix of white space. *)
Lemma trimEnd_prefix s : s = trimEnd s ++ rev (take_while is_ws (rev s)).
Proof.
  unfold trimEnd. rewrite <- rev_app_distr, take_drop_while. by rewrite rev_involutive.
Qed.

Lemma trimEnd_stops s : stops is_ws s = true -> stops is_ws (trimEnd s) = true.
Proof.
  intros Hs. rewrite (trimEnd_prefix s) in Hs. by destruct (trimEnd s).
Qed.

Lemma trim_stops s : stops is_ws (trim s) = true.
Proof. apply trimEnd_stops, trimStart_stops. Qed.

Lemma trimEnd_idem s : trimEnd (trimEnd s) = trimEnd s.
Proof.
  unfold trimEnd. rewrite rev_involutive. f_equal. apply drop_while_id, drop_while_stops.
Qed.

Lemma trim_idem s : trim (trim s) = trim s.
Proof.
  unfold trim at 1. unfold trimStart. rewrite drop_while_id by apply trim_stops.
  unfold trim. apply trimEnd_idem.
Qed.

Lemma trim_trimStart s : trim (trimStart s) = trim s.
Proof. unfold trim. f_equal. apply drop_while_id, trimStart_stops. Qed.

Lemma trimEnd_nonempty c s : is_ws c = false -> trimEnd (c :: s) <> [].
Proof.
  intros Hc E. unfold trimEnd in E. apply (f_equal (@rev N)) in E.
  rewrite rev_involutive in E. simpl in E.
  pose proof (take_drop_while is_ws (rev s ++ [c])) as H. rewrite E, app_nil_r in H.
  pose proof (take_while_all is_ws (rev s ++ [c])) as Hall. rewrite H in Hall.
  rewrite forallb_app in Hall. simpl in Hall. rewrite Hc in Hall.
  by rewrite andb_false_r in Hall.
Qed.

Lemma trim_nonempty s : trimStart s <> [] -> trim s <> [].
Proof.
  unfold trim. pose proof (trimStart_stops s) as Hs.
  destruct (trimStart s) as [|c t]; [done|]. intros _.
  apply trimEnd_nonempty. by apply negb_true_iff.
Qed.

(** *** Searching *)

Lemma search_unfold r i s :
  search r i s =
  match match_at r i s with
  | Some (e, cap) => Some (i, e, cap)
  | None => match s with [] => None | _ :: s' => search r (S i) s' end
  end.
Proof. by destruct s. Qed.

Lemma match1_at_start r s e g1 :
  match_at r 0 s = Some (e, Some g1) -> match1 r s = Some g1.
Proof. unfold match1. rewrite search_unfold. by intros ->. Qed.

(** A pattern that starts with [^] matches at index 0 or nowhere. *)
Lemma search_anchored r s :
  (forall i s', match_at r (S i) s' = None) ->
  match_at r 0 s = None -> match1 r s = None.
Proof.
  intros Hlater H0. unfold match1. rewrite search_unfold, H0.
  assert (forall s' i, search r (S i) s' = None) as Hs.
  { induction s' as [|c s' IH]; intros i; rewrite search_unfold, Hlater; [done|apply IH]. }
  destruct s; [done|]. by rewrite Hs.
Qed.

Lemma forallb_take_drop_while p s :
  forallb p s = true -> take_while p s = s /\ drop_while p s = [].
Proof.
  induction s as [|c s IH]; simpl; [done|]. intros [-> H]%andb_prop.
  destruct (IH H) as [-> ->]. done.
Qed.

Lemma has_prefix_inv word s :
  has_prefix word s = true ->
  starts_ci word s = true /\
  drop_while is_ws (drop (length word) s) = 58 :: after_prefix word s.
Proof.
  unfold has_prefix, after_prefix. intros [Hst H]%andb_prop. split; [done|].
  destruct (drop_while is_ws (drop (length word) s)) as [|c t]; [done|].
  apply N.eqb_eq in H. by subst.
Qed.

Lemma not_ws_range c : 33 <= c <= 159 -> is_ws c = false.
Proof.
  intros [H1 H2]. unfold is_ws, between.
  replace (c <=? 13) with false by (symmetry; apply N.leb_gt; lia).
  replace (8192 <=? c) with false by (symmetry; apply N.leb_gt; lia).
  repeat match goal with
  | |- context [N.eqb c ?b] =>
      replace (N.eqb c b) with false by (symmetry; apply N.eqb_neq; lia)
  end.
  by rewrite andb_false_r.
Qed.

Lemma ci_not_ws l c : between 97 122 l = true -> ci l c = true -> is_ws c = false.
Proof.
  unfold between, ci. intros [H1%N.leb_le H2%N.leb_le]%andb_prop Hc.
  apply not_ws_range. apply orb_prop in Hc as [Hc|Hc]; apply N.eqb_eq in Hc; lia.
Qed.

Lemma starts_ci_letter_stops word s :
  Forall (fun l => between 97 122 l = true) word -> word <> [] ->
  starts_ci word s = true -> stops is_ws s = true.
Proof.
  intros Hw Hne. destruct word as [|l word]; [done|]. simpl.
  destruct s as [|c s]; [done|]. intros [Hc _]%andb_prop. simpl.
  apply Forall_cons in Hw as [Hl _]. apply negb_true_iff. by eapply ci_not_ws.
Qed.

(** *** The three patterns on a text with a prefix *)

Lemma word_oc_letters : lower_letters word_oc.
Proof. split; [by repeat constructor|done]. Qed.

Lemma word_name_letters : lower_letters word_name.
Proof. split; [by repeat constructor|done]. Qed.

(** An anchored pattern for [word] captures the remainder after the prefix
    when the remainder is not blank and holds no line terminator. *)
Lemma line_pattern_match re word s :
  (forall i s' cap (k : @cont (nat * option str)),
     run re i s' cap k =
     if Nat.eqb i 0 then star ws i s' cap (fun i' s'' cap' =>
       run (re_word word (re_tail true)) i' s'' cap' k) else None) ->
  lower_letters word ->
  has_prefix word s = true ->
  let r := trimStart (after_prefix word s) in
  r <> [] -> forallb dot r = true ->
  match1 re s = Some r.
Proof.
  intros Hre [Hw Hne] [Hst Hdrop]%has_prefix_inv r Hr Hdot.
  destruct (forallb_take_drop_while _ _ Hdot) as [Etake Edrop].
  eapply match1_at_start. unfold match_at. rewrite Hre. cbn [Nat.eqb].
  rewrite star_stop by (by eapply starts_ci_letter_stops).
  rewrite run_re_word, Hst.
  eapply run_re_tail_match; [exact Hdrop|exact Hr|exact Edrop|].
  cbv beta zeta. unfold r, trimStart in *. rewrite Etake. reflexivity.
Qed.

(** An anchored pattern for [word] fails on a text without the prefix. *)
Lemma line_pattern_none re word s :
  (forall i s' cap (k : @cont (nat * option str)),
     run re i s' cap k =
     if Nat.eqb i 0 then star ws i s' cap (fun i' s'' cap' =>
       run (re_word word (re_tail true)) i' s'' cap' k) else None) ->
  stops is_ws s = true ->
  has_prefix word s = false ->
  match1 re s = None.
Proof.
  intros Hre Hs Hp. apply search_anchored.
  { intros i s'. unfold match_at. by rewrite Hre. }
  unfold match_at. rewrite Hre. cbn [Nat.eqb]. rewrite star_stop by done.
  rewrite run_re_word. unfold has_prefix in Hp.
  destruct (starts_ci word s); [|done]. simpl in Hp.
  cbn [run re_tail].
  rewrite <- (take_drop_while is_ws (drop (length word) s)).
  apply star_none; [apply take_while_all|apply drop_while_stops|].
  intros j Hj.
  destruct (decide (j < length (take_while is_ws (drop (length word) s)))%nat) as [Hlt|Hge].
  - destruct (lookup_lt_is_Some_2 _ _ Hlt) as [c Hc].
    rewrite (drop_S _ _ _ Hc). simpl.
    assert (is_ws c = true) as Hws.
    { pose proof (take_while_all is_ws (drop (length word) s)) as Hall.
      rewrite forallb_forall in Hall. apply Hall, list_elem_of_In.
      by eapply list_elem_of_lookup_2. }
    by rewrite (ws_not_colon _ Hws).
  - rewrite drop_ge by lia. simpl.
    destruct (drop_while is_ws (drop (length word) s)) as [|c t]; [done|].
    unfold colon, only. by rewrite Hp.
Qed.

Lemma oc_line_spec i s cap (k : @cont (nat * option str)) :
  run re_oc_line i s cap k =
  if Nat.eqb i 0 then star ws i s cap (fun i' s'' cap' =>
    run (re_word word_oc (re_tail true)) i' s'' cap' k) else None.
Proof. reflexivity. Qed.

Lemma name_line_spec i s cap (k : @cont (nat * option str)) :
  run re_name_line i s cap k =
  if Nat.eqb i 0 then star ws i s cap (fun i' s'' cap' =>
    run (re_word word_name (re_tail true)) i' s'' cap' k) else None.
Proof. reflexivity. Qed.

(** The title pattern captures the first line of the remainder. *)
Lemma title_pattern_match title :
  has_prefix word_oc title = true ->
  let r := trimStart (after_prefix word_oc title) in
  r <> [] ->
  match1 re_embed_title title = Some (take_while dot r).
Proof.
  intros [Hst Hdrop]%has_prefix_inv r Hr.
  eapply match1_at_start. unfold match_at.
  rewrite run_re_embed_title, run_re_word, Hst.
  eapply run_re_tail_match; [exact Hdrop|exact Hr|exact I|].
  reflexivity.
Qed.

(** A text that starts with one word does not start with the other. *)
Lemma starts_oc_not_name s : starts_ci word_oc s = true -> starts_ci word_name s = false.
Proof.
  destruct s as [|c s]; [done|]. simpl. intros [Hc _]%andb_prop.
  unfold ci in *. apply orb_prop in Hc as [Hc|Hc]; apply N.eqb_eq in Hc; by subst.
Qed.

Lemma parseOCName_prefix word content :
  word = word_oc \/ word = word_name ->
  has_prefix word (trim content) = true ->
  let rest := after_prefix word (trim content) in
  trimStart rest <> [] -> forallb dot (trimStart rest) = true ->
  parseOCName content = trim rest.
Proof.
  intros Hword Hp rest Hr Hdot. unfold parseOCName.
  assert (trim (trimStart rest) = trim rest) as Et by apply trim_trimStart.
  destruct Hword as [-> | ->].
  - rewrite (line_pattern_match re_oc_line word_oc _ oc_line_spec word_oc_letters Hp Hr Hdot).
    exact Et.
  - assert (has_prefix word_oc (trim content) = false) as Hoc.
    { unfold has_prefix in *. apply andb_prop in Hp as [Hst _].
      destruct (starts_ci word_oc (trim content)) eqn:E; [|done].
      apply starts_oc_not_name in E. congruence. }
    rewrite (line_pattern_none re_oc_line word_oc _ oc_line_spec (trim_stops _) Hoc).
    rewrite (line_pattern_match re_name_line word_name _ name_line_spec word_name_letters Hp Hr Hdot).
    exact Et.
Qed.

Lemma parseOCName_no_prefix content :
  has_prefix word_oc (trim content) = false ->
  has_prefix word_name (trim content) = false ->
  parseOCName content = trim content.
Proof.
  intros Hoc Hname. unfold parseOCName.
  rewrite (line_pattern_none re_oc_line word_oc _ oc_line_spec (trim_stops _) Hoc).
  rewrite (line_pattern_none re_name_line word_name _ name_line_spec (trim_stops _) Hname).
  apply trim_idem.
Qed.

(** *** The patterns on a text with a prefix and a bad remainder *)

Section RestOfLine.
Context {R : Type}.
Implicit Types (k : @cont R).

Lemma forallb_false_drop_while p (s : str) :
  forallb p s = false -> drop_while p s <> [].
Proof.
  induction s as [|c s IH]; simpl; [done|]. destruct (p c); simpl; [exact IH|done].
Qed.

(** [(.+)$] fails on an empty text and on a text with a line terminator. *)
Lemma run_rest_of_line_none i t cap k :
  t = [] \/ forallb dot t = false ->
  run (Seq (Group (Plus dot)) Eos) i t cap k = None.
Proof.
  intros Ht. cbn [run]. destruct t as [|c t]; [done|].
  destruct Ht as [?|Ht]; [done|]. cbn [forallb] in Ht.
  destruct (dot c); [|done]. cbn [andb] in Ht.
  rewrite <- (take_drop_while dot t).
  apply star_none; [apply take_while_all|apply drop_while_stops|].
  intros j Hj. pose proof (forallb_false_drop_while _ _ Ht) as Hne.
  destruct (drop j (take_while dot t) ++ drop_while dot t) as [|d u] eqn:E; [|done].
  apply app_eq_nil in E as [_ E]. done.
Qed.
End RestOfLine.

(** A trimmed text does not end in white space. *)
Lemma trim_no_blank_suffix content pre rem :
  trim content = pre ++ rem -> forallb is_ws rem = true -> rem = [].
Proof.
  intros E Hws. destruct rem as [|c rem] using rev_ind; [done|]. exfalso.
  clear IHrem. rewrite forallb_app in Hws. apply andb_prop in Hws as [_ Hc].
  simpl in Hc. rewrite andb_true_r in Hc.
  assert (trimEnd (trim content) = trim content) as Hid.
  { unfold trim. apply trimEnd_idem. }
  rewrite E in Hid. unfold trimEnd in Hid.
  rewrite !app_assoc, rev_app_distr in Hid. simpl in Hid. rewrite Hc in Hid.
  apply (f_equal length) in Hid. rewrite length_rev, !length_app in Hid. simpl in Hid.
  assert (forall p (s : str), (length (drop_while p s) <= length s)%nat) as Hle.
  { intros p s. induction s as [|x s IH]; simpl; [lia|]. destruct (p x); simpl; lia. }
  specialize (Hle is_ws (rev (pre ++ rem))). rewrite length_rev, length_app in Hle. lia.
Qed.

Lemma drop_suffix (s : str) n : exists pre, s = pre ++ drop n s.
Proof. exists (take n s). by rewrite take_drop. Qed.

Lemma drop_while_suffix p (s : str) : exists pre, s = pre ++ drop_while p s.
Proof. exists (take_while p s). by rewrite take_drop_while. Qed.

Lemma tail_suffix (s : str) : exists pre, s = pre ++ tail s.
Proof. destruct s as [|c s]; [by exists []|]. by exists [c]. Qed.

(** An anchored pattern for [word] fails on a trimmed text whose remainder
    after the prefix is empty or holds a line terminator. *)
Lemma line_pattern_bad_remainder re word content :
  (forall i s' cap (k : @cont (nat * option str)),
     run re i s' cap k =
     if Nat.eqb i 0 then star ws i s' cap (fun i' s'' cap' =>
       run (re_word word (re_tail true)) i' s'' cap' k) else None) ->
  lower_letters word ->
  has_prefix word (trim content) = true ->
  let r := trimStart (after_prefix word (trim content)) in
  nonempty r && forallb dot r = false ->
  match1 re (trim content) = None.
Proof.
  intros Hre [Hw Hne] Hp r Hbad. set (s := trim content) in *.
  destruct (has_prefix_inv _ _ Hp) as [Hst Hdrop].
  apply search_anchored.
  { intros i s'. unfold match_at. by rewrite Hre. }
  unfold match_at. rewrite Hre. cbn [Nat.eqb].
  rewrite star_stop by (by eapply starts_ci_letter_stops).
  rewrite run_re_word, Hst. cbn [run re_tail].
  rewrite <- (take_drop_while is_ws (drop (length word) s)).
  apply star_none; [apply take_while_all|apply drop_while_stops|].
  intros j Hj.
  destruct (decide (j < length (take_while is_ws (drop (length word) s)))%nat) as [Hlt|Hge].
  { destruct (lookup_lt_is_Some_2 _ _ Hlt) as [c Hc].
    rewrite (drop_S _ _ _ Hc). simpl.
    assert (is_ws c = true) as Hws.
    { pose proof (take_while_all is_ws (drop (length word) s)) as Hall.
      rewrite forallb_forall in Hall. apply Hall, list_elem_of_In.
      by eapply list_elem_of_lookup_2. }
    by rewrite (ws_not_colon _ Hws). }
  rewrite drop_ge by lia. rewrite Hdrop. cbn [app colon only N.eqb Pos.eqb].
  set (rem := after_prefix word s) in *.
  rewrite <- (take_drop_while is_ws rem).
  apply star_none; [apply take_while_all|apply drop_while_stops|].
  intros j2 Hj2.
  match goal with |- match ?t with _ => _ end = None =>
    apply (run_rest_of_line_none (S (0 + length word + j) + j2) t None
             (fun e _ cap => Some (e, cap)))
  end.
  fold (trimStart rem). fold r.
  destruct r as [|x r'] eqn:Er.
  - (* the remainder is blank, hence empty *)
    left. assert (rem = []) as ->.
    { unfold rem, after_prefix.
      destruct (drop_suffix s (length word)) as [p1 E1].
      destruct (drop_while_suffix is_ws (drop (length word) s)) as [p2 E2].
      destruct (tail_suffix (drop_while is_ws (drop (length word) s))) as [p3 E3].
      apply (trim_no_blank_suffix content (p1 ++ p2 ++ p3)).
      - fold s. rewrite <- !app_assoc, <- E3, <- E2, <- E1. done.
      - fold (after_prefix word s). fold rem.
        pose proof (take_while_all is_ws rem) as Hall.
        pose proof (take_drop_while is_ws rem) as Hsplit.
        unfold r, trimStart in Er. fold rem in Er. rewrite Er, app_nil_r in Hsplit.
        by rewrite Hsplit in Hall. }
    by destruct j2.
  - right. cbn [nonempty andb] in Hbad. rewrite forallb_app. rewrite Hbad.
    apply andb_false_r.
Qed.

(** [parseOCName] is the function without patterns: on every text the two
    anchored patterns find the remainder after the prefix exactly when it is
    not blank and holds no line terminator, and the text is taken whole
    otherwise, also when it has a prefix. *)
Theorem parseOCName_without_patterns content :
  parseOCName content = parseOCName_direct content.
Proof.
  unfold parseOCName_direct. cbn zeta.
  assert (forall word re,
    (forall i s' cap (k : @cont (nat * option str)),
       run re i s' cap k =
       if Nat.eqb i 0 then star ws i s' cap (fun i' s'' cap' =>
         run (re_word word (re_tail true)) i' s'' cap' k) else None) ->
    lower_letters word ->
    has_prefix word (trim content) = true ->
    match match1 re (trim content) with
    | Some g1 => trim g1 = remainder_or_all word (trim content)
    | None => trim (trim content) = remainder_or_all word (trim content)
    end) as Hword.
  { intros word re Hre Hlet Hp. unfold remainder_or_all. cbn zeta.
    destruct (nonempty _ && forallb dot _) eqn:Egood.
    - apply andb_prop in Egood as [Hne Hdot].
      rewrite (line_pattern_match re word _ Hre Hlet Hp); [done| |done].
      by destruct (trimStart _).
    - rewrite (line_pattern_bad_remainder re word content Hre Hlet Hp Egood).
      apply trim_idem. }
  unfold parseOCName.
  destruct (has_prefix word_oc (trim content)) eqn:Eoc.
  - pose proof (Hword word_oc re_oc_line oc_line_spec word_oc_letters Eoc) as H.
    destruct (match1 re_oc_line (trim content)) as [g1|]; [exact H|].
    assert (has_prefix word_name (trim content) = false) as Hname.
    { unfold has_prefix in *. apply andb_prop in Eoc as [Hst _].
      by rewrite (starts_oc_not_name _ Hst). }
    rewrite (line_pattern_none re_name_line word_name _ name_line_spec (trim_stops _) Hname).
    exact H.
  - rewrite (line_pattern_none re_oc_line word_oc _ oc_line_spec (trim_stops _) Eoc).
    destruct (has_prefix word_name (trim content)) eqn:Ename.
    + pose proof (Hword word_name re_name_line name_line_spec word_name_letters Ename) as H.
      cbn [or_else]. destruct (match1 re_name_line (trim content)) as [g1|]; exact H.
    + rewrite (line_pattern_none re_name_line word_name _ name_line_spec (trim_stops _) Ename).
      apply trim_idem.
Qed.

(** ** Name extraction *)

Section Extraction.
Context `{RT : Runtime}.

(** C5, as amended.  When the first embed has a title in which the title
    pattern matches and the captured rest is not blank, the name is that rest,
    trimmed; in particular, for a title that starts with [OC], optional white
    space and a colon, and goes on with a non-blank rest on a single line, the
    name is the rest trimmed.  When there is no embed, the first embed has no
    title, the pattern does not match, or the captured rest is blank, the name
    is parsed from the text.  There, when the trimmed text starts with [oc] or
    [name] (in either case), optional white space and a colon, and goes on
    with a non-blank remainder that holds no line terminator, the name is the
    remainder trimmed; when the trimmed text starts with neither prefix, the
    name is the whole trimmed text.  A message whose name is empty ends the
    handler at once, with the state as before: no action and no reply. *)
Theorem name_extraction msg :
  (forall e es title, embeds msg = e :: es -> embed_title e = Some title ->
     (forall rest, match1 re_embed_title title = Some rest -> trim rest <> [] ->
        extract_name msg = trim rest) /\
     (has_prefix word_oc title = true ->
        let rest := after_prefix word_oc title in
        trimStart rest <> [] -> forallb dot (trimStart rest) = true ->
        extract_name msg = trim rest)) /\
  (match embeds msg with
   | [] => True
   | e :: _ =>
       match embed_title e with
       | None => True
       | Some title =>
           match match1 re_embed_title title with
           | None => True
           | Some rest => trim rest = []
           end
       end
   end -> extract_name msg = parseOCName (content msg)) /\
  (forall word, word = word_oc \/ word = word_name ->
     has_prefix word (trim (content msg)) = true ->
     let rest := after_prefix word (trim (content msg)) in
     trimStart rest <> [] -> forallb dot (trimStart rest) = true ->
     parseOCName (content msg) = trim rest) /\
  (has_prefix word_oc (trim (content msg)) = false ->
   has_prefix word_name (trim (content msg)) = false ->
   parseOCName (content msg) = trim (content msg)) /\
  (forall cfg st, extract_name msg = [] -> handler cfg msg st = (Ok tt, st)).
Proof.
  assert (forall e es title rest, embeds msg = e :: es -> embed_title e = Some title ->
            match1 re_embed_title title = Some rest -> trim rest <> [] ->
            extract_name msg = trim rest) as Htitle.
  { intros e es title rest He Ht Hm Hne. unfold extract_name, embed_name.
    rewrite He, Ht. destruct title as [|c title]; [discriminate|]. cbn [nonempty].
    rewrite Hm. by destruct (trim rest). }
  split; [|split; [|split; [|split]]].
  - intros e es title He Ht.
    split; [intros rest Hm Hne; exact (Htitle e es title rest He Ht Hm Hne)|].
    intros Hp rest Hr Hdot.
    pose proof (title_pattern_match title Hp Hr) as Hm. fold rest in Hm.
    destruct (forallb_take_drop_while _ _ Hdot) as [Etake _]. rewrite Etake in Hm.
    rewrite <- (trim_trimStart rest). apply (Htitle e es title _ He Ht Hm).
    rewrite trim_trimStart. by apply trim_nonempty.
  - unfold extract_name, embed_name. destruct (embeds msg) as [|e es]; [done|].
    destruct (embed_title e) as [title|]; [|done].
    destruct (nonempty title); [|done].
    destruct (match1 re_embed_title title) as [rest|]; [|done]. by intros ->.
  - intros word. apply parseOCName_prefix.
  - apply parseOCName_no_prefix.
  - intros cfg st Hn. unfold handler, try_catch, handler_body. rewrite Hn.
    destruct (author_bot msg && _); [done|]. destruct (guild msg); [|done].
    destruct (negb _); [done|]. by destruct (negb _).
Qed.

End Extraction.

(** ** Slugs *)

Lemma star_total p i s cap :
  star p i s cap (fun e _ c => Some (e, c)) = Some ((i + length (take_while p s))%nat, cap).
Proof.
  revert i. induction s as [|c s IH]; intros i; simpl.
  - by rewrite Nat.add_0_r.
  - destruct (p c); simpl; [|by rewrite Nat.add_0_r].
    rewrite IH. by rewrite Nat.add_succ_comm.
Qed.

Lemma replace_combining i s :
  replace_go re_combining [] 0 i s = List.filter (fun c => negb (between 768 879 c)) s.
Proof.
  revert i. induction s as [|c s IH]; intros i; [done|].
  cbn [replace_go match_at run re_combining List.filter].
  destruct (between 768 879 c); cbn [negb app].
  - replace (Nat.eqb (S i) i) with false by (symmetry; apply Nat.eqb_neq; lia).
    replace (S i - i - 1)%nat with 0%nat by lia. apply IH.
  - f_equal. apply IH.
Qed.

Lemma replace_non_alnum s : forall i,
  replace_go re_non_alnum [hyphen] 0 i s = hyphenate false s /\
  replace_go re_non_alnum [hyphen]
    (length (take_while (fun c => negb (alnum c)) s)) i s = hyphenate true s.
Proof.
  induction s as [|c s IH]; intros i; [done|].
  assert (replace_go re_non_alnum [hyphen] 0 i (c :: s) = hyphenate false (c :: s)) as H0.
  { cbn [replace_go match_at run re_non_alnum hyphenate].
    destruct (alnum c); cbn [negb].
    - f_equal. apply IH.
    - rewrite star_total.
      replace (Nat.eqb _ i) with false by (symmetry; apply Nat.eqb_neq; lia).
      cbn [app]. f_equal.
      replace (S i + length (take_while (fun c => negb (alnum c)) s) - i - 1)%nat
        with (length (take_while (fun c => negb (alnum c)) s)) by lia.
      apply IH. }
  split; [exact H0|].
  cbn [take_while]. destruct (alnum c) eqn:E; cbn [negb length].
  - rewrite H0. simpl. by rewrite E.
  - cbn [replace_go hyphenate]. rewrite E. apply IH.
Qed.

Lemma replace_edge_later u : forall i,
  replace_go re_edge_hyphen [] 0 (S i) u = strip_last u.
Proof.
  induction u as [|c u IH]; intros i; [done|].
  cbn [replace_go match_at run re_edge_hyphen Nat.eqb strip_last]. unfold only.
  destruct (c =? hyphen) eqn:E; destruct u as [|d u]; cbn [app].
  - replace (Nat.eqb (S (S i)) (S i)) with false by (symmetry; apply Nat.eqb_neq; lia).
    replace (S (S i) - S i - 1)%nat with 0%nat by lia. reflexivity.
  - f_equal. apply IH.
  - reflexivity.
  - f_equal. apply IH.
Qed.

Lemma replace_edge t : replace_all re_edge_hyphen [] t = strip_edges t.
Proof.
  unfold replace_all. destruct t as [|c t]; [done|].
  cbn [replace_go match_at run re_edge_hyphen Nat.eqb strip_edges]. unfold only.
  destruct (c =? hyphen) eqn:E; cbn [app Nat.sub].
  - apply replace_edge_later.
  - destruct t as [|d t]; [done|]. f_equal. apply replace_edge_later.
Qed.

Local Arguments N.eqb : simpl never.
Local Arguments N.leb : simpl never.

Lemma slug_char_range c :
  slug_char c = true -> 97 <= c <= 122 \/ 48 <= c <= 57 \/ c = 45.
Proof.
  unfold slug_char, alnum, is_lower, is_digit, between, hyphen.
  rewrite !orb_true_iff, !andb_true_iff, !N.leb_le, N.eqb_eq. tauto.
Qed.

Lemma alnum_not_hyphen c : alnum c = true -> (c =? hyphen) = false.
Proof.
  intros H. apply N.eqb_neq. intros ->. by vm_compute in H.
Qed.

Lemma hyphenate_chars b s : forallb slug_char (hyphenate b s) = true.
Proof.
  revert b. induction s as [|c s IH]; intros b; [done|]. cbn [hyphenate].
  destruct (alnum c) eqn:E; [|destruct b]; cbn [forallb]; rewrite ?IH;
    unfold slug_char; rewrite ?E; done.
Qed.

Lemma hyphenate_true_start s : starts_with_hyphen (hyphenate true s) = false.
Proof.
  induction s as [|c s IH]; simpl; [done|].
  destruct (alnum c) eqn:E; simpl; [by apply alnum_not_hyphen|done].
Qed.

Lemma hyphenate_no_double b s : no_double (hyphenate b s) = true.
Proof.
  revert b. induction s as [|c s IH]; intros b; simpl; [done|].
  destruct (alnum c) eqn:E; simpl.
  - by rewrite (alnum_not_hyphen _ E), IH.
  - destruct b; simpl; [apply IH|]. by rewrite hyphenate_true_start, IH.
Qed.

Lemma strip_last_chars p u : forallb p u = true -> forallb p (strip_last u) = true.
Proof.
  induction u as [|c u IH]; [done|]. cbn [forallb]. intros [Hc Hu]%andb_prop.
  destruct u as [|d u].
  - cbn [strip_last]. destruct (c =? hyphen); [done|]. cbn [forallb]. by rewrite Hc.
  - change (strip_last (c :: d :: u)) with (c :: strip_last (d :: u)).
    cbn [forallb]. rewrite Hc. by apply IH.
Qed.

Lemma strip_last_start u :
  starts_with_hyphen (strip_last u) = true -> starts_with_hyphen u = true.
Proof.
  destruct u as [|c [|d u]]; simpl; [done| |done].
  destruct (c =? hyphen) eqn:E; simpl; rewrite ?E; done.
Qed.

Lemma strip_last_cons c d u : strip_last (c :: d :: u) = c :: strip_last (d :: u).
Proof. reflexivity. Qed.

Lemma strip_last_not_start u :
  starts_with_hyphen u = false -> starts_with_hyphen (strip_last u) = false.
Proof.
  intros H. destruct (starts_with_hyphen (strip_last u)) eqn:E; [|done].
  apply strip_last_start in E. congruence.
Qed.

Lemma no_double_cons c s :
  no_double (c :: s) = negb ((c =? hyphen) && starts_with_hyphen s) && no_double s.
Proof. reflexivity. Qed.

Lemma strip_last_no_double u : no_double u = true -> no_double (strip_last u) = true.
Proof.
  induction u as [|c u IH]; [done|]. rewrite no_double_cons.
  intros [Hc Hu]%andb_prop. destruct u as [|d u].
  - cbn [strip_last]. destruct (c =? hyphen); [done|].
    rewrite no_double_cons. cbn [starts_with_hyphen no_double]. by rewrite andb_false_r.
  - rewrite strip_last_cons, no_double_cons, (IH Hu), andb_true_r.
    destruct (c =? hyphen); [|done]. cbn [andb] in *.
    apply negb_true_iff in Hc. by rewrite (strip_last_not_start _ Hc).
Qed.

Lemma ends_with_hyphen_cons c d u :
  ends_with_hyphen (c :: d :: u) = ends_with_hyphen (d :: u).
Proof. reflexivity. Qed.

Lemma strip_last_end u : no_double u = true -> ends_with_hyphen (strip_last u) = false.
Proof.
  induction u as [|c u IH]; [done|]. rewrite no_double_cons.
  intros [Hc Hu]%andb_prop. destruct u as [|d u].
  - cbn [strip_last]. destruct (c =? hyphen) eqn:E; [done|].
    cbn [ends_with_hyphen]. exact E.
  - rewrite strip_last_cons. specialize (IH Hu).
    destruct (strip_last (d :: u)) as [|e v] eqn:Es.
    + (* the tail was a single hyphen *)
      destruct u as [|e u]; [|by rewrite strip_last_cons in Es].
      cbn [strip_last] in Es. destruct (d =? hyphen) eqn:Ed; [|done].
      cbn [starts_with_hyphen] in Hc. rewrite Ed, andb_true_r in Hc.
      apply negb_true_iff in Hc. cbn [ends_with_hyphen]. exact Hc.
    + by rewrite ends_with_hyphen_cons.
Qed.

Lemma strip_last_id u : ends_with_hyphen u = false -> strip_last u = u.
Proof.
  induction u as [|c u IH]; [done|]. destruct u as [|d u].
  - cbn [ends_with_hyphen strip_last]. by intros ->.
  - rewrite ends_with_hyphen_cons, strip_last_cons. intros H. by rewrite IH.
Qed.

Lemma strip_edges_cons c t :
  strip_edges (c :: t) = if c =? hyphen then strip_last t else c :: strip_last t.
Proof. reflexivity. Qed.

Lemma strip_edges_chars p t : forallb p t = true -> forallb p (strip_edges t) = true.
Proof.
  destruct t as [|c t]; [done|]. rewrite strip_edges_cons. cbn [forallb].
  intros [Hc Ht]%andb_prop. pose proof (strip_last_chars p t Ht) as H.
  destruct (c =? hyphen); [done|]. cbn [forallb]. by rewrite Hc.
Qed.

Lemma strip_edges_start t : no_double t = true -> starts_with_hyphen (strip_edges t) = false.
Proof.
  destruct t as [|c t]; [done|]. rewrite strip_edges_cons, no_double_cons.
  intros [Hc Ht]%andb_prop. destruct (c =? hyphen) eqn:E.
  - cbn [andb] in Hc. apply negb_true_iff in Hc. by apply strip_last_not_start.
  - cbn [starts_with_hyphen]. exact E.
Qed.

Lemma strip_edges_no_double t : no_double t = true -> no_double (strip_edges t) = true.
Proof.
  destruct t as [|c t]; [done|]. intros H. rewrite strip_edges_cons.
  pose proof (strip_last_no_double _ H) as H'.
  rewrite no_double_cons in H. apply andb_prop in H as [Hc Ht].
  destruct (c =? hyphen) eqn:E; [by apply strip_last_no_double|].
  rewrite no_double_cons, E. cbn [andb negb]. by apply strip_last_no_double.
Qed.

Lemma strip_edges_end t : no_double t = true -> ends_with_hyphen (strip_edges t) = false.
Proof.
  destruct t as [|c t]; [done|]. intros H. rewrite strip_edges_cons.
  pose proof (strip_last_end _ H) as H'.
  rewrite no_double_cons in H. apply andb_prop in H as [Hc Ht].
  destruct (c =? hyphen) eqn:E; [by apply strip_last_end|].
  destruct t as [|d t].
  - cbn [strip_last ends_with_hyphen]. exact E.
  - rewrite strip_last_cons in H'. exact H'.
Qed.

Lemma strip_edges_id t :
  starts_with_hyphen t = false -> ends_with_hyphen t = false -> strip_edges t = t.
Proof.
  destruct t as [|c t]; [done|]. rewrite strip_edges_cons.
  cbn [starts_with_hyphen]. intros -> H. f_equal.
  destruct t as [|d t]; [done|]. by apply strip_last_id.
Qed.

Lemma take_start n s : starts_with_hyphen s = false -> starts_with_hyphen (take n s) = false.
Proof. by destruct s, n. Qed.

Lemma take_no_double n s : no_double s = true -> no_double (take n s) = true.
Proof.
  revert n. induction s as [|c s IH]; intros [|n]; try done.
  rewrite no_double_cons. intros [Hc Hs]%andb_prop.
  change (take (S n) (c :: s)) with (c :: take n s).
  rewrite no_double_cons, (IH _ Hs), andb_true_r.
  destruct (c =? hyphen); [|done]. cbn [andb] in *. apply negb_true_iff in Hc.
  by rewrite take_start.
Qed.

Lemma forallb_take {X} (p : X -> bool) n l : forallb p l = true -> forallb p (take n l) = true.
Proof.
  revert n. induction l as [|x l IH]; intros [|n]; try done. simpl.
  intros [-> H]%andb_prop. by apply IH.
Qed.

(** On a string that is a slug already, every step but the last strip is
    the identity. *)
Lemma hyphenate_id y :
  forallb slug_char y = true -> no_double y = true ->
  hyphenate false y = y /\ (starts_with_hyphen y = false -> hyphenate true y = y).
Proof.
  induction y as [|c y IH]; [done|]. cbn [forallb no_double hyphenate].
  intros [Hc Hy]%andb_prop [Hd Hn]%andb_prop. destruct (IH Hy Hn) as [IH1 IH2].
  destruct (alnum c) eqn:E.
  - rewrite IH1. done.
  - unfold slug_char in Hc. rewrite E in Hc. simpl in Hc. rewrite Hc in Hd.
    apply N.eqb_eq in Hc. subst c. simpl in Hd. apply negb_true_iff in Hd.
    rewrite IH2 by done. split; [done|]. by vm_compute.
Qed.

Section Slugs.
Context `{RT : Runtime}.

Lemma slugify_eq text :
  slugify text =
  take 90 (strip_edges (hyphenate false (toLowerCase
    (List.filter (fun c => negb (between 768 879 c)) (normalizeNFKD text))))).
Proof.
  unfold slugify, slice0. rewrite replace_edge. unfold replace_all.
  rewrite replace_combining. by rewrite (proj1 (replace_non_alnum _ 0%nat)).
Qed.

Lemma slug_chars_ascii y : forallb slug_char y = true -> forallb is_ascii y = true.
Proof.
  induction y as [|c y IH]; [done|]. cbn [forallb]. intros [Hc Hy]%andb_prop.
  rewrite (IH Hy), andb_true_r. apply slug_char_range in Hc.
  unfold is_ascii. apply N.ltb_lt. lia.
Qed.

Lemma slug_chars_not_combining y :
  forallb slug_char y = true ->
  List.filter (fun c => negb (between 768 879 c)) y = y.
Proof.
  induction y as [|c y IH]; [done|]. cbn [forallb List.filter].
  intros [Hc Hy]%andb_prop. apply slug_char_range in Hc.
  replace (between 768 879 c) with false; [cbn [negb]; by rewrite IH|].
  symmetry. unfold between. apply andb_false_iff. left. apply N.leb_gt. lia.
Qed.

Lemma slug_chars_lower y : forallb slug_char y = true -> List.map ascii_lower y = y.
Proof.
  induction y as [|c y IH]; [done|]. cbn [forallb List.map].
  intros [Hc Hy]%andb_prop. apply slug_char_range in Hc. rewrite (IH Hy). f_equal.
  unfold ascii_lower, is_upper, between.
  replace ((65 <=? c) && (c <=? 90)) with false; [done|].
  symmetry. apply andb_false_iff.
  destruct (N.leb_spec 65 c); [right; apply N.leb_gt; lia|by left].
Qed.

(** What does hold of every slug: its code units are in [a-z0-9-], it has
    at most 90 of them, it does not start with a hyphen and has no two
    hyphens in a row; it ends in a hyphen only when it has been cut at 90;
    and a second pass changes nothing when it does not end in a hyphen. *)
Theorem slugify_shape text :
  let y := slugify text in
  forallb slug_char y = true /\
  (length y <= 90)%nat /\
  starts_with_hyphen y = false /\
  no_double y = true /\
  (ends_with_hyphen y = true -> length y = 90%nat) /\
  (ends_with_hyphen y = false -> slugify y = y).
Proof.
  cbn zeta. rewrite (slugify_eq text).
  set (h := hyphenate false _).
  assert (forallb slug_char h = true) as Hchars by apply hyphenate_chars.
  assert (no_double h = true) as Hnd by apply hyphenate_no_double.
  set (full := strip_edges h).
  assert (forallb slug_char full = true) as Hc by (by apply strip_edges_chars).
  assert (no_double full = true) as Hn by (by apply strip_edges_no_double).
  assert (starts_with_hyphen full = false) as Hs by (by apply strip_edges_start).
  assert (ends_with_hyphen full = false) as He by (by apply strip_edges_end).
  set (y := take 90 full).
  assert (forallb slug_char y = true) as Hyc by (by apply forallb_take).
  assert (no_double y = true) as Hyn by (by apply take_no_double).
  assert (starts_with_hyphen y = false) as Hys by (by apply take_start).
  assert (length y <= 90)%nat as Hlen by (unfold y; rewrite length_take; lia).
  split; [done|]. split; [done|]. split; [done|]. split; [done|]. split.
  - intros Hend. destruct (decide (length full <= 90)%nat) as [Hle|Hgt].
    + unfold y in Hend. rewrite take_ge in Hend by done. congruence.
    + unfold y. rewrite length_take. lia.
  - intros Hend. rewrite slugify_eq.
    rewrite normalizeNFKD_ascii by (by apply slug_chars_ascii).
    rewrite slug_chars_not_combining by done.
    rewrite toLowerCase_ascii by (by apply slug_chars_ascii).
    rewrite slug_chars_lower by done.
    rewrite (proj1 (hyphenate_id y Hyc Hyn)).
    rewrite strip_edges_id by done. by apply take_ge.
Qed.

(** C2, at the input that breaks it.  For the name made of 89 letters [a], a
    space and a [b], the hyphenated form has 91 code units and its hyphen at
    index 89, so that the cut to 90 leaves a slug that ends in a hyphen; a
    second pass strips that hyphen, so the slug of the slug differs. *)
Theorem slugify_truncation_leaves_hyphen :
  let x := repeat 97 89 ++ lit " b" in
  slugify x = repeat 97 89 ++ [45] /\
  slugify (slugify x) = repeat 97 89.
Proof.
  cbn zeta.
  assert (slugify (repeat 97 89 ++ lit " b") = repeat 97 89 ++ [45]) as E1.
  { unfold slugify. rewrite normalizeNFKD_ascii by (vm_compute; reflexivity).
    rewrite toLowerCase_ascii by (vm_compute; reflexivity). vm_compute. reflexivity. }
  split; [exact E1|]. rewrite E1.
  unfold slugify. rewrite normalizeNFKD_ascii by (vm_compute; reflexivity).
  rewrite toLowerCase_ascii by (vm_compute; reflexivity). vm_compute. reflexivity.
Qed.

End Slugs.

(** ** The submitting member *)

Section Members.
Context `{RT : Runtime}.

Lemma elem_of_snoc_ne {X} (x y : X) l : x ∈ l ++ [y] -> x <> y -> x ∈ l.
Proof. intros [?|?%list_elem_of_singleton]%elem_of_app ?; done. Qed.

Lemma elem_of_snoc_here {X} (x : X) l : x ∈ l ++ [x].
Proof. apply elem_of_app. right. by apply list_elem_of_singleton. Qed.

Lemma elem_of_snoc_there {X} (x y : X) l : x ∈ l -> x ∈ l ++ [y].
Proof. intros ?. apply elem_of_app. by left. Qed.

Lemma provision_calm_member cfg g msg n parts w tr who :
  member msg = Some who ->
  wp (provision cfg g msg n parts)
     (member_outcome cfg g who (nth 0 parts []) (lit "oc-" ++ slugify n) w tr)
     {| world := w; faults := []; trace := tr |}.
Proof.
  intros Hm.
  unfold provision, guilds_fetch, roles_create, channels_create, send, roles_add.
  rewrite Hm.
  repeat (wp_step; cbn [tail];
          try match goal with H : [] = _ :: _ |- _ => discriminate H end).
  all: unfold member_outcome, find_channel, find_role in *;
       cbn [world faults trace roles channels member_roles
            with_roles with_channels with_member_roles] in *.
  all: split; [done|].
  all: repeat match goal with
         | H : find _ _ = None |- _ => rewrite (find_app_None _ _ _ H)
         | H : find _ _ = Some _ |- _ => rewrite H
         end.
  all: cbn [find role_name channel_name channel_type];
       rewrite ?bool_decide_eq_true_2 by done; cbn [andb].
  all: eexists; split; [reflexivity|].
  all: cbn [role_id channel_parent channel_overwrites].
  all: split; [|split; [|split]].
  all: repeat match goal with
         | H : bool_decide _ = true |- _ => apply bool_decide_eq_true in H
         | H : bool_decide _ = false |- _ => apply bool_decide_eq_false in H
         end.
  all: lazymatch goal with
       | |- forall x, _ <-> _ =>
           intros x; rewrite ?elem_of_union, ?elem_of_singleton;
           split; [tauto | intros [->|?]; tauto]
       | |- _ ∈ _ -> _ \/ _ =>
           first [ by right
                 | intros Hin; left;
                   repeat (apply elem_of_snoc_ne in Hin; [|discriminate]); exact Hin ]
       | |- _ ∉ _ -> _ =>
           intros Hn; first [ done
                            | repeat first [ apply elem_of_snoc_here
                                           | apply elem_of_snoc_there ] ]
       | |- _ = None -> _ =>
           intros ?; first [discriminate | eexists; split; [reflexivity|done]]
       end.
Qed.

Lemma find_app_Some {X} (f : X -> bool) l l' x :
  find f l = Some x -> find f (l ++ l') = Some x.
Proof. induction l as [|y l IH]; simpl; [done|]. destruct (f y); [done|auto]. Qed.

(** A no-fault delivery of an in-scope message with a member whose name
    passes both checks. *)
Lemma deliver_calm_member cfg msg g w who :
  in_scope cfg msg g ->
  (2 <= length (split re_spaces (extract_name msg)))%nat ->
  toLowerCase (extract_name msg) ∉ roster_of (sheet w) ->
  member msg = Some who ->
  let firstName := nth 0 (split re_spaces (extract_name msg)) [] in
  let channelName := lit "oc-" ++ slugify (extract_name msg) in
  exists st',
    deliver cfg msg [] w = (world st', trace st') /\
    member_outcome cfg g who firstName channelName w
      (Fetched :: warning_of (sheet w)) (Ok tt) st'.
Proof.
  intros Hs Hlen Hnot Hm. cbn zeta.
  assert (extract_name msg <> []) as Hn.
  { intros E. rewrite E in Hlen. vm_compute in Hlen. lia. }
  unfold deliver, handler, try_catch.
  rewrite (handler_body_in_scope _ _ _ _ Hs Hn). cbn zeta. cbn [world faults trace app].
  rewrite bool_decide_eq_false_2 by done.
  replace (length (split re_spaces (extract_name msg)) <? 2)%nat with false
    by (symmetry; apply Nat.ltb_ge; lia).
  match goal with |- context [provision ?a ?b ?c ?d ?e ?s] =>
    pose proof (provision_calm_member a b c d e (world s) (trace s) who Hm) as Hp;
    unfold wp in Hp; cbn [world faults trace] in Hp;
    destruct (provision a b c d e s) as [r st'] end; cbn [fst snd] in *.
  pose proof Hp as [-> _]. by exists st'.
Qed.

End Members.

Section Members2.
Context `{RT : Runtime}.

(** What a no-fault delivery does for the member. *)
Lemma calm_member_delivery cfg msg g w who :
  in_scope cfg msg g ->
  let fullName := extract_name msg in
  let parts := split re_spaces fullName in
  (2 <= length parts)%nat ->
  toLowerCase fullName ∉ roster_of (sheet w) ->
  member msg = Some who ->
  let firstName := nth 0 parts [] in
  let channelName := lit "oc-" ++ slugify fullName in
  let w1 := fst (deliver cfg msg [] w) in
  let tr := snd (deliver cfg msg [] w) in
  exists role,
    find_role firstName w1 = Some role /\
    (who, role_id role) ∈ member_roles w1 /\
    (forall x, x ∈ member_roles w1 <-> x = (who, role_id role) \/ x ∈ member_roles w) /\
    (RoleAdded who (role_id role) ∈ tr <-> (who, role_id role) ∉ member_roles w) /\
    (find_channel channelName w = None ->
       exists c, find_channel channelName w1 = Some c /\
         channel_parent c = OC_CATEGORY_ID cfg /\
         member_entry (role_id role) ∈ channel_overwrites c).
Proof.
  intros Hs fullName parts Hlen Hnot Hm firstName channelName w1 tr.
  destruct (deliver_calm_member cfg msg g w who Hs Hlen Hnot Hm)
    as (st' & E & _ & role & Hrole & Hmem & Hadd & Hadded & Hchan).
  fold fullName parts firstName channelName in Hrole, Hchan.
  unfold w1, tr. rewrite E. cbn [fst snd].
  exists role. split; [done|]. split; [apply Hmem; by left|]. split; [done|].
  split; [|].
  - split; [|done]. intros Hin. destruct (Hadd Hin) as [Hpre|?]; [|done].
    exfalso. apply elem_of_cons in Hpre as [?|Hpre]; [done|].
    destruct (sheet w); simpl in Hpre; rewrite ?list_elem_of_singleton in Hpre;
      try discriminate. by apply elem_of_nil in Hpre.
  - intros Hnone. destruct (Hchan Hnone) as (c & Hc & Hpar & Hov).
    exists c. split; [done|]. split; [done|]. rewrite Hov.
    unfold build_overwrites, member_entry. apply elem_of_app. left.
    apply elem_of_cons. right. apply elem_of_cons. by left.
Qed.

(** After a delivery in which no platform call is rejected, the member who
    sent an accepted name holds the role that answers to its first token;
    the role is added by a call exactly when the member did not hold it, no
    other membership changes, and a channel created on the way lets that
    role in. *)
Theorem submitter_holds_role cfg msg g w who :
  in_scope cfg msg g ->
  let fullName := extract_name msg in
  let parts := split re_spaces fullName in
  (2 <= length parts)%nat ->
  toLowerCase fullName ∉ roster_of (sheet w) ->
  member msg = Some who ->
  let firstName := nth 0 parts [] in
  let channelName := lit "oc-" ++ slugify fullName in
  let w1 := fst (deliver cfg msg [] w) in
  let tr := snd (deliver cfg msg [] w) in
  exists role,
    find_role firstName w1 = Some role /\
    (who, role_id role) ∈ member_roles w1 /\
    (forall x, x ∈ member_roles w1 <-> x = (who, role_id role) \/ x ∈ member_roles w) /\
    (RoleAdded who (role_id role) ∈ tr <-> (who, role_id role) ∉ member_roles w) /\
    (find_channel channelName w = None ->
       exists c, find_channel channelName w1 = Some c /\
         channel_parent c = OC_CATEGORY_ID cfg /\
         member_entry (role_id role) ∈ channel_overwrites c).
Proof. apply calm_member_delivery. Qed.

Lemma find_role_lower name name' w :
  toLowerCase name = toLowerCase name' -> find_role name w = find_role name' w.
Proof. unfold find_role. by intros ->. Qed.

(** Characters whose names start with the same token, in whatever case,
    share one role.  After the two submissions have been delivered with no
    platform call rejected, both members hold that role, and the channel
    made for the first character lets it in: the second member can read the
    first character's channel. *)
Theorem same_first_name_shares_role cfg msg1 msg2 g w who1 who2 :
  in_scope cfg msg1 g -> in_scope cfg msg2 g ->
  let n1 := extract_name msg1 in
  let n2 := extract_name msg2 in
  (2 <= length (split re_spaces n1))%nat ->
  (2 <= length (split re_spaces n2))%nat ->
  toLowerCase n1 ∉ roster_of (sheet w) ->
  toLowerCase n2 ∉ roster_of (sheet w) ->
  member msg1 = Some who1 -> member msg2 = Some who2 ->
  toLowerCase (nth 0 (split re_spaces n1) []) =
    toLowerCase (nth 0 (split re_spaces n2) []) ->
  find_channel (lit "oc-" ++ slugify n1) w = None ->
  let w1 := fst (deliver cfg msg1 [] w) in
  let w2 := fst (deliver cfg msg2 [] w1) in
  exists role c1,
    find_channel (lit "oc-" ++ slugify n1) w2 = Some c1 /\
    member_entry (role_id role) ∈ channel_overwrites c1 /\
    (who1, role_id role) ∈ member_roles w2 /\
    (who2, role_id role) ∈ member_roles w2.
Proof.
  intros Hs1 Hs2 n1 n2 Hl1 Hl2 Hr1 Hr2 Hm1 Hm2 Hfirst Hnone w1 w2.
  destruct (calm_member_delivery cfg msg1 g w who1 Hs1 Hl1 Hr1 Hm1)
    as (role & Hrole & Hin1 & _ & _ & Hchan).
  destruct (Hchan Hnone) as (c1 & Hc1 & _ & Hentry). clear Hchan.
  fold n1 w1 in Hrole, Hin1, Hc1.
  assert (sheet w1 = sheet w) as Hsheet.
  { pose proof (handler_roster cfg msg1 {| world := w; faults := []; trace := [] |})
      as [Hsh _]. exact Hsh. }
  rewrite <- Hsheet in Hr2.
  destruct (calm_member_delivery cfg msg2 g w1 who2 Hs2 Hl2 Hr2 Hm2)
    as (role2 & Hrole2 & Hin2 & Hmem2 & _ & _).
  fold n2 w2 in Hrole2, Hin2, Hmem2.
  pose proof (handler_at_most_one cfg msg2 [] w1) as [Hroles Hchans].
  cbn zeta in Hroles, Hchans. fold n2 w2 in Hroles, Hchans.
  rewrite (find_role_lower _ _ _ Hfirst) in Hrole.
  assert (role2 = role) as ->.
  { destruct Hroles as [E|(Hno & _)]; [|congruence].
    unfold find_role in *. rewrite E in Hrole2. congruence. }
  exists role, c1. split; [|split; [done|split; [|done]]].
  - destruct Hchans as [E|(_ & c & E & _)]; unfold find_channel in *; rewrite E;
      [done|by apply find_app_Some].
  - apply Hmem2. by right.
Qed.

End Members2.

(** ** Messages without a member *)

Section Memberless.
Context `{RT : Runtime}.

Ltac unfold_provision :=
  unfold provision, guilds_fetch, roles_create, channels_create, send, roles_add.

Lemma provision_memberless_throws cfg g msg n parts st :
  member msg = None -> is_throw (fst (provision cfg g msg n parts st)) = true.
Proof.
  intros Hm. destruct st as [w fs tr].
  change (wp (provision cfg g msg n parts) (fun r _ => is_throw r = true)
            {| world := w; faults := fs; trace := tr |}).
  unfold_provision. rewrite Hm. repeat wp_step; done.
Qed.

Lemma provision_memberless_calm cfg g msg n parts w tr :
  member msg = None ->
  fst (provision cfg g msg n parts {| world := w; faults := []; trace := tr |}) =
  Throw TypeError.
Proof.
  intros Hm.
  change (wp (provision cfg g msg n parts) (fun r _ => r = Throw TypeError)
            {| world := w; faults := []; trace := tr |}).
  unfold_provision. rewrite Hm.
  repeat (wp_step; cbn [tail];
          try match goal with H : [] = _ :: _ |- _ => discriminate H end).
  all: reflexivity.
Qed.

Lemma provision_memberless_events cfg g msg n parts :
  member msg = None ->
  rel (extends (fun ev => for_member ev = false)) (provision cfg g msg n parts).
Proof. intros Hm. unfold_provision. rewrite Hm. repeat rel_step; simpl; done. Qed.

Lemma provision_memberless_roles cfg g msg n parts :
  member msg = None ->
  rel (keeps member_roles) (provision cfg g msg n parts).
Proof. intros Hm. unfold_provision. rewrite Hm. repeat rel_step; simpl; done. Qed.

(** After a delivery in which no platform call is rejected, an accepted
    name has its role and its channel. *)
Lemma calm_delivery_resolves cfg msg g w :
  in_scope cfg msg g ->
  (2 <= length (split re_spaces (extract_name msg)))%nat ->
  toLowerCase (extract_name msg) ∉ roster_of (sheet w) ->
  let w1 := fst (deliver cfg msg [] w) in
  is_Some (find_role (nth 0 (split re_spaces (extract_name msg)) []) w1) /\
  is_Some (find_channel (lit "oc-" ++ slugify (extract_name msg)) w1).
Proof.
  intros Hs Hlen Hnot. cbn zeta.
  destruct (deliver_calm cfg msg g w Hs Hlen Hnot) as (r1 & st1 & E1 & _ & _ & Hr1 & Hc1).
  rewrite E1. cbn [fst]. split.
  - destruct (find_role _ w) eqn:Ef.
    + destruct Hr1 as [Hr1 _]. unfold find_role in *. rewrite Hr1. eauto.
    + destruct Hr1 as (role & Hroles & Hname).
      rewrite (find_role_created _ _ _ _ Ef Hroles Hname). eauto.
  - destruct (find_channel _ w) eqn:Ef.
    + destruct Hc1 as [Hc1 _]. unfold find_channel in *. rewrite Hc1. eauto.
    + destruct Hc1 as (c & Hchans & Hname & Hty).
      rewrite (find_channel_created _ _ _ _ Ef Hchans Hname Hty). eauto.
Qed.

(** A submission whose message has no member ([message.member] is null)
    never completes.  Once its name has passed both checks, every delivery
    ends in the handler's [catch] with an error logged last, whatever
    platform calls are rejected; no role is assigned, no audit message is
    sent and the memberships are as before.  When no call is rejected the
    error is the [TypeError] of line 262, raised after the role and the
    channel have been found or made. *)
Theorem memberless_submission_ends_in_error cfg msg g w :
  in_scope cfg msg g ->
  let fullName := extract_name msg in
  let parts := split re_spaces fullName in
  (2 <= length parts)%nat ->
  toLowerCase fullName ∉ roster_of (sheet w) ->
  member msg = None ->
  (forall fs,
     let w1 := fst (deliver cfg msg fs w) in
     let tr := snd (deliver cfg msg fs w) in
     (exists e, last tr = Some (Errored e)) /\
     existsb for_member tr = false /\
     member_roles w1 = member_roles w) /\
  last (snd (deliver cfg msg [] w)) = Some (Errored TypeError) /\
  is_Some (find_role (nth 0 parts []) (fst (deliver cfg msg [] w))) /\
  is_Some (find_channel (lit "oc-" ++ slugify fullName) (fst (deliver cfg msg [] w))).
Proof.
  intros Hs fullName parts Hlen Hnot Hm.
  assert (extract_name msg <> []) as Hn.
  { intros E. unfold parts, fullName in Hlen. rewrite E in Hlen. vm_compute in Hlen. lia. }
  assert (forall fs, handler_body cfg msg {| world := w; faults := fs; trace := [] |} =
            provision cfg g msg fullName parts
              {| world := with_names w (roster_of (sheet w)); faults := fs;
                 trace := Fetched :: warning_of (sheet w) |}) as Hbody.
  { intros fs. rewrite (handler_body_in_scope _ _ _ _ Hs Hn). cbn zeta.
    cbn [world faults trace app]. fold fullName parts.
    rewrite bool_decide_eq_false_2 by done.
    replace (length parts <? 2)%nat with false by (symmetry; apply Nat.ltb_ge; lia).
    done. }
  split; [|split].
  - intros fs. cbn zeta. unfold deliver, handler, try_catch. cbn [fst snd].
    rewrite Hbody.
    match goal with |- context [provision ?a ?b ?c ?d ?e ?s] =>
      pose proof (provision_memberless_throws a b c d e s Hm) as Hthrow;
      destruct (provision_memberless_events a b c d e Hm s) as (new & Hnew & Hev);
      pose proof (provision_memberless_roles a b c d e Hm s) as Hkeep;
      destruct (provision a b c d e s) as [[[]|e'] st'] end;
      cbn [fst snd is_throw] in *; [discriminate|].
    unfold emit. cbn [snd world trace]. split; [|split].
    + exists e'. by rewrite last_snoc.
    + rewrite Hnew. cbn [trace]. rewrite existsb_app. cbn [existsb for_member orb].
      rewrite orb_false_r.
      change (Fetched :: warning_of (sheet w) ++ new)
        with ((Fetched :: warning_of (sheet w)) ++ new).
      rewrite existsb_app.
      replace (existsb for_member (Fetched :: warning_of (sheet w))) with false
        by (by destruct (sheet w)).
      by apply existsb_false_Forall.
    + exact Hkeep.
  - unfold deliver, handler, try_catch. cbn [fst snd]. rewrite Hbody.
    match goal with |- context [provision ?a ?b ?c ?d ?e ?s] =>
      pose proof (provision_memberless_calm a b c d e (world s) (trace s) Hm) as Hthrow;
      cbn [world trace] in Hthrow;
      destruct (provision a b c d e s) as [r st'] end.
    cbn [fst] in Hthrow. subst r. unfold emit. cbn [snd trace]. by rewrite last_snoc.
  - apply (calm_delivery_resolves cfg msg g w Hs Hlen Hnot).
Qed.

End Memberless.

(** ** The audit message *)

Section Audit.
Context `{RT : Runtime}.

Ltac unfold_provision :=
  unfold provision, guilds_fetch, roles_create, channels_create, send, roles_add.

Lemma provision_audit cfg g msg n parts w fs tr :
  wp (provision cfg g msg n parts)
     (fun r st' => forall ev, is_audit ev = true -> ev ∈ trace st' ->
        ev ∈ tr \/
        r = Ok tt /\
        audit_facts cfg msg n (nth 0 parts []) (lit "oc-" ++ slugify n) st' ev)
     {| world := w; faults := fs; trace := tr |}.
Proof.
  unfold_provision.
  repeat wp_step.
  all: intros ev Hev Hin.
  all: first
    [ left; repeat (apply elem_of_snoc_ne in Hin; [|by intros ->]); exact Hin
    | apply elem_of_app in Hin as [Hin|Hin%list_elem_of_singleton];
      [ left; repeat (apply elem_of_snoc_ne in Hin; [|by intros ->]); exact Hin
      | right; split; [reflexivity|] ] ].
  all: subst ev;
       match goal with
       | Hm : member _ = Some ?s
         |- audit_facts _ _ _ _ _ _
              (Sent (channel_id ?lc) (AuditLog _ (role_id ?r) (channel_id ?c) _)) =>
           exists lc, r, c, s
       end.
  all: repeat match goal with
         | H : find_role _ _ = Some _ |- _ => apply find_role_Some in H as [? ?]
         | H : find_channel _ _ = Some _ |- _ =>
             apply find_channel_Some in H as (? & ? & ?)
         | H : find _ _ = Some _ |- _ =>
             apply find_some in H as [?%list_elem_of_In ?%bool_decide_eq_true]
         | H : bool_decide _ = true |- _ => apply bool_decide_eq_true in H
         end.
  all: cbn [world trace roles channels member_roles
            with_roles with_channels with_member_roles] in *.
  all: rewrite last_snoc.
  all: repeat split; try done; try congruence.
  all: rewrite ?elem_of_app, ?elem_of_union, ?elem_of_singleton,
         ?list_elem_of_singleton; auto.
Qed.

Lemma provision_calm_audit cfg g msg n parts w tr who log_id logChannel :
  member msg = Some who ->
  LOG_CHANNEL_ID cfg = Some log_id ->
  find (fun c => bool_decide (channel_id c = log_id)) (channels w) = Some logChannel ->
  isTextBased (channel_type logChannel) = true ->
  wp (provision cfg g msg n parts)
     (fun _ st' => exists rid cid,
        last (trace st') = Some (Sent log_id (AuditLog n rid cid (author_id msg))))
     {| world := w; faults := []; trace := tr |}.
Proof.
  intros Hm Hlog Hfind Htext. unfold_provision. rewrite Hm, Hlog.
  repeat (wp_step; cbn [tail];
          try match goal with H : [] = _ :: _ |- _ => discriminate H end).
  all: cbn [channels with_roles with_channels with_member_roles] in *.
  all: repeat match goal with
         | H : find _ (_ ++ _) = _ |- _ =>
             rewrite (find_app_Some _ _ _ _ Hfind) in H
         end.
  all: try congruence.
  all: rewrite last_snoc.
  all: simplify_eq.
  all: match goal with
       | H : find (fun c => bool_decide (channel_id c = _)) _ = Some _ |- _ =>
           apply find_some in H as [_ <-%bool_decide_eq_true]
       end; eauto.
Qed.

(** An audit message is sent only when everything before it has gone
    through.  If the trace of a delivery holds one, then [LOG_CHANNEL_ID] is
    set and names a cached channel that can take messages; the message names
    the extracted name, a role of the guild that answers to its first token,
    a text channel called [oc-] and the slug, and the author; the member
    holds that role; and the message is the last event of the delivery. *)
Theorem audit_message_conditions cfg msg fs w ev :
  is_audit ev = true ->
  ev ∈ snd (deliver cfg msg fs w) ->
  let fullName := extract_name msg in
  let w1 := fst (deliver cfg msg fs w) in
  exists logChannel role chan who,
    ev = Sent (channel_id logChannel)
           (AuditLog fullName (role_id role) (channel_id chan) (author_id msg)) /\
    LOG_CHANNEL_ID cfg = Some (channel_id logChannel) /\
    logChannel ∈ channels w1 /\
    isTextBased (channel_type logChannel) = true /\
    role ∈ roles w1 /\
    toLowerCase (role_name role) =
      toLowerCase (nth 0 (split re_spaces fullName) []) /\
    chan ∈ channels w1 /\
    channel_name chan = lit "oc-" ++ slugify fullName /\
    channel_type chan = GuildText /\
    member msg = Some who /\
    (who, role_id role) ∈ member_roles w1 /\
    last (snd (deliver cfg msg fs w)) = Some ev.
Proof.
  intros Hev. unfold deliver. cbn [fst snd]. cbn zeta.
  unfold handler, try_catch.
  destruct (handler_body_cases cfg msg) as [Hout | (g & Hs & Hn)].
  { rewrite Hout. simpl. by intros ?%elem_of_nil. }
  rewrite (handler_body_in_scope _ _ _ _ Hs Hn). cbn zeta. cbn [world faults trace app].
  assert (ev ∉ Fetched :: warning_of (sheet w)) as Hpre.
  { rewrite elem_of_cons. intros [->|H]; [done|].
    destruct (sheet w); simpl in H; rewrite ?list_elem_of_singleton in H;
      subst; try done. by apply elem_of_nil in H. }
  destruct (bool_decide _); [|destruct (_ <? _)%nat].
  - unfold reply, call, emit; cbn [world faults trace].
    destruct fs as [|[] fs]; cbn [snd trace]; rewrite ?elem_of_app, ?list_elem_of_singleton;
      intros ?; destruct_or?; subst; done.
  - unfold reply, call, emit; cbn [world faults trace].
    destruct fs as [|[] fs]; cbn [snd trace]; rewrite ?elem_of_app, ?list_elem_of_singleton;
      intros ?; destruct_or?; subst; done.
  - match goal with |- context [provision ?a ?b ?c ?d ?e ?s] =>
      pose proof (provision_audit a b c d e (world s) (faults s) (trace s)) as Hp;
      unfold wp in Hp; cbn [world faults trace] in Hp;
      destruct (provision a b c d e s) as [r st'] end.
    cbn [fst snd] in Hp. intros Hin.
    assert (ev ∈ trace st') as Hin'.
    { destruct r; [done|]. unfold emit in Hin. cbn [snd trace] in Hin.
      apply elem_of_snoc_ne in Hin; [done|]. by intros ->. }
    destruct (Hp ev Hev Hin') as [?|[-> Hfacts]]; [done|]. exact Hfacts.
Qed.

(** The audit message is sent.  With [LOG_CHANNEL_ID] set to a cached
    channel that can take messages, a delivery in which no platform call is
    rejected, for a message with a member whose name passes both checks, ends
    with the audit message in that channel. *)
Theorem audit_message_sent cfg msg g w who log_id logChannel :
  in_scope cfg msg g ->
  let fullName := extract_name msg in
  (2 <= length (split re_spaces fullName))%nat ->
  toLowerCase fullName ∉ roster_of (sheet w) ->
  member msg = Some who ->
  LOG_CHANNEL_ID cfg = Some log_id ->
  find (fun c => bool_decide (channel_id c = log_id)) (channels w) = Some logChannel ->
  isTextBased (channel_type logChannel) = true ->
  exists rid cid,
    last (snd (deliver cfg msg [] w)) =
    Some (Sent log_id (AuditLog fullName rid cid (author_id msg))).
Proof.
  intros Hs fullName Hlen Hnot Hm Hlog Hfind Htext.
  assert (extract_name msg <> []) as Hn.
  { intros E. unfold fullName in Hlen. rewrite E in Hlen. vm_compute in Hlen. lia. }
  unfold deliver, handler, try_catch. cbn [snd].
  rewrite (handler_body_in_scope _ _ _ _ Hs Hn). cbn zeta. cbn [world faults trace app].
  fold fullName.
  rewrite bool_decide_eq_false_2 by done.
  replace (length (split re_spaces fullName) <? 2)%nat with false
    by (symmetry; apply Nat.ltb_ge; lia).
  match goal with |- context [provision ?a ?b ?c ?d ?e ?s] =>
    pose proof (provision_calm_audit a b c d e (world s) (trace s) who log_id logChannel
                  Hm Hlog Hfind Htext) as Ha;
    pose proof (provision_calm_member a b c d e (world s) (trace s) who Hm) as Hp;
    unfold wp in Ha, Hp; cbn [world faults trace] in Ha, Hp;
    destruct (provision a b c d e s) as [r st'] end.
  cbn [fst snd] in *. destruct Hp as [-> _]. exact Ha.
Qed.

End Audit.

(** ** A rejected copy of the embed *)

Section Copy.
Context `{RT : Runtime}.

Ltac unfold_provision :=
  unfold provision, guilds_fetch, roles_create, channels_create, send, roles_add.

Lemma provision_copy_rejected cfg g msg n parts w tr who e es :
  member msg = Some who ->
  embeds msg = e :: es ->
  find_channel (lit "oc-" ++ slugify n) w = None ->
  wp (provision cfg g msg n parts)
     (fun r st' =>
        r = Ok tt /\
        Warned ApiError ∈ trace st' /\
        (forall ev, is_copy ev = true -> ev ∈ trace st' -> ev ∈ tr) /\
        is_Some (find_channel (lit "oc-" ++ slugify n) (world st')) /\
        exists role, find_role (nth 0 parts []) (world st') = Some role /\
          (who, role_id role) ∈ member_roles (world st'))
     {| world := w;
        faults := replicate (calls_before_copy (nth 0 parts []) w) false ++ [true];
        trace := tr |}.
Proof.
  intros Hm He Hc. unfold calls_before_copy. unfold_provision. rewrite Hm, He.
  destruct (find_role (nth 0 parts []) w) as [r0|] eqn:Hr.
  all: cbn [replicate app]; unfold find_channel in *.
  all: repeat (wp_step; cbn [tail head channels with_roles] in *;
               try match goal with
                   | H : Some _ = None |- _ => discriminate H
                   | H : None = Some _ |- _ => discriminate H
                   | H : false :: _ = true :: _ |- _ => discriminate H
                   | H : [] = _ :: _ |- _ => discriminate H
                   | H : Some true <> Some true |- _ => by destruct H
                   | H : [true] = true :: _ |- _ => injection H as <-
                   | H : Some _ = Some _ |- _ => injection H as ->
                   end).
  all: split; [done|].
  all: split;
    [repeat first [apply elem_of_snoc_here | apply elem_of_snoc_there]|].
  all: split;
    [intros ev Hev Hin;
     repeat (apply elem_of_snoc_ne in Hin; [|by intros ->]); exact Hin|].
  all: unfold find_role, find_channel in *;
       cbn [world roles channels member_roles
            with_roles with_channels with_member_roles] in *.
  all: repeat match goal with
         | H : find _ _ = None |- _ => rewrite (find_app_None _ _ _ H)
         | H : find _ _ = Some _ |- _ => rewrite H
         end.
  all: cbn [find role_name channel_name channel_type];
       rewrite ?bool_decide_eq_true_2 by done; cbn [andb].
  all: split; [by eexists|].
  all: eexists; split; [reflexivity|].
  all: repeat match goal with
         | H : bool_decide _ = true |- _ => apply bool_decide_eq_true in H
         end.
  all: rewrite ?elem_of_union, ?elem_of_singleton; auto.
Qed.

(** A rejected embed copy is contained.  When the channel has to be
    created for a message that carries an embed and the copy of the embed is
    the one platform call that is rejected, the delivery logs a warning and no
    error, sends no copy, and goes on: the channel is there and the member
    holds the role. *)
Theorem rejected_embed_copy_is_contained cfg msg g w who e es :
  in_scope cfg msg g ->
  let fullName := extract_name msg in
  let parts := split re_spaces fullName in
  (2 <= length parts)%nat ->
  toLowerCase fullName ∉ roster_of (sheet w) ->
  member msg = Some who ->
  embeds msg = e :: es ->
  find_channel (lit "oc-" ++ slugify fullName) w = None ->
  let fs := replicate (calls_before_copy (nth 0 parts []) w) false ++ [true] in
  let w1 := fst (deliver cfg msg fs w) in
  let tr := snd (deliver cfg msg fs w) in
  Warned ApiError ∈ tr /\
  existsb is_error tr = false /\
  existsb is_copy tr = false /\
  is_Some (find_channel (lit "oc-" ++ slugify fullName) w1) /\
  exists role, find_role (nth 0 parts []) w1 = Some role /\
    (who, role_id role) ∈ member_roles w1.
Proof.
  intros Hs fullName parts Hlen Hnot Hm He Hc. cbn zeta.
  assert (extract_name msg <> []) as Hn.
  { intros E. unfold parts, fullName in Hlen. rewrite E in Hlen. vm_compute in Hlen. lia. }
  unfold deliver, handler, try_catch. cbn [fst snd].
  rewrite (handler_body_in_scope _ _ _ _ Hs Hn). cbn zeta. cbn [world faults trace app].
  fold fullName parts.
  rewrite bool_decide_eq_false_2 by done.
  replace (length parts <? 2)%nat with false by (symmetry; apply Nat.ltb_ge; lia).
  pose proof (provision_copy_rejected cfg g msg fullName parts
                (with_names w (roster_of (sheet w)))
                (Fetched :: warning_of (sheet w)) who e es Hm He Hc) as Hp.
  destruct (provision_logs_no_error cfg g msg fullName parts
              {| world := with_names w (roster_of (sheet w));
                 faults := replicate (calls_before_copy (nth 0 parts []) w) false ++ [true];
                 trace := Fetched :: warning_of (sheet w) |}) as (new & Hnew & Hno).
  unfold wp in Hp. change (calls_before_copy (nth 0 parts []) (with_names w _))
    with (calls_before_copy (nth 0 parts []) w) in Hp.
  destruct (provision cfg g msg fullName parts _) as [r st'].
  cbn [fst snd trace] in *. destruct Hp as (-> & Hwarn & Hcopy & Hchan & Hrole).
  cbn [fst snd world trace].
  split; [done|]. split; [|split; [|done]].
  - rewrite Hnew.
    change (Fetched :: warning_of (sheet w) ++ new)
      with ((Fetched :: warning_of (sheet w)) ++ new).
    rewrite existsb_app.
    replace (existsb is_error (Fetched :: warning_of (sheet w))) with false
      by (by destruct (sheet w)).
    by apply existsb_false_Forall.
  - apply existsb_false_Forall, Forall_forall. intros ev Hin.
    destruct (is_copy ev) eqn:Hev; [|done]. exfalso.
    apply (Hcopy ev Hev) in Hin. apply elem_of_cons in Hin as [->|Hin]; [done|].
    destruct (sheet w); simpl in Hin; rewrite ?list_elem_of_singleton in Hin;
      subst; try done. by apply elem_of_nil in Hin.
Qed.

End Copy.

(** ** Replies and the cached roster *)

Section Cache.
Context `{RT : Runtime}.

(** A delivery that replies does nothing else.  When the trace of a
    delivery holds a reply, the trace is the fetch of the sheet, the warning
    of a failed fetch if any, and that one reply; the reply is the duplicate
    notice when the sheet lists the name and the format help otherwise; and
    the world is as before but for the roster just fetched: no role, no
    channel, no membership has changed. *)
Theorem reply_is_the_only_effect cfg msg fs w :
  existsb is_reply (snd (deliver cfg msg fs w)) = true ->
  let n := extract_name msg in
  let r := if bool_decide (toLowerCase n ∈ roster_of (sheet w))
           then DuplicateNotice n else FormatHelp in
  deliver cfg msg fs w =
  (with_names w (roster_of (sheet w)),
   Fetched :: warning_of (sheet w) ++ [Replied r]).
Proof.
  unfold deliver. cbn [snd]. rewrite handler_world.
  destruct (handler_body_cases cfg msg) as [Hout | (g & Hs & Hn)].
  { unfold handler, try_catch. rewrite Hout. simpl. discriminate. }
  pose proof (in_scope_decision cfg msg g fs w Hs Hn) as Hd. cbn zeta in Hd.
  rewrite (handler_body_in_scope _ _ _ _ Hs Hn). cbn zeta. cbn [world faults trace].
  assert (existsb is_reply (Fetched :: warning_of (sheet w)) = false) as Hpre
    by (by destruct (sheet w)).
  destruct (bool_decide (toLowerCase (extract_name msg) ∈ roster_of (sheet w)));
    [|destruct (length (split re_spaces (extract_name msg)) <? 2)%nat].
  - rewrite Hd, reply_keeps_world. rewrite existsb_app, Hpre.
    destruct fs as [|[] fs]; simpl; done.
  - rewrite Hd, reply_keeps_world. rewrite existsb_app, Hpre.
    destruct fs as [|[] fs]; simpl; done.
  - destruct Hd as (rest & -> & Hrest). rewrite existsb_app, Hpre.
    rewrite (existsb_false_Forall _ _ Hrest). discriminate.
Qed.

(** The in-memory roster is written and never read across deliveries: a
    delivery has the same effects, and leaves the same world apart from the
    roster, whatever the roster held before.  So the roster loaded by the
    [ready] listener, which never throws and makes no platform call, changes
    nothing in any later delivery. *)
Theorem cached_roster_is_never_read cfg msg fs w :
  (forall names,
     snd (deliver cfg msg fs (with_names w names)) = snd (deliver cfg msg fs w) /\
     forall names',
       with_names (fst (deliver cfg msg fs (with_names w names))) names' =
       with_names (fst (deliver cfg msg fs w)) names') /\
  (forall tag fs' tr,
     let st := {| world := w; faults := fs'; trace := tr |} in
     fst (ready tag st) =
       Ok [LoggedIn tag; LoadedOCs (roster_of (sheet w))] /\
     faults (snd (ready tag st)) = fs' /\
     trace (snd (ready tag st)) = tr ++ Fetched :: warning_of (sheet w) /\
     existingOCNames (world (snd (ready tag st))) = roster_of (sheet w) /\
     snd (deliver cfg msg fs (world (snd (ready tag st)))) =
       snd (deliver cfg msg fs w)).
Proof.
  assert (forall names,
     snd (deliver cfg msg fs (with_names w names)) = snd (deliver cfg msg fs w) /\
     forall names',
       with_names (fst (deliver cfg msg fs (with_names w names))) names' =
       with_names (fst (deliver cfg msg fs w)) names') as Hcache.
  { intros names. unfold deliver, handler, try_catch. cbn [fst snd].
    destruct (handler_body_cases cfg msg) as [Hout | (g & Hs & Hn)].
    { rewrite !Hout. done. }
    rewrite !(handler_body_in_scope _ _ _ _ Hs Hn). cbn zeta.
    cbn [world faults trace sheet with_names].
    change (with_names (with_names w names) (roster_of (sheet w)))
      with (with_names w (roster_of (sheet w))).
    done. }
  split; [exact Hcache|].
  intros tag fs' tr. cbn zeta. unfold ready, bind. rewrite loadExistingOCs_run.
  cbn [set_existingOCNames ret fst snd world faults trace existingOCNames sheet].
  repeat split.
  apply (Hcache (roster_of (sheet w))).
Qed.

End Cache.

(** ** What calls for a creation *)

Section Justified.
Context `{RT : Runtime}.

Lemma provision_justified cfg g msg n parts w fs tr :
  wp (provision cfg g msg n parts)
     (fun _ st' => forall ev, ev ∈ trace st' ->
        ev ∈ tr \/
        justified cfg n (nth 0 parts []) (lit "oc-" ++ slugify n) w (trace st') ev)
     {| world := w; faults := fs; trace := tr |}.
Proof.
  unfold provision, guilds_fetch, roles_create, channels_create, send, roles_add.
  unfold find_channel.
  repeat (wp_step; cbn [channels with_roles] in * ).
  all: intros ev Hin.
  all: repeat (apply elem_of_app in Hin; destruct Hin as [Hin|Hin];
               [|apply list_elem_of_singleton in Hin; subst ev; right]).
  all: try (by left).
  all: cbn [justified role_name channel_name channel_type channel_parent]; try done.
  all: try (split; [done|]).
  all: eexists; (split; [repeat first [apply elem_of_snoc_here | apply elem_of_snoc_there]
                        | reflexivity]).
Qed.

(** Every creation is called for.  In any delivery, whatever platform
    calls are rejected: a role is created only when no role answers to the
    first token of the name, and its name is that token as it was typed; a
    channel is created only when no text channel is called [oc-] and the
    slug, and it is a text channel of that name under [OC_CATEGORY_ID]; and a
    welcome, which names the extracted name, or a copy of the embed is only
    sent to a channel created in the same delivery. *)
Theorem creations_are_called_for cfg msg fs w :
  let fullName := extract_name msg in
  let firstName := nth 0 (split re_spaces fullName) [] in
  let channelName := lit "oc-" ++ slugify fullName in
  let tr := snd (deliver cfg msg fs w) in
  (forall r, RoleCreated r ∈ tr ->
     role_name r = firstName /\ find_role firstName w = None) /\
  (forall c, ChannelCreated c ∈ tr ->
     channel_name c = channelName /\ channel_type c = GuildText /\
     channel_parent c = OC_CATEGORY_ID cfg /\ find_channel channelName w = None) /\
  (forall ch n, Sent ch (Welcome n) ∈ tr ->
     n = fullName /\ exists c, ChannelCreated c ∈ tr /\ channel_id c = ch) /\
  (forall ch d, Sent ch (EmbedCopy d) ∈ tr ->
     exists c, ChannelCreated c ∈ tr /\ channel_id c = ch).
Proof.
  cbn zeta.
  assert (forall ev, ev ∈ snd (deliver cfg msg fs w) ->
            is_reply ev = false -> is_log ev = false -> ev <> Fetched ->
            justified cfg (extract_name msg)
              (nth 0 (split re_spaces (extract_name msg)) [])
              (lit "oc-" ++ slugify (extract_name msg)) w
              (snd (deliver cfg msg fs w)) ev) as H.
  { intros ev Hin Hr Hl Hf. unfold deliver in *. cbn [snd] in *.
    unfold handler, try_catch in *. revert Hin.
    destruct (handler_body_cases cfg msg) as [Hout | (g & Hs & Hn)].
    { rewrite Hout. simpl. by intros ?%elem_of_nil. }
    rewrite (handler_body_in_scope _ _ _ _ Hs Hn). cbn zeta. cbn [world faults trace app].
    assert (ev ∉ Fetched :: warning_of (sheet w)) as Hpre.
    { rewrite elem_of_cons. intros [->|H]; [done|].
      destruct (sheet w); simpl in H; rewrite ?list_elem_of_singleton in H;
        subst; try done. by apply elem_of_nil in H. }
    destruct (bool_decide _); [|destruct (_ <? _)%nat].
    - unfold reply, call, emit; cbn [world faults trace].
      destruct fs as [|[] fs]; cbn [snd trace]; rewrite ?elem_of_app, ?list_elem_of_singleton;
        intros ?; destruct_or?; subst; done.
    - unfold reply, call, emit; cbn [world faults trace].
      destruct fs as [|[] fs]; cbn [snd trace]; rewrite ?elem_of_app, ?list_elem_of_singleton;
        intros ?; destruct_or?; subst; done.
    - match goal with |- context [provision ?a ?b ?c ?d ?e ?s] =>
        pose proof (provision_justified a b c d e (world s) (faults s) (trace s)) as Hp;
        unfold wp in Hp; cbn [world faults trace] in Hp;
        destruct (provision a b c d e s) as [r st'] end.
      cbn [fst snd] in Hp. intros Hin.
      assert (ev ∈ trace st') as Hin'.
      { destruct r; [done|]. unfold emit in Hin. cbn [snd trace] in Hin.
        apply elem_of_snoc_ne in Hin; [done|]. by intros ->. }
      destruct (Hp ev Hin') as [?|Hj]; [done|].
      assert (forall c, ChannelCreated c ∈ trace st' ->
                ChannelCreated c ∈
                  trace (snd (match r with
                              | Ok a => (Ok a, st')
                              | Throw e => emit (Errored e) st'
                              end))) as Hmono.
      { intros c Hc. destruct r; [done|]. unfold emit. cbn [snd trace].
        by apply elem_of_snoc_there. }
      destruct ev as [| | | | | | |ch []|]; try done; cbn [justified] in *.
      + destruct Hj as (? & c & ? & ?). eauto.
      + destruct Hj as (c & ? & ?). eauto. }
  split; [|split; [|split]].
  - intros r Hin. by apply (H _ Hin).
  - intros c Hin. by apply (H _ Hin).
  - intros ch n Hin. by apply (H _ Hin).
  - intros ch d Hin. by apply (H _ Hin).
Qed.

End Justified.

(** ** The parts of a name *)

Lemma split_go_skip r w s i cur :
  split_go r (length w) i cur (w ++ s) = split_go r 0 (i + length w) cur s.
Proof.
  revert i. induction w as [|c w IH]; intros i; cbn [length app].
  - by rewrite Nat.add_0_r.
  - cbn [split_go]. rewrite IH. f_equal. lia.
Qed.

Lemma split_runs_skip p w s cur :
  forallb p w = true -> split_runs p true cur (w ++ s) = split_runs p true cur s.
Proof.
  induction w as [|c w IH]; [done|]. cbn [forallb app split_runs].
  intros [-> Hw]%andb_prop. auto.
Qed.

Lemma split_runs_stops p s cur :
  stops p s = true -> split_runs p true cur s = split_runs p false cur s.
Proof. destruct s as [|c s]; [done|]. simpl. by intros ->%negb_true_iff. Qed.

Lemma match_at_spaces i c s :
  match_at re_spaces i (c :: s) =
  if is_ws c then Some ((S i + length (take_while is_ws s))%nat, None) else None.
Proof.
  unfold match_at, re_spaces, ws. cbn [run]. destruct (is_ws c); [|done].
  apply star_total.
Qed.

Lemma split_go_spaces s : forall i cur,
  split_go re_spaces 0 i cur s = split_runs is_ws false cur s.
Proof.
  induction s as [s IH] using (induction_ltof1 _ (@length N)). unfold ltof in IH.
  intros i cur. destruct s as [|c s]; [done|].
  cbn [split_go split_runs]. rewrite match_at_spaces.
  destruct (is_ws c).
  - replace (Nat.eqb _ i) with false by (symmetry; apply Nat.eqb_neq; lia).
    replace (S i + length (take_while is_ws s) - i - 1)%nat
      with (length (take_while is_ws s)) by lia.
    f_equal.
    pose proof (take_drop_while is_ws s) as E.
    pose proof (length_take_while_drop is_ws s) as Hlen.
    pose proof (take_while_all is_ws s) as Hall.
    pose proof (drop_while_stops is_ws s) as Hstop.
    set (tw := take_while is_ws s) in *. set (dw := drop_while is_ws s) in *.
    rewrite <- E.
    rewrite split_go_skip, split_runs_skip by done.
    rewrite split_runs_stops by done.
    apply IH. simpl. lia.
  - apply IH. simpl. lia.
Qed.

(** [s.split(/\s+/)] cuts the text at every maximal run of white space. *)
Lemma split_spaces s : split re_spaces s = split_runs is_ws false [] s.
Proof. destruct s as [|c s]; [done|]. apply split_go_spaces. Qed.

Lemma split_runs_nonempty p in_run cur s : split_runs p in_run cur s <> [].
Proof.
  revert in_run cur. induction s as [|c s IH]; intros in_run cur; [done|].
  simpl. destruct (p c), in_run; try done; apply IH.
Qed.

Lemma split_runs_no_cut p s : forall in_run cur,
  forallb (fun c => negb (p c)) s = true -> split_runs p in_run cur s = [cur ++ s].
Proof.
  induction s as [|c s IH]; intros in_run cur; [by rewrite app_nil_r|].
  cbn [forallb split_runs]. intros [->%negb_true_iff Hs]%andb_prop.
  rewrite IH by done. by rewrite <- app_assoc.
Qed.

Lemma split_runs_cut p s : forall cur,
  forallb (fun c => negb (p c)) s = false ->
  (2 <= length (split_runs p false cur s))%nat /\
  nth 0 (split_runs p false cur s) [] = cur ++ take_while (fun c => negb (p c)) s.
Proof.
  induction s as [|c s IH]; intros cur; [done|].
  cbn [forallb split_runs take_while]. destruct (p c); cbn [negb andb].
  - intros _. rewrite app_nil_r. split; [|done].
    pose proof (split_runs_nonempty p true [] s).
    destruct (split_runs p true [] s); [done|]. simpl. lia.
  - intros Hs. destruct (IH (cur ++ [c]) Hs) as [Hlen Hhd].
    split; [done|]. by rewrite Hhd, <- app_assoc.
Qed.

(** The parts of a name: there are fewer than two exactly when the name
    holds no white space, and the first part is the name up to its first
    white space. *)
Lemma parts_of_name n :
  (length (split re_spaces n) <? 2)%nat = forallb not_ws n /\
  nth 0 (split re_spaces n) [] = take_while not_ws n.
Proof.
  rewrite split_spaces. unfold not_ws.
  destruct (forallb (fun c => negb (is_ws c)) n) eqn:E.
  - rewrite (split_runs_no_cut _ _ _ _ E). split; [done|]. simpl.
    symmetry. by apply forallb_take_drop_while.
  - destruct (split_runs_cut is_ws n [] E) as [Hlen Hhd]. split; [|done].
    apply Nat.ltb_ge. done.
Qed.

Lemma extract_name_trimmed msg : exists s, extract_name msg = trim s.
Proof.
  assert (exists s, parseOCName (content msg) = trim s) as Hp
    by (unfold parseOCName; eauto).
  unfold extract_name, embed_name.
  destruct (embeds msg) as [|e es]; [done|].
  destruct (embed_title e) as [title|]; [|done].
  destruct (nonempty title); [|done].
  destruct (match1 re_embed_title title) as [g1|]; [|done].
  destruct (nonempty (trim g1)); [eauto|done].
Qed.

Section Shape.
Context `{RT : Runtime}.

Lemma provision_fetches_guild cfg g msg n parts w fs tr :
  head fs <> Some true ->
  wp (provision cfg g msg n parts) (fun _ st' => GuildFetched ∈ trace st')
     {| world := w; faults := fs; trace := tr |}.
Proof.
  intros Hfs.
  unfold provision, guilds_fetch, roles_create, channels_create, send, roles_add.
  apply wp_bind, wp_call; [intros fs' ->; by destruct Hfs|intros _].
  cbn [fst snd].
  repeat wp_step.
  all: repeat first [apply elem_of_snoc_here | apply elem_of_snoc_there].
Qed.

(** The shape check is a test for white space.  For a message in scope
    whose name is not on the roster, with the first platform call not
    rejected, the format help is sent exactly when the name holds no white
    space; when it holds some, the delivery goes on to provision with no
    reply, for a first name that is not empty and is the name up to its first
    white space. *)
Theorem format_help_iff_no_white_space cfg msg g fs w :
  in_scope cfg msg g ->
  let n := extract_name msg in
  n <> [] ->
  toLowerCase n ∉ roster_of (sheet w) ->
  head fs <> Some true ->
  let tr := snd (deliver cfg msg fs w) in
  (Replied FormatHelp ∈ tr <-> forallb not_ws n = true) /\
  (forallb not_ws n = true -> tr = Fetched :: warning_of (sheet w) ++ [Replied FormatHelp]) /\
  (forallb not_ws n = false ->
     existsb is_reply tr = false /\
     GuildFetched ∈ tr /\
     nth 0 (split re_spaces n) [] = take_while not_ws n /\
     take_while not_ws n <> []).
Proof.
  intros Hs n Hn Hnot Hfs. cbn zeta. unfold deliver. cbn [snd].
  pose proof (in_scope_decision cfg msg g fs w Hs Hn) as Hd. cbn zeta in Hd.
  fold n in Hd. rewrite bool_decide_eq_false_2 in Hd by done.
  destruct (parts_of_name n) as [Hlen Hfirst]. rewrite Hlen in Hd.
  assert (Forall (fun ev => is_reply ev = false) (Fetched :: warning_of (sheet w))) as Hpre.
  { constructor; [done|]. apply warning_of_no_reply. }
  destruct (forallb not_ws n) eqn:E.
  - assert (reply_outcome fs FormatHelp = [Replied FormatHelp]) as Ho
      by (by destruct fs as [|[] fs]).
    rewrite Ho in Hd. rewrite Hd. split; [|split; [done|done]].
    split; [done|]. intros _. apply elem_of_app. right. by apply list_elem_of_singleton.
  - split; [|split; [done|]].
    + split; [|done]. destruct Hd as (rest & -> & Hrest). intros Hin. exfalso.
      rewrite Forall_forall in Hpre, Hrest.
      change (Fetched :: warning_of (sheet w) ++ rest)
        with ((Fetched :: warning_of (sheet w)) ++ rest) in Hin.
      apply elem_of_app in Hin as [Hin|Hin]; [apply Hpre in Hin|apply Hrest in Hin]; done.
    + intros _. destruct Hd as (rest & Hd & Hrest). split; [|split; [|split; [done|]]].
      * rewrite Hd.
        change (Fetched :: warning_of (sheet w) ++ rest)
          with ((Fetched :: warning_of (sheet w)) ++ rest).
        rewrite existsb_app, !existsb_false_Forall; done.
      * unfold handler, try_catch.
        rewrite (handler_body_in_scope _ _ _ _ Hs Hn). cbn zeta.
        cbn [world faults trace app]. fold n.
        rewrite bool_decide_eq_false_2 by done. rewrite Hlen.
        match goal with |- context [provision ?a ?b ?c ?d ?e ?s] =>
          pose proof (provision_fetches_guild a b c d e (world s) (faults s) (trace s) Hfs)
            as Hp;
          unfold wp in Hp; cbn [world faults trace] in Hp;
          destruct (provision a b c d e s) as [[[]|e'] st'] end; cbn [fst snd] in *.
        -- done.
        -- unfold emit. cbn [snd trace]. by apply elem_of_snoc_there.
      * destruct (extract_name_trimmed msg) as [s Hs'].
        pose proof (trim_stops s) as Hst. rewrite <- Hs' in Hst. fold n in Hst.
        destruct n as [|c n']; [done|]. unfold not_ws. simpl in *.
        by rewrite Hst.
Qed.

End Shape.

(** ** The rows of the sheet *)

Lemma match_at_newline i c s :
  match_at re_newline i (c :: s) =
  if c =? 10 then Some (S i, None)
  else if (c =? 13) && starts_lf s then Some (S (S i), None)
  else None.
Proof.
  unfold match_at, re_newline, only, starts_lf. cbn [run].
  destruct (N.eqb_spec c 13) as [->|Hc].
  - change (13 =? 10) with false. cbn [andb].
    destruct s as [|d s]; [done|]. by destruct (d =? 10).
  - cbn [andb]. by destruct (c =? 10).
Qed.

Lemma ends_cr_snoc cur c : ends_cr (cur ++ [c]) = (c =? 13).
Proof. unfold ends_cr. by rewrite last_snoc. Qed.

Lemma strip_cr_snoc cur : strip_cr (cur ++ [13]) = cur.
Proof. unfold strip_cr. rewrite ends_cr_snoc. change (13 =? 13) with true. apply removelast_last. Qed.

Lemma split_go_newline s : forall i cur,
  ends_cr cur && starts_lf s = false ->
  split_go re_newline 0 i cur s = lines_go cur s.
Proof.
  induction s as [s IH] using (induction_ltof1 _ (@length N)). unfold ltof in IH.
  intros i cur Hinv. destruct s as [|c s]; [done|].
  cbn [split_go lines_go]. rewrite match_at_newline.
  cbn [starts_lf] in Hinv.
  destruct (c =? 10) eqn:Hlf.
  - replace (Nat.eqb (S i) i) with false by (symmetry; apply Nat.eqb_neq; lia).
    replace (S i - i - 1)%nat with 0%nat by lia.
    rewrite andb_true_r in Hinv. unfold strip_cr. rewrite Hinv. f_equal.
    apply IH; [simpl; lia|done].
  - destruct (c =? 13) eqn:Hcr; cbn [andb].
    + apply N.eqb_eq in Hcr as ->.
      destruct s as [|d s]; cbn [starts_lf].
      * simpl. done.
      * destruct (d =? 10) eqn:Hd.
        -- replace (Nat.eqb (S (S i)) i) with false by (symmetry; apply Nat.eqb_neq; lia).
           replace (S (S i) - i - 1)%nat with 1%nat by lia.
           cbn [split_go lines_go]. rewrite Hd, strip_cr_snoc. f_equal.
           apply IH; [simpl; lia|done].
        -- apply IH; [simpl; lia|]. cbn [starts_lf]. rewrite Hd. apply andb_false_r.
    + apply IH; [simpl; lia|]. by rewrite ends_cr_snoc, Hcr.
Qed.

(** The lines of a text. *)
Lemma split_newline text : split re_newline text = lines_go [] text.
Proof. destruct text as [|c s]; [done|]. by apply split_go_newline. Qed.

(** The two splits without their patterns.  The lines of the sheet are its
    pieces between line feeds, each piece before a line feed without one
    carriage return at its end, and the blank ones are dropped; the parts of
    a name are its pieces between maximal runs of white space. *)
Theorem splits_without_patterns :
  (forall text,
     sheet_lines text =
     List.filter (fun l => nonempty (trim l)) (lines_go [] text)) /\
  (forall fullName, split re_spaces fullName = split_runs is_ws false [] fullName).
Proof.
  split.
  - intros text. unfold sheet_lines. by rewrite split_newline.
  - apply split_spaces.
Qed.

Lemma forallb_removelast (q : N -> bool) s :
  forallb q s = true -> forallb q (removelast s) = true.
Proof.
  induction s as [|c s IH]; [done|]. cbn [forallb removelast].
  intros [Hc Hs]%andb_prop. destruct s; [done|]. cbn [forallb]. by rewrite Hc, IH.
Qed.

Lemma forallb_drop_while (q p : N -> bool) s :
  forallb q s = true -> forallb q (drop_while p s) = true.
Proof.
  induction s as [|c s IH]; [done|]. cbn [forallb drop_while].
  intros H. destruct (p c); [|done]. apply andb_prop in H as [_ H]. auto.
Qed.

Lemma forallb_rev (q : N -> bool) s : forallb q (rev s) = forallb q s.
Proof.
  induction s as [|c s IH]; [done|]. cbn [rev forallb].
  rewrite forallb_app, IH. cbn [forallb]. rewrite andb_true_r. apply andb_comm.
Qed.

Lemma forallb_trim (q : N -> bool) s : forallb q s = true -> forallb q (trim s) = true.
Proof.
  intros H. unfold trim, trimEnd, trimStart.
  rewrite forallb_rev. apply forallb_drop_while. rewrite forallb_rev.
  by apply forallb_drop_while.
Qed.

Lemma forallb_snoc (q : N -> bool) s c : forallb q (s ++ [c]) = forallb q s && q c.
Proof. rewrite forallb_app. cbn [forallb]. by rewrite andb_true_r. Qed.

Lemma lines_go_chars (q : N -> bool) s : forall cur,
  forallb q cur = true -> forallb q s = true ->
  Forall (fun l => forallb q l = true) (lines_go cur s).
Proof.
  induction s as [|c s IH]; intros cur Hcur Hs; cbn [lines_go].
  - by repeat constructor.
  - cbn [forallb] in Hs. apply andb_prop in Hs as [Hc Hs].
    destruct (c =? 10).
    + constructor; [|by apply IH]. unfold strip_cr.
      destruct (ends_cr cur); [by apply forallb_removelast|done].
    + apply IH; [|done]. by rewrite forallb_snoc, Hcur, Hc.
Qed.

Lemma lines_go_no_lf s : forall cur,
  forallb (fun c => negb (c =? 10)) cur = true ->
  Forall (fun l => forallb (fun c => negb (c =? 10)) l = true) (lines_go cur s).
Proof.
  induction s as [|c s IH]; intros cur Hcur; cbn [lines_go].
  - by repeat constructor.
  - destruct (c =? 10) eqn:Hc.
    + constructor; [|by apply IH]. unfold strip_cr.
      destruct (ends_cr cur); [by apply forallb_removelast|done].
    + apply IH. by rewrite forallb_snoc, Hcur, Hc.
Qed.

Lemma split_on_go_chars (q : N -> bool) sep s : forall cur,
  forallb q cur = true -> forallb q s = true ->
  Forall (fun l => forallb q l = true) (split_on_go sep cur s).
Proof.
  induction s as [|c s IH]; intros cur Hcur Hs; cbn [split_on_go].
  - by repeat constructor.
  - cbn [forallb] in Hs. apply andb_prop in Hs as [Hc Hs].
    destruct (c =? sep).
    + constructor; [done|by apply IH].
    + apply IH; [|done]. by rewrite forallb_snoc, Hcur, Hc.
Qed.

Lemma split_on_go_no_sep sep s : forall cur,
  forallb (fun c => negb (c =? sep)) cur = true ->
  Forall (fun l => forallb (fun c => negb (c =? sep)) l = true) (split_on_go sep cur s).
Proof.
  induction s as [|c s IH]; intros cur Hcur; cbn [split_on_go].
  - by repeat constructor.
  - destruct (c =? sep) eqn:Hc.
    + constructor; [done|by apply IH].
    + apply IH. by rewrite forallb_snoc, Hcur, Hc.
Qed.

Lemma Forall_nth_default {X} (P : X -> Prop) l i d : P d -> Forall P l -> P (nth i l d).
Proof.
  intros Hd Hl. revert i. induction Hl as [|x l Hx _ IH]; intros [|i]; simpl; auto.
Qed.

Lemma elem_of_tail {X} (x : X) l : x ∈ tail l -> x ∈ l.
Proof. destruct l; [done|]. simpl. intros ?. apply elem_of_cons. by right. Qed.

(** The second cell of a row of the sheet, trimmed. *)
Lemma cell_chars (q : N -> bool) row :
  forallb q row = true ->
  forallb q (trim (nth 1 (split_on 44 row) [])) = true.
Proof.
  intros Hrow. apply forallb_trim.
  apply (Forall_nth_default (fun l => forallb q l = true)); [done|].
  by apply split_on_go_chars.
Qed.

Lemma cell_no_comma row :
  forallb (fun c => negb (c =? 44)) (trim (nth 1 (split_on 44 row) [])) = true.
Proof.
  apply forallb_trim.
  apply (Forall_nth_default (fun l => forallb (fun c => negb (c =? 44)) l = true)); [done|].
  by apply split_on_go_no_sep.
Qed.

Section RosterShape.
Context `{RT : Runtime}.

Lemma sheet_row_chars (q : N -> bool) text row :
  row ∈ tail (sheet_lines text) ->
  forallb (fun c => negb (c =? 10)) row = true /\
  (forallb q text = true -> forallb q row = true).
Proof.
  intros Hrow%elem_of_tail. unfold sheet_lines in Hrow.
  apply list_elem_of_In, filter_In in Hrow as [Hrow%list_elem_of_In _].
  rewrite split_newline in Hrow. split.
  - pose proof (lines_go_no_lf text [] eq_refl) as H. rewrite Forall_forall in H. auto.
  - intros Hq. pose proof (lines_go_chars q text [] eq_refl Hq) as H.
    rewrite Forall_forall in H. auto.
Qed.

(** The piece of the sheet behind an entry of the roster. *)
Lemma roster_entry text n :
  n ∈ parse_sheet text ->
  exists raw,
    n = toLowerCase raw /\
    raw <> [] /\
    trim raw = raw /\
    forallb plain raw = true /\
    forall q : N -> bool, forallb q text = true -> forallb q raw = true.
Proof.
  unfold parse_sheet. rewrite fold_add_row.
  intros [?%elem_of_empty|(row & Hrow & Hne & ->)]; [done|].
  exists (trim (nth 1 (split_on 44 row) [])).
  split; [done|]. split; [done|]. split; [apply trim_idem|].
  destruct (sheet_row_chars (fun _ => true) text row Hrow) as [Hlf _].
  split.
  - pose proof (cell_no_comma row) as H1.
    pose proof (cell_chars _ row Hlf) as H2.
    apply forallb_forall. intros c Hc. unfold plain.
    rewrite forallb_forall in H1, H2. by rewrite (H1 c Hc), (H2 c Hc).
  - intros q Hq. apply cell_chars.
    by apply (sheet_row_chars q text row Hrow).
Qed.

(** What the roster can hold.  Every entry is the lower-case form of a
    piece of the sheet that is not empty, has no white space at either end,
    and holds neither a comma nor a line feed; and whatever holds of every
    code unit of the sheet holds of every code unit of that piece. *)
Theorem roster_entries_shape text n :
  n ∈ parse_sheet text ->
  exists raw,
    n = toLowerCase raw /\
    raw <> [] /\
    trim raw = raw /\
    forallb plain raw = true /\
    forall q : N -> bool, forallb q text = true -> forallb q raw = true.
Proof. apply roster_entry. Qed.

End RosterShape.

Lemma ascii_lower_plain c : plain (ascii_lower c) = plain c.
Proof.
  unfold ascii_lower, is_upper, between, plain.
  destruct (N.leb_spec 65 c); destruct (N.leb_spec c 90); cbn [andb]; try done.
  destruct (N.eqb_spec (c + 32) 44), (N.eqb_spec (c + 32) 10),
    (N.eqb_spec c 44), (N.eqb_spec c 10); cbn [negb andb]; lia || done.
Qed.

Lemma forallb_plain_lower s : forallb plain (List.map ascii_lower s) = forallb plain s.
Proof. induction s as [|c s IH]; [done|]. cbn [List.map forallb]. by rewrite ascii_lower_plain, IH. Qed.

Section Comma.
Context `{RT : Runtime}.

(** The sheet is read without the quoting of CSV, so a name that holds a
    comma or a line feed is on no roster: with a sheet and a name in ASCII,
    no delivery answers such a name with the duplicate notice. *)
Theorem name_with_comma_is_never_a_duplicate cfg msg fs w :
  match sheet w with Body text => forallb is_ascii text = true | _ => True end ->
  forallb is_ascii (extract_name msg) = true ->
  forallb plain (extract_name msg) = false ->
  existsb is_duplicate_notice (snd (deliver cfg msg fs w)) = false.
Proof.
  intros Hsheet Hascii Hplain. apply existsb_false_Forall, Forall_forall.
  intros [] Hev; try done. destruct r as [n|]; [|done]. exfalso.
  unfold deliver in Hev. cbn [snd] in Hev.
  apply duplicate_notice_only_if_listed in Hev as [-> Hin].
  destruct (sheet w) as [| | |text]; cbn [roster_of] in Hin;
    try (by apply elem_of_empty in Hin).
  apply roster_entry in Hin as (raw & Hlow & _ & _ & Hraw & Hchars).
  rewrite !toLowerCase_ascii in Hlow by auto.
  rewrite <- forallb_plain_lower, Hlow, forallb_plain_lower in Hplain. congruence.
Qed.

End Comma.

(** ** The roster read off the text *)



Section Rows.
Context `{RT : Runtime}.



End Rows.

(** ** More on slugs *)

Lemma alnum_hyphen : alnum hyphen = false.
Proof. reflexivity. Qed.

Lemma existsb_alnum_hyphenate b t : existsb alnum (hyphenate b t) = existsb alnum t.
Proof.
  revert b. induction t as [|c t IH]; intros b; [done|]. cbn [hyphenate existsb].
  destruct (alnum c) eqn:Hc; cbn [existsb orb].
  - by rewrite Hc.
  - destruct b; cbn [existsb]; rewrite ?alnum_hyphen; apply IH.
Qed.

Lemma existsb_alnum_strip_last u : existsb alnum (strip_last u) = existsb alnum u.
Proof.
  induction u as [|c u IH]; [done|]. destruct u as [|d u].
  - cbn [strip_last existsb]. destruct (N.eqb_spec c hyphen) as [->|?]; [|done].
    by rewrite alnum_hyphen.
  - rewrite strip_last_cons. cbn [existsb] in *. by rewrite IH.
Qed.

Lemma existsb_alnum_strip_edges t : existsb alnum (strip_edges t) = existsb alnum t.
Proof.
  destruct t as [|c t]; [done|]. rewrite strip_edges_cons. cbn [existsb].
  destruct (N.eqb_spec c hyphen) as [->|?]; cbn [existsb];
    rewrite existsb_alnum_strip_last; [by rewrite alnum_hyphen|done].
Qed.

Lemma ascii_not_combining s :
  forallb is_ascii s = true -> List.filter (fun c => negb (between 768 879 c)) s = s.
Proof.
  induction s as [|c s IH]; [done|]. cbn [forallb List.filter].
  intros [Hc Hs]%andb_prop. rewrite (IH Hs).
  replace (between 768 879 c) with false; [done|].
  symmetry. unfold between. apply andb_false_iff. left.
  unfold is_ascii in Hc. apply N.ltb_lt in Hc. apply N.leb_gt. lia.
Qed.

Lemma alnum_ascii_lower c : alnum (ascii_lower c) = is_alnum c.
Proof.
  unfold alnum, is_alnum, ascii_lower, is_lower, is_upper, is_digit, between.
  destruct (N.leb_spec 65 c), (N.leb_spec c 90); cbn [andb orb];
    repeat match goal with
           | |- context [?a <=? ?b] => destruct (N.leb_spec a b)
           end; cbn [andb orb]; try done; lia.
Qed.

Lemma existsb_alnum_lower s : existsb alnum (List.map ascii_lower s) = existsb is_alnum s.
Proof. induction s as [|c s IH]; [done|]. cbn [List.map existsb]. by rewrite alnum_ascii_lower, IH. Qed.

Section SlugMore.
Context `{RT : Runtime}.

(** [slugify] without patterns: the text normalised, the combining marks
    dropped, the rest lower-cased, every run of code units outside [a-z0-9]
    turned into one hyphen, a hyphen at the start and one at the end removed,
    and the result cut to 90 code units. *)
Theorem slugify_without_patterns text :
  slugify text =
  take 90 (strip_edges (hyphenate false (toLowerCase
    (List.filter (fun c => negb (between 768 879 c)) (normalizeNFKD text))))).
Proof. apply slugify_eq. Qed.

(** The slug is empty, and the channel is called [oc-], exactly when the
    text, normalised and lower-cased, holds no code unit in [a-z0-9]; for an
    ASCII text, exactly when it holds no letter and no digit. *)
Theorem slug_empty_iff text :
  (slugify text = [] <->
   existsb alnum (toLowerCase
     (List.filter (fun c => negb (between 768 879 c)) (normalizeNFKD text))) = false) /\
  (forallb is_ascii text = true ->
   (slugify text = [] <-> existsb is_alnum text = false)).
Proof.
  assert (slugify text = [] <->
    existsb alnum (toLowerCase
      (List.filter (fun c => negb (between 768 879 c)) (normalizeNFKD text))) = false) as H.
  { rewrite slugify_eq. set (t := toLowerCase _).
    rewrite <- (existsb_alnum_hyphenate false t), <- existsb_alnum_strip_edges.
    pose proof (hyphenate_chars false t) as Hc.
    pose proof (hyphenate_no_double false t) as Hn.
    apply (strip_edges_chars slug_char) in Hc. apply strip_edges_start in Hn.
    destruct (strip_edges (hyphenate false t)) as [|c l]; [done|].
    split; [done|]. cbn [existsb forallb starts_with_hyphen] in *.
    intros [Ha _]%orb_false_iff. apply andb_prop in Hc as [Hc _].
    unfold slug_char in Hc. rewrite Ha, Hn in Hc. done. }
  split; [exact H|]. intros Hascii. rewrite H.
  rewrite normalizeNFKD_ascii, ascii_not_combining, toLowerCase_ascii by done.
  by rewrite existsb_alnum_lower.
Qed.

Lemma provision_new_channel cfg g msg n parts w fs tr :
  wp (provision cfg g msg n parts)
     (fun _ st' => forall ev, for_new_channel ev = true -> ev ∈ trace st' ->
        ev ∈ tr \/ find_channel (lit "oc-" ++ slugify n) w = None)
     {| world := w; faults := fs; trace := tr |}.
Proof.
  unfold provision, guilds_fetch, roles_create, channels_create, send, roles_add.
  unfold find_channel.
  repeat (wp_step; cbn [channels with_roles] in * ).
  all: intros ev Hev Hin.
  all: first
    [ by right
    | left; repeat (apply elem_of_snoc_ne in Hin; [|by intros ->]); exact Hin ].
Qed.

(** Names with the same slug share one channel.  Once a submission has
    been delivered with no platform call rejected, a later submission whose
    name has the same slug makes no channel, whatever its name is otherwise
    and whatever calls are rejected: the channels are as they were, and
    neither a welcome nor a copy of an embed is sent. *)
Theorem same_slug_shares_channel cfg msg1 msg2 g fs2 w :
  in_scope cfg msg1 g ->
  (2 <= length (split re_spaces (extract_name msg1)))%nat ->
  toLowerCase (extract_name msg1) ∉ roster_of (sheet w) ->
  slugify (extract_name msg2) = slugify (extract_name msg1) ->
  let w1 := fst (deliver cfg msg1 [] w) in
  channels (fst (deliver cfg msg2 fs2 w1)) = channels w1 /\
  existsb for_new_channel (snd (deliver cfg msg2 fs2 w1)) = false.
Proof.
  intros Hs Hlen Hnot Hslug w1.
  destruct (calm_delivery_resolves cfg msg1 g w Hs Hlen Hnot) as [_ [c1 Hc1]].
  fold w1 in Hc1. rewrite <- Hslug in Hc1. split.
  - destruct (handler_at_most_one cfg msg2 fs2 w1) as [_ [E|(Hno & _)]]; [done|].
    congruence.
  - apply existsb_false_Forall, Forall_forall. intros ev Hin.
    destruct (for_new_channel ev) eqn:Hev; [|done]. exfalso.
    unfold deliver in Hin. cbn [snd] in Hin.
    destruct (handler_trace cfg msg2 {| world := w1; faults := fs2; trace := [] |})
      as (tl & Etr & Htl). rewrite Etr in Hin. clear Etr.
    apply elem_of_app in Hin as [Hin|Hin].
    2:{ rewrite Forall_forall in Htl. apply Htl in Hin. by destruct ev. }
    revert Hin.
    destruct (handler_body_cases cfg msg2) as [Hout | (g2 & Hs2 & Hn2)].
    { rewrite Hout. simpl. by intros ?%elem_of_nil. }
    rewrite (handler_body_in_scope _ _ _ _ Hs2 Hn2). cbn zeta. cbn [world faults trace app].
    assert (ev ∉ Fetched :: warning_of (sheet w1)) as Hpre.
    { rewrite elem_of_cons. intros [->|H]; [done|].
      destruct (sheet w1); simpl in H; rewrite ?list_elem_of_singleton in H;
        subst; try done. by apply elem_of_nil in H. }
    destruct (bool_decide _); [|destruct (_ <? _)%nat].
    + unfold reply, call; cbn [world faults trace].
      destruct fs2 as [|[] fs2]; cbn [snd trace]; rewrite ?elem_of_app, ?list_elem_of_singleton;
        intros ?; destruct_or?; subst; done.
    + unfold reply, call; cbn [world faults trace].
      destruct fs2 as [|[] fs2]; cbn [snd trace]; rewrite ?elem_of_app, ?list_elem_of_singleton;
        intros ?; destruct_or?; subst; done.
    + match goal with |- context [provision ?a ?b ?c ?d ?e ?s] =>
        pose proof (provision_new_channel a b c d e (world s) (faults s) (trace s)) as Hp end.
      unfold wp in Hp. cbn [world faults trace] in Hp.
      intros Hin. destruct (Hp ev Hev Hin) as [?|Hno]; [done|].
      unfold find_channel in *. cbn [channels with_names] in Hno. congruence.
Qed.

End SlugMore.

(** ** The embed title without the pattern *)

Lemma filter_dot_none w : List.filter dot w = [] -> take_while dot w = [].
Proof. destruct w as [|c w]; [done|]. simpl. by destruct (dot c). Qed.

(** The second run of white space gives back code units until the group
    can start. *)
Lemma star_ws_then_group w : forall i cap,
  forallb is_ws w = true ->
  option_map snd
    (star ws i w cap (fun i' s' cap' => run (Group (Plus dot)) i' s' cap' ending)) =
  match last (List.filter dot w) with
  | Some c => Some (Some [c])
  | None => None
  end.
Proof.
  induction w as [|c w IH]; intros i cap Hw; [done|].
  cbn [forallb] in Hw. apply andb_prop in Hw as [Hc Hw].
  cbn [star]. unfold ws at 1. rewrite Hc.
  specialize (IH (S i) cap Hw).
  destruct (star ws (S i) w cap _) as [[e g]|] eqn:E; cbn [option_map snd] in IH.
  - cbn [option_map snd List.filter].
    destruct (last (List.filter dot w)) as [d|] eqn:El; [|done].
    destruct (dot c); [|by rewrite El].
    destruct (List.filter dot w) as [|x l] eqn:Ef; [done|]. cbn [last] in *. by rewrite El.
  - cbn [run List.filter].
    destruct (last (List.filter dot w)) as [d|] eqn:El; [done|].
    assert (List.filter dot w = []) as Ef.
    { destruct (List.filter dot w) as [|x l] using rev_ind; [done|].
      by rewrite last_snoc in El. }
    destruct (dot c); [|by rewrite Ef].
    rewrite Ef. cbn [last].
    pose proof (star_total dot (S i) w cap) as Ht. fold ending in Ht.
    rewrite (filter_dot_none w Ef) in Ht. cbn [length] in Ht.
    assert (forall (k : @cont (nat * option str)),
              star dot (S i) w cap k = k (S i) w cap) as Hstar.
    { intros k. apply star_stop. destruct w as [|x w']; [done|].
      simpl in Ef |- *. by destruct (dot x). }
    rewrite Hstar. unfold ending. cbn [option_map snd].
    replace (S i - i)%nat with 1%nat by lia. done.
Qed.

Lemma drop_while_nil_forallb p (s : str) : drop_while p s = [] -> forallb p s = true.
Proof.
  induction s as [|c s IH]; [done|]. simpl. destruct (p c) eqn:E; [|done]. auto.
Qed.

Lemma drop_in_run p (w : str) j :
  forallb p w = true -> (j < length w)%nat ->
  exists c t, drop j w = c :: t /\ p c = true.
Proof.
  intros Hall Hlt. destruct (lookup_lt_is_Some_2 _ _ Hlt) as [c Hc].
  exists c, (drop (S j) w). split; [by apply drop_S|].
  rewrite forallb_forall in Hall. apply Hall, list_elem_of_In.
  by eapply list_elem_of_lookup_2.
Qed.

(** The tail of the title pattern, in every case. *)
Lemma run_re_tail_title i s cap :
  option_map snd (run (re_tail false) i s cap ending) =
  match drop_while is_ws s with
  | c :: rem =>
      if c =? 58 then
        match drop_while is_ws rem with
        | x :: r => Some (Some (take_while dot (x :: r)))
        | [] =>
            match last (List.filter dot rem) with
            | Some d => Some (Some [d])
            | None => None
            end
        end
      else None
  | [] => None
  end.
Proof.
  destruct (drop_while is_ws s) as [|c rem] eqn:Hs.
  - (* no colon at all *)
    replace (run (re_tail false) i s cap ending) with (@None (nat * option str)); [done|].
    symmetry. cbn [run re_tail]. rewrite <- (take_drop_while is_ws s), Hs, app_nil_r.
    rewrite <- (app_nil_r (take_while is_ws s)).
    apply star_none; [apply take_while_all|done|].
    intros j Hj. rewrite app_nil_r.
    destruct (decide (j < length (take_while is_ws s))%nat) as [Hlt|Hge].
    + destruct (drop_in_run is_ws _ j (take_while_all _ _) Hlt) as (d & t & -> & Hd).
      by rewrite (ws_not_colon _ Hd).
    + by rewrite drop_ge by lia.
  - destruct (c =? 58) eqn:Hc.
    + apply N.eqb_eq in Hc as ->.
      destruct (drop_while is_ws rem) as [|x r'] eqn:Hr.
      * (* white space to the end *)
        pose proof (drop_while_nil_forallb _ _ Hr) as Hall.
        pose proof (star_ws_then_group rem
                      (S (i + length (take_while is_ws s))) cap Hall) as Hback.
        cbn [run re_tail]. rewrite <- (take_drop_while is_ws s), Hs.
        destruct (star ws (S (i + length (take_while is_ws s))) rem cap _)
          as [res|] eqn:E; cbn [option_map] in Hback.
        -- rewrite <- Hback.
           erewrite star_greedy; [reflexivity|apply take_while_all|done|].
           cbn [colon only N.eqb Pos.eqb]. exact E.
        -- rewrite <- Hback.
           replace (star ws i (take_while is_ws s ++ 58 :: rem) cap _)
             with (@None (nat * option str)); [done|].
           symmetry. apply star_none; [apply take_while_all|done|].
           intros j Hj.
           destruct (decide (j < length (take_while is_ws s))%nat) as [Hlt|Hge].
           ++ destruct (drop_in_run is_ws _ j (take_while_all _ _) Hlt)
                as (d & t & -> & Hd).
              cbn [app]. by rewrite (ws_not_colon _ Hd).
           ++ rewrite drop_ge by lia. cbn [app colon only N.eqb Pos.eqb].
              replace j with (length (take_while is_ws s)) by lia. exact E.
      * pose proof (run_re_tail_match false i s rem cap ending) as H.
        cbn zeta in H. rewrite Hr in H.
        erewrite H; [|done|done|exact I|reflexivity]. done.
    + replace (run (re_tail false) i s cap ending) with (@None (nat * option str)); [done|].
      symmetry. cbn [run re_tail]. rewrite <- (take_drop_while is_ws s), Hs.
      apply star_none; [apply take_while_all| |].
      { pose proof (drop_while_stops is_ws s) as H. by rewrite Hs in H. }
      intros j Hj.
      destruct (decide (j < length (take_while is_ws s))%nat) as [Hlt|Hge].
      * destruct (drop_in_run is_ws _ j (take_while_all _ _) Hlt) as (d & t & -> & Hd).
        cbn [app]. by rewrite (ws_not_colon _ Hd).
      * rewrite drop_ge by lia. cbn [app]. unfold colon, only. by rewrite Hc.
Qed.

Lemma match_at_title i s :
  option_map snd (match_at re_embed_title i s) = option_map Some (title_attempt s).
Proof.
  unfold match_at. fold ending. rewrite run_re_embed_title, run_re_word.
  unfold title_attempt, has_prefix, after_prefix.
  destruct (starts_ci word_oc s); [|done]. cbn [andb].
  rewrite run_re_tail_title.
  destruct (drop_while is_ws (drop (length word_oc) s)) as [|c rem]; [done|].
  destruct (c =? 58); [|done]. cbn [tail].
  destruct (drop_while is_ws rem); [|done].
  by destruct (last (List.filter dot rem)).
Qed.

(** The search of the title pattern, written out. *)
Lemma match1_title title : match1 re_embed_title title = title_search title.
Proof.
  unfold match1. generalize 0%nat.
  induction title as [|c title IH]; intros i.
  - rewrite search_unfold. pose proof (match_at_title i []) as H.
    cbn [title_search]. destruct (match_at re_embed_title i []) as [[e g]|];
      destruct (title_attempt []); cbn [option_map snd] in H; by simplify_eq.
  - rewrite search_unfold. pose proof (match_at_title i (c :: title)) as H.
    cbn [title_search]. destruct (match_at re_embed_title i (c :: title)) as [[e g]|];
      destruct (title_attempt (c :: title)); cbn [option_map snd] in H; simplify_eq;
      [done|apply IH].
Qed.

(** The name read from an embed title, without the pattern.  The title is
    searched from left to right for [oc], in either case, followed by
    optional white space and a colon; at the first place where something that
    is not white space follows, the name is what follows up to the end of
    the line, trimmed; and when no place yields a name that is not blank, the
    name is parsed from the text. *)
Theorem embed_title_without_patterns :
  (forall title, match1 re_embed_title title = title_search title) /\
  (forall msg, extract_name msg = extract_name_by_search msg).
Proof.
  split; [exact match1_title|].
  intros msg. unfold extract_name, extract_name_by_search, embed_name.
  destruct (embeds msg) as [|e es]; [done|].
  destruct (embed_title e) as [title|]; [|done].
  rewrite match1_title. destruct title as [|c title]; [done|]. cbn [nonempty].
  by destruct (title_search (c :: title)).
Qed.

(** ** The new character *)

Section NewCharacter.
Context `{RT : Runtime}.

Ltac unfold_provision :=
  unfold provision, guilds_fetch, roles_create, channels_create, send, roles_add.

Lemma provision_new_character cfg g msg n parts w tr who :
  member msg = Some who ->
  find_role (nth 0 parts []) w = None ->
  find_channel (lit "oc-" ++ slugify n) w = None ->
  (who, next_id w) ∉ member_roles w ->
  let role := new_role (nth 0 parts []) w in
  let c := new_channel cfg g (lit "oc-" ++ slugify n) w in
  wp (provision cfg g msg n parts)
     (fun r st' =>
        r = Ok tt /\
        roles (world st') = roles w ++ [role] /\
        channels (world st') = channels w ++ [c] /\
        member_roles (world st') = {[ (who, next_id w) ]} ∪ member_roles w /\
        next_id (world st') = next_id w + 2 /\
        exists rest,
          trace st' =
            tr ++ [GuildFetched; RoleCreated role; ChannelCreated c;
                   Sent (next_id w + 1) (Welcome n)] ++
            match embeds msg with
            | e :: _ => [Sent (next_id w + 1) (EmbedCopy (embed_data e))]
            | [] => []
            end ++
            [RoleAdded who (next_id w)] ++ rest /\
          forallb is_audit rest = true /\ (length rest <= 1)%nat)
     {| world := w; faults := []; trace := tr |}.
Proof.
  intros Hm Hr Hc Hnew. cbn zeta. unfold_provision. rewrite Hm.
  unfold find_channel, find_role in *.
  repeat (wp_step; cbn [tail channels roles member_roles with_roles with_channels
                        with_member_roles role_id next_id];
          try match goal with
              | H : Some _ = None |- _ => discriminate H
              | H : [] = _ :: _ |- _ => discriminate H
              | H : bool_decide (_ ∈ _) = true |- _ =>
                  exfalso; apply bool_decide_eq_true in H; exact (Hnew H)
              end).
  all: unfold new_channel, new_role, build_overwrites, overwrites_shape,
         view_only, member_allow, staff_allow.
  all: cbn [channel_id role_id].
  all: replace (next_id w + 1 + 1) with (next_id w + 2) by lia.
  all: repeat split; try done.
  all: rewrite <- ?app_assoc; cbn [app].
  all: first [ exists []; split; [reflexivity|split; [reflexivity|simpl; lia]]
             | eexists [_]; split; [reflexivity|split; [reflexivity|simpl; lia]] ].
Qed.

(** The new character.  An in-scope message with a member, whose name
    passes both checks and has neither a role nor a channel yet, is delivered
    with no platform call rejected.  Then, in this order: the guild is
    fetched; the role is created under the first name; the text channel
    [oc-] and the slug is created under the category with the overwrites for
    that role; the welcome is sent there, and the copy of the first embed if
    there is one; the role is given to the member; and nothing follows but
    the audit message, if any.  Afterwards the guild has this one role and
    this one channel more, the member holds the role, and two identifiers
    have been used. *)
Theorem new_character_is_provisioned cfg msg g w who :
  in_scope cfg msg g ->
  let fullName := extract_name msg in
  let parts := split re_spaces fullName in
  (2 <= length parts)%nat ->
  toLowerCase fullName ∉ roster_of (sheet w) ->
  member msg = Some who ->
  find_role (nth 0 parts []) w = None ->
  find_channel (lit "oc-" ++ slugify fullName) w = None ->
  (who, next_id w) ∉ member_roles w ->
  let role := new_role (nth 0 parts []) w in
  let c := new_channel cfg g (lit "oc-" ++ slugify fullName) w in
  let w1 := fst (deliver cfg msg [] w) in
  roles w1 = roles w ++ [role] /\
  channels w1 = channels w ++ [c] /\
  member_roles w1 = {[ (who, next_id w) ]} ∪ member_roles w /\
  next_id w1 = next_id w + 2 /\
  exists rest,
    snd (deliver cfg msg [] w) =
      Fetched :: warning_of (sheet w) ++
      [GuildFetched; RoleCreated role; ChannelCreated c;
       Sent (next_id w + 1) (Welcome fullName)] ++
      match embeds msg with
      | e :: _ => [Sent (next_id w + 1) (EmbedCopy (embed_data e))]
      | [] => []
      end ++
      [RoleAdded who (next_id w)] ++ rest /\
    forallb is_audit rest = true /\ (length rest <= 1)%nat.
Proof.
  intros Hs fullName parts Hlen Hnot Hm Hr Hc Hnew. cbn zeta.
  assert (extract_name msg <> []) as Hn.
  { intros E. unfold parts, fullName in Hlen. rewrite E in Hlen. vm_compute in Hlen. lia. }
  unfold deliver, handler, try_catch. cbn [fst snd].
  rewrite (handler_body_in_scope _ _ _ _ Hs Hn). cbn zeta. cbn [world faults trace app].
  fold fullName parts.
  rewrite bool_decide_eq_false_2 by done.
  replace (length parts <? 2)%nat with false by (symmetry; apply Nat.ltb_ge; lia).
  pose proof (provision_new_character cfg g msg fullName parts
                (with_names w (roster_of (sheet w)))
                (Fetched :: warning_of (sheet w)) who Hm Hr Hc Hnew) as Hp.
  unfold wp in Hp. cbn zeta in Hp.
  destruct (provision cfg g msg fullName parts _) as [r st'].
  cbn [fst snd] in Hp. destruct Hp as (-> & H1 & H2 & H3 & H4 & rest & H5 & H6 & H7).
  cbn [snd world trace]. repeat (split; [done|]).
  exists rest. rewrite H5. rewrite <- app_comm_cons. done.
Qed.

Lemma provision_channel_rejected cfg g msg n parts w tr :
  find_role (nth 0 parts []) w = None ->
  find_channel (lit "oc-" ++ slugify n) w = None ->
  provision cfg g msg n parts {| world := w; faults := [false; false; true]; trace := tr |} =
  (Throw ApiError,
   {| world := with_roles w (roles w ++ [new_role (nth 0 parts []) w]) (next_id w + 1);
      faults := [];
      trace := tr ++ [GuildFetched; RoleCreated (new_role (nth 0 parts []) w)] |}).
Proof.
  intros Hr Hc. unfold_provision. unfold bind, call, get_world, ret.
  cbn [world faults trace tail]. rewrite Hr. cbn [world faults trace tail].
  unfold find_channel in *. cbn [channels with_roles]. rewrite Hc.
  cbn [world faults trace tail]. by rewrite <- app_assoc.
Qed.

(** Nothing is rolled back.  When the guild fetch and the role creation go
    through and the channel creation is rejected, the delivery ends in the
    [catch]: the new role stays in the guild, there is no channel, no
    membership has changed, and the error is logged last, with no reply. *)
Theorem rejected_channel_creation_leaves_the_role cfg msg g w :
  in_scope cfg msg g ->
  let fullName := extract_name msg in
  let parts := split re_spaces fullName in
  (2 <= length parts)%nat ->
  toLowerCase fullName ∉ roster_of (sheet w) ->
  find_role (nth 0 parts []) w = None ->
  find_channel (lit "oc-" ++ slugify fullName) w = None ->
  let role := new_role (nth 0 parts []) w in
  let w1 := fst (deliver cfg msg [false; false; true] w) in
  roles w1 = roles w ++ [role] /\
  channels w1 = channels w /\
  member_roles w1 = member_roles w /\
  snd (deliver cfg msg [false; false; true] w) =
    Fetched :: warning_of (sheet w) ++
    [GuildFetched; RoleCreated role; Errored ApiError].
Proof.
  intros Hs fullName parts Hlen Hnot Hr Hc. cbn zeta.
  assert (extract_name msg <> []) as Hn.
  { intros E. unfold parts, fullName in Hlen. rewrite E in Hlen. vm_compute in Hlen. lia. }
  unfold deliver, handler, try_catch. cbn [fst snd].
  rewrite (handler_body_in_scope _ _ _ _ Hs Hn). cbn zeta. cbn [world faults trace app].
  fold fullName parts.
  rewrite bool_decide_eq_false_2 by done.
  replace (length parts <? 2)%nat with false by (symmetry; apply Nat.ltb_ge; lia).
  rewrite (provision_channel_rejected cfg g msg fullName parts
             (with_names w (roster_of (sheet w))) _ Hr Hc).
  unfold emit. cbn [snd world trace roles channels member_roles with_roles with_names].
  repeat (split; [done|]).
  rewrite <- ?app_comm_cons, <- ?app_assoc. done.
Qed.

End NewCharacter.

(** ** Provisioning twice, in terms of the guild *)

Section Twice.
Context `{RT : Runtime}.

Lemma find_role_None_iff name w :
  find_role name w = None <-> forall r, r ∈ roles w -> ~ answers_to name r.
Proof.
  unfold find_role, answers_to. split.
  - intros H r Hr Ha. apply list_elem_of_In in Hr.
    pose proof (find_none _ _ H r Hr) as Hf. cbn beta in Hf.
    by rewrite bool_decide_eq_true_2 in Hf.
  - intros H. destruct (find _ (roles w)) as [r|] eqn:E; [|done]. exfalso.
    apply find_some in E as [Hr Ha]. apply bool_decide_eq_true in Ha.
    apply (H r); [by apply list_elem_of_In|done].
Qed.

Lemma find_channel_None_iff name w :
  find_channel name w = None <-> forall c, c ∈ channels w -> ~ text_channel_named name c.
Proof.
  unfold find_channel, text_channel_named. split.
  - intros H c Hc [Ht Hn]. apply list_elem_of_In in Hc.
    pose proof (find_none _ _ H c Hc) as Hf. cbn beta in Hf.
    by rewrite !bool_decide_eq_true_2 in Hf.
  - intros H. destruct (find _ (channels w)) as [c|] eqn:E; [|done]. exfalso.
    apply find_some in E as [Hc Ha].
    apply andb_prop in Ha as [Ht%bool_decide_eq_true Hn%bool_decide_eq_true].
    apply (H c); [by apply list_elem_of_In|done].
Qed.

Lemma find_role_Some_iff name w :
  is_Some (find_role name w) <-> exists r, r ∈ roles w /\ answers_to name r.
Proof.
  split.
  - intros [r Hr]. apply find_role_Some in Hr as [? ?]. by exists r.
  - intros (r & Hr & Ha). destruct (find_role name w) eqn:E; [eauto|].
    exfalso. by apply (proj1 (find_role_None_iff name w) E r).
Qed.

Lemma find_channel_Some_iff name w :
  is_Some (find_channel name w) <-> exists c, c ∈ channels w /\ text_channel_named name c.
Proof.
  split.
  - intros [c Hc]. apply find_channel_Some in Hc as (? & ? & ?). by exists c.
  - intros (c & Hc & Ha). destruct (find_channel name w) eqn:E; [eauto|].
    exfalso. by apply (proj1 (find_channel_None_iff name w) E c).
Qed.

(** Provisioning for a character that has its role and its channel, and
    whose member holds the role: nothing changes and nothing is made. *)
Lemma provision_settled cfg g msg n parts w tr role c :
  find_role (nth 0 parts []) w = Some role ->
  find_channel (lit "oc-" ++ slugify n) w = Some c ->
  match member msg with
  | Some who => (who, role_id role) ∈ member_roles w
  | None => True
  end ->
  wp (provision cfg g msg n parts)
     (fun _ st' =>
        world st' = w /\
        forall ev, provisions ev = true -> ev ∈ trace st' -> ev ∈ tr)
     {| world := w; faults := []; trace := tr |}.
Proof.
  intros Hr Hc Hm.
  unfold provision, guilds_fetch, roles_create, channels_create, send, roles_add.
  unfold find_role, find_channel in *.
  repeat (wp_step; cbn [tail];
          try match goal with
              | H : [] = _ :: _ |- _ => discriminate H
              | H : Some _ = None |- _ => discriminate H
              | H : Some _ = Some _ |- _ => injection H as ->
              | H : bool_decide (_ ∈ _) = false |- _ =>
                  exfalso; apply bool_decide_eq_false in H; exact (H Hm)
              end).
  all: split; [done|].
  all: intros ev Hev Hin.
  all: repeat (apply elem_of_snoc_ne in Hin; [|by intros ->]); exact Hin.
Qed.

Lemma created_roles_snoc tr ev :
  created_roles (tr ++ [ev]) =
  created_roles tr ++ match ev with RoleCreated r => [r] | _ => [] end.
Proof. unfold created_roles. rewrite omap_app. by destruct ev. Qed.

Lemma created_channels_snoc tr ev :
  created_channels (tr ++ [ev]) =
  created_channels tr ++ match ev with ChannelCreated c => [c] | _ => [] end.
Proof. unfold created_channels. rewrite omap_app. by destruct ev. Qed.

Lemma provision_calm_created cfg g msg n parts w tr :
  wp (provision cfg g msg n parts)
     (fun _ st' =>
        creates_what_is_missing (nth 0 parts []) (lit "oc-" ++ slugify n) w tr st')
     {| world := w; faults := []; trace := tr |}.
Proof.
  unfold provision, guilds_fetch, roles_create, channels_create, send, roles_add.
  repeat (wp_step; cbn [tail];
          try match goal with H : [] = _ :: _ |- _ => discriminate H end).
  all: unfold creates_what_is_missing, text_channel_named, find_channel, find_role in *;
       cbn [world trace roles channels with_roles with_channels with_member_roles] in *.
  all: repeat match goal with H : find _ _ = _ |- _ => rewrite H end.
  all: rewrite ?created_roles_snoc, ?created_channels_snoc, ?app_nil_r.
  all: split; first [ done | by eexists ].
Qed.

Lemma with_names_id w : with_names w (existingOCNames w) = w.
Proof. by destruct w. Qed.

Lemma created_roles_pre sh : created_roles (Fetched :: warning_of sh) = [].
Proof. by destruct sh. Qed.

Lemma created_channels_pre sh : created_channels (Fetched :: warning_of sh) = [].
Proof. by destruct sh. Qed.

Lemma provisions_pre sh ev : ev ∈ Fetched :: warning_of sh -> provisions ev = false.
Proof.
  intros [->|H]%elem_of_cons; [done|].
  destruct sh; simpl in H; rewrite ?list_elem_of_singleton in H; subst; try done.
  by apply elem_of_nil in H.
Qed.

Lemma nothing_created tr :
  existsb provisions tr = false -> created_roles tr = [] /\ created_channels tr = [].
Proof.
  unfold created_roles, created_channels.
  induction tr as [|ev tr IH]; [done|]. cbn [existsb].
  intros [Hev Htr]%orb_false_iff. destruct (IH Htr) as [E1 E2].
  destruct ev; simpl; rewrite ?E1, ?E2; done.
Qed.

(** The body of the delivery of an accepted name is the provisioning. *)
Lemma accepted_body cfg msg g w :
  in_scope cfg msg g ->
  (2 <= length (split re_spaces (extract_name msg)))%nat ->
  toLowerCase (extract_name msg) ∉ roster_of (sheet w) ->
  handler_body cfg msg {| world := w; faults := []; trace := [] |} =
  provision cfg g msg (extract_name msg) (split re_spaces (extract_name msg))
    {| world := with_names w (roster_of (sheet w)); faults := [];
       trace := Fetched :: warning_of (sheet w) |}.
Proof.
  intros Hs Hlen Hnot.
  assert (extract_name msg <> []) as Hn.
  { intros E. rewrite E in Hlen. vm_compute in Hlen. lia. }
  rewrite (handler_body_in_scope _ _ _ _ Hs Hn). cbn zeta. cbn [world faults trace app].
  rewrite bool_decide_eq_false_2 by done.
  by replace (length (split re_spaces (extract_name msg)) <? 2)%nat with false
    by (symmetry; apply Nat.ltb_ge; lia).
Qed.

Lemma deliver_accepted cfg msg g w :
  in_scope cfg msg g ->
  (2 <= length (split re_spaces (extract_name msg)))%nat ->
  toLowerCase (extract_name msg) ∉ roster_of (sheet w) ->
  let run := provision cfg g msg (extract_name msg) (split re_spaces (extract_name msg))
               {| world := with_names w (roster_of (sheet w)); faults := [];
                  trace := Fetched :: warning_of (sheet w) |} in
  deliver cfg msg [] w =
  (world (snd run),
   trace (snd run) ++ match fst run with Ok _ => [] | Throw e => [Errored e] end).
Proof.
  intros Hs Hlen Hnot. cbn zeta. unfold deliver, handler, try_catch.
  rewrite (accepted_body cfg msg g w Hs Hlen Hnot).
  destruct (provision _ _ _ _ _ _) as [[[]|e] st']; cbn [fst snd]; [|done].
  by rewrite app_nil_r.
Qed.

(** C1.  Deliver the same in-scope message twice, with no platform call
    rejected and the sheet unchanged in between, for a name of at least two
    parts that the sheet does not list.  The first delivery creates a role
    exactly when no role of the guild has the first part as its name once
    both are lower-cased, and then it creates one role, named after the first
    part; it creates a channel exactly when no text channel of the guild has
    the very name [oc-] followed by the slug, and then it creates one text
    channel of that name.  Afterwards the guild has a role that answers to
    the first part and a text channel of that name.  The second delivery
    finds both and reuses them: it leaves the whole world as the first left
    it, it creates nothing, assigns nothing and sends nothing into the
    channel, and the member, if there is one, holds a role that answers to
    the first part.  So the two deliveries together have created one role
    and one channel where there was none, not two. *)
Theorem provision_idempotent cfg msg g w :
  in_scope cfg msg g ->
  let fullName := extract_name msg in
  let parts := split re_spaces fullName in
  (2 <= length parts)%nat ->
  toLowerCase fullName ∉ roster_of (sheet w) ->
  let firstName := nth 0 parts [] in
  let channelName := lit "oc-" ++ slugify fullName in
  let w1 := fst (deliver cfg msg [] w) in
  let tr1 := snd (deliver cfg msg [] w) in
  let w2 := fst (deliver cfg msg [] w1) in
  let tr2 := snd (deliver cfg msg [] w1) in
  ((forall r, r ∈ roles w -> ~ answers_to firstName r) ->
     exists role, roles w1 = roles w ++ [role] /\ role_name role = firstName /\
       created_roles (tr1 ++ tr2) = [role]) /\
  ((exists r, r ∈ roles w /\ answers_to firstName r) ->
     roles w1 = roles w /\ created_roles (tr1 ++ tr2) = []) /\
  ((forall c, c ∈ channels w -> ~ text_channel_named channelName c) ->
     exists c, channels w1 = channels w ++ [c] /\ text_channel_named channelName c /\
       created_channels (tr1 ++ tr2) = [c]) /\
  ((exists c, c ∈ channels w /\ text_channel_named channelName c) ->
     channels w1 = channels w /\ created_channels (tr1 ++ tr2) = []) /\
  (exists role c,
     role ∈ roles w1 /\ answers_to firstName role /\
     c ∈ channels w1 /\ text_channel_named channelName c /\
     forall who, member msg = Some who -> (who, role_id role) ∈ member_roles w2) /\
  w2 = w1 /\
  existsb provisions tr2 = false.
Proof.
  intros Hs fullName parts Hlen Hnot firstName channelName w1 tr1 w2 tr2.
  (* the first delivery *)
  pose proof (deliver_accepted cfg msg g w Hs Hlen Hnot) as E1. cbn zeta in E1.
  fold fullName parts in E1.
  pose proof (provision_calm_created cfg g msg fullName parts
                (with_names w (roster_of (sheet w)))
                (Fetched :: warning_of (sheet w))) as Hc1.
  pose proof (provision_keeps_roster cfg g msg fullName parts
                {| world := with_names w (roster_of (sheet w)); faults := [];
                   trace := Fetched :: warning_of (sheet w) |}) as Hk1.
  unfold wp, keeps in Hc1, Hk1.
  destruct (provision cfg g msg fullName parts _) as [r1 st1] eqn:Erun1.
  cbn [fst snd world sheet existingOCNames with_names] in *.
  assert (w1 = world st1) as Ew1 by (unfold w1; by rewrite E1).
  assert (tr1 = trace st1 ++ match r1 with Ok _ => [] | Throw e => [Errored e] end)
    as Etr1 by (unfold tr1; by rewrite E1).
  injection Hk1 as Hsheet1 Hnames1. rewrite <- Ew1 in Hsheet1, Hnames1.
  assert (created_roles tr1 = created_roles (trace st1)) as Ecr1.
  { rewrite Etr1. unfold created_roles. rewrite omap_app. destruct r1; simpl;
      by rewrite app_nil_r. }
  assert (created_channels tr1 = created_channels (trace st1)) as Ecc1.
  { rewrite Etr1. unfold created_channels. rewrite omap_app. destruct r1; simpl;
      by rewrite app_nil_r. }
  unfold creates_what_is_missing in Hc1.
  change (find_role (nth 0 parts []) (with_names w (roster_of (sheet w))))
    with (find_role firstName w) in Hc1.
  change (find_channel (lit "oc-" ++ slugify fullName) (with_names w (roster_of (sheet w))))
    with (find_channel channelName w) in Hc1.
  cbn [roles channels with_names] in Hc1.
  rewrite created_roles_pre, created_channels_pre in Hc1. cbn [app] in Hc1.
  rewrite <- Ew1, <- Ecr1, <- Ecc1 in Hc1. destruct Hc1 as [Hroles Hchans].
  (* what the first delivery leaves *)
  destruct (calm_delivery_resolves cfg msg g w Hs Hlen Hnot) as [[role Hrole] [c Hchan]].
  fold fullName parts firstName channelName w1 in Hrole, Hchan.
  assert (forall who, member msg = Some who -> (who, role_id role) ∈ member_roles w1)
    as Hheld.
  { intros who Hm.
    destruct (calm_member_delivery cfg msg g w who Hs Hlen Hnot Hm)
      as (role' & Hrole' & Hin & _).
    fold fullName parts firstName w1 in Hrole', Hin. congruence. }
  (* the second delivery *)
  assert (toLowerCase fullName ∉ roster_of (sheet w1)) as Hnot1 by (by rewrite Hsheet1).
  pose proof (deliver_accepted cfg msg g w1 Hs Hlen Hnot1) as E2. cbn zeta in E2.
  fold fullName parts in E2.
  rewrite Hsheet1, <- Hnames1, with_names_id in E2.
  pose proof (provision_settled cfg g msg fullName parts w1
                (Fetched :: warning_of (sheet w)) role c Hrole Hchan) as Hp2.
  assert (match member msg with
          | Some who => (who, role_id role) ∈ member_roles w1
          | None => True
          end) as Hm2 by (destruct (member msg); auto).
  specialize (Hp2 Hm2). unfold wp in Hp2.
  destruct (provision cfg g msg fullName parts
              {| world := w1; faults := []; trace := Fetched :: warning_of (sheet w) |})
    as [r2 st2] eqn:Erun2. cbn [fst snd] in *. destruct Hp2 as [Hw2 Hev2].
  assert (w2 = w1) as Ew2 by (unfold w2; by rewrite E2).
  assert (existsb provisions tr2 = false) as Hnone2.
  { unfold tr2. rewrite E2. cbn [snd]. apply existsb_false_Forall, Forall_forall.
    intros ev Hin. destruct (provisions ev) eqn:Hev; [|done]. exfalso.
    apply elem_of_app in Hin as [Hin|Hin].
    - apply (Hev2 ev Hev), provisions_pre in Hin. congruence.
    - destruct r2; [by apply elem_of_nil in Hin|].
      apply list_elem_of_singleton in Hin. by subst. }
  destruct (nothing_created tr2 Hnone2) as [Ecr2 Ecc2].
  assert (forall tr tr', created_roles (tr ++ tr') = created_roles tr ++ created_roles tr')
    as Hcr_app by (intros; apply omap_app).
  assert (forall tr tr',
            created_channels (tr ++ tr') = created_channels tr ++ created_channels tr')
    as Hcc_app by (intros; apply omap_app).
  rewrite Hcr_app, Hcc_app, Ecr2, Ecc2, !app_nil_r.
  split; [|split; [|split; [|split; [|split; [|split]]]]].
  - intros Hno%find_role_None_iff. rewrite Hno in Hroles. exact Hroles.
  - intros [r0 Hr0]%find_role_Some_iff. rewrite Hr0 in Hroles. exact Hroles.
  - intros Hno%find_channel_None_iff. rewrite Hno in Hchans. exact Hchans.
  - intros [c0 Hc0]%find_channel_Some_iff. rewrite Hc0 in Hchans. exact Hchans.
  - apply find_role_Some in Hrole as [Hr_in Hr_a].
    apply find_channel_Some in Hchan as (Hc_in & Hc_t & Hc_n).
    exists role, c. rewrite Ew2. repeat (split; [done|]). exact Hheld.
  - exact Ew2.
  - exact Hnone2.
Qed.

End Twice.

(** ** The header of the sheet *)

Lemma lines_go_app h s : forall cur,
  forallb not_lf h = true -> lines_go cur (h ++ s) = lines_go (cur ++ h) s.
Proof.
  induction h as [|c h IH]; intros cur Hh; [by rewrite app_nil_r|].
  cbn [forallb] in Hh. apply andb_prop in Hh as [Hc Hh]. unfold not_lf in Hc.
  apply negb_true_iff in Hc. cbn [app lines_go]. rewrite Hc.
  rewrite IH by done. by rewrite <- app_assoc.
Qed.

Lemma trim_blank s : forallb is_ws s = true -> trim s = [].
Proof.
  intros H. unfold trim, trimStart.
  by rewrite (proj2 (forallb_take_drop_while _ _ H)).
Qed.

Lemma strip_cr_nonblank h : trim h <> [] -> trim (strip_cr h) <> [].
Proof.
  intros Hne. unfold strip_cr, ends_cr.
  destruct h as [|x h'] using rev_ind; [done|]. clear IHh'.
  rewrite last_snoc. destruct (N.eqb_spec x 13) as [->|?]; [|done].
  rewrite removelast_last.
  apply trim_nonempty. unfold trimStart. apply forallb_false_drop_while.
  destruct (forallb is_ws h') eqn:E; [|done]. exfalso. apply Hne.
  apply trim_blank. rewrite forallb_app, E. done.
Qed.

Section Header.
Context `{RT : Runtime}.

(** The first line that is not blank is the header, whatever it holds.  A
    sheet without a line feed gives the empty roster; and after a header that
    is not blank, every line of the rest that is not blank is a row, and the
    header is none. *)
Theorem header_row_is_skipped :
  (forall text, forallb not_lf text = true -> parse_sheet text = ∅) /\
  (forall header rest,
     forallb not_lf header = true -> trim header <> [] ->
     parse_sheet (header ++ 10 :: rest) =
     fold_left add_row
       (List.filter (fun l => nonempty (trim l)) (lines_go [] rest)) ∅).
Proof.
  split.
  - intros text Ht. unfold parse_sheet, sheet_lines. rewrite split_newline.
    rewrite <- (app_nil_r text), lines_go_app by done. cbn [lines_go List.filter app].
    by destruct (nonempty (trim text)).
  - intros header rest Hh Hne. unfold parse_sheet, sheet_lines. rewrite split_newline.
    rewrite lines_go_app by done. cbn [lines_go app List.filter].
    change (10 =? 10) with true. cbn [List.filter].
    pose proof (strip_cr_nonblank header Hne) as Hs.
    destruct (trim (strip_cr header)); [done|]. done.
Qed.

End Header.

(** ** The model at work

    The scenarios of the specification, run on the model with the ASCII
    runtime. *)

Example parse_prefixed : parseOCName (lit "  oc :  Mito Uzumaki ") = lit "Mito Uzumaki".
Proof. reflexivity. Qed.

Example parse_unprefixed : parseOCName (lit " Sakura Haruno ") = lit "Sakura Haruno".
Proof. reflexivity. Qed.

Example title_anywhere :
  match1 re_embed_title (lit "New OC: Mito Uzumaki") = Some (lit "Mito Uzumaki").
Proof. reflexivity. Qed.

Example slug_demo :
  @slugify ascii_runtime (lit "  Mito  Uzumaki!! ") = lit "mito-uzumaki".
Proof. reflexivity. Qed.

Example roster_demo :
  elements (@parse_sheet ascii_runtime sheet_demo) ≡ₚ [lit "sakura haruno"; lit "tobi"].
Proof. apply (bool_decide_unpack _). by vm_compute. Qed.

(** Scenario A: a new character. *)
Example scenario_new_character :
  snd (@deliver ascii_runtime cfg_demo msg_mito [] world_demo) =
  [ Fetched; GuildFetched;
    RoleCreated {| role_id := 100; role_name := lit "Mito" |};
    ChannelCreated channel_mito;
    Sent 101 (Welcome (lit "Mito Uzumaki"));
    RoleAdded 7 100 ].
Proof. reflexivity. Qed.

(** Scenario B: a name on the roster, in another case. *)
Example scenario_duplicate :
  snd (@deliver ascii_runtime cfg_demo (msg_demo "Sakura HARUNO") [] world_demo) =
  [ Fetched; Replied (DuplicateNotice (lit "Sakura HARUNO")) ].
Proof. reflexivity. Qed.

(** Scenario C: a single token. *)
Example scenario_single_token :
  snd (@deliver ascii_runtime cfg_demo (msg_demo "Gaara") [] world_demo) =
  [ Fetched; Replied FormatHelp ].
Proof. reflexivity. Qed.

(** Scenario D: the sheet cannot be fetched. *)
Example scenario_fetch_fails :
  snd (@deliver ascii_runtime cfg_demo (msg_demo "Sakura Haruno") []
         (with_sheet world_demo NetworkError)) =
  [ Fetched; Warned FetchFailed; GuildFetched;
    RoleCreated {| role_id := 100; role_name := lit "Sakura" |};
    ChannelCreated
      {| channel_id := 101; channel_name := lit "oc-sakura-haruno";
         channel_type := GuildText; channel_parent := Some 3;
         channel_overwrites := overwrites_shape cfg_demo 1 100 |};
    Sent 101 (Welcome (lit "Sakura Haruno"));
    RoleAdded 7 100 ].
Proof. reflexivity. Qed.

(** A webhook message has no member: the role and the channel are made, the
    embed is copied, and the role assignment fails into the [catch]. *)
Example scenario_webhook :
  snd (@deliver ascii_runtime cfg_demo
         {| author_id := 9; author_bot := true; webhookId := Some 55; guild := Some 1;
            channel := 2; content := [];
            embeds := [ {| embed_title := Some (lit "OC: Mito Uzumaki"); embed_data := 42 |} ];
            member := None |} [] world_demo) =
  [ Fetched; GuildFetched;
    RoleCreated {| role_id := 100; role_name := lit "Mito" |};
    ChannelCreated channel_mito;
    Sent 101 (Welcome (lit "Mito Uzumaki"));
    Sent 101 (EmbedCopy 42);
    Errored TypeError ].
Proof. reflexivity. Qed.

(** ** The theorems at concrete inputs *)

(** Every demo message passes the guards under the demo configuration. *)
Lemma msg_demo_in_scope text : in_scope cfg_demo (msg_demo text) 1.
Proof. unfold in_scope; simpl. auto. Defined.


(** C3 at [msg_tobi]: a one-part name on the roster, in another case, gets
    the duplicate notice. *)
Lemma duplicate_check_precedes_shape_check_witness :
  snd (@deliver ascii_runtime cfg_demo msg_tobi [] world_demo) =
  [Fetched; Replied (DuplicateNotice (lit "TOBI"))].
Proof.
  refine (proj1 (@duplicate_check_precedes_shape_check ascii_runtime cfg_demo
                   msg_tobi 1 [] world_demo (msg_demo_in_scope _) _) _ _).
  - vm_compute. discriminate.
  - apply (bool_decide_eq_true_1 _). vm_compute. reflexivity.
  - simpl. discriminate.
Defined.

(** C7 at [msg_mito]: the channel created for it has the three overwrites
    of a configuration without game masters. *)
Lemma new_channel_overwrites_witness :
  exists g role,
    guild msg_mito = Some g /\
    role ∈ roles (fst (@deliver ascii_runtime cfg_demo msg_mito [] world_demo)) /\
    @toLowerCase ascii_runtime (role_name role) =
      @toLowerCase ascii_runtime (nth 0 (split re_spaces (extract_name msg_mito)) []) /\
    channel_overwrites channel_mito = overwrites_shape cfg_demo g (role_id role) /\
    length (channel_overwrites channel_mito) = 3%nat.
Proof.
  apply (proj1 (@new_channel_overwrites ascii_runtime cfg_demo msg_mito [] world_demo)
           channel_mito).
  apply list_elem_of_In. vm_compute. do 3 right. left. reflexivity.
Defined.

(** *** Provisioning, the sheet and slugs at concrete inputs *)

(** A name is not on the roster of the demo sheet. *)
Ltac not_listed := apply (bool_decide_eq_false_1 _); vm_compute; reflexivity.

(** At [msg_mito]: the member 7 holds the role [Mito] afterwards. *)
Lemma submitter_holds_role_witness :
  exists role,
    @find_role ascii_runtime (lit "Mito")
      (fst (@deliver ascii_runtime cfg_demo msg_mito [] world_demo)) = Some role /\
    (7, role_id role) ∈
      member_roles (fst (@deliver ascii_runtime cfg_demo msg_mito [] world_demo)).
Proof.
  destruct (@submitter_holds_role ascii_runtime cfg_demo msg_mito 1 world_demo 7
              (msg_demo_in_scope _)) as (role & H1 & H2 & _).
  - vm_compute. lia.
  - not_listed.
  - reflexivity.
  - exists role. split; [exact H1|exact H2].
Defined.

(** At [msg_mito] and then [msg_senju]: the members 7 and 9 hold one role,
    which the channel of the first character lets in. *)
Lemma same_first_name_shares_role_witness :
  exists role c1,
    @find_channel (lit "oc-mito-uzumaki")
      (fst (@deliver ascii_runtime cfg_demo msg_senju []
              (fst (@deliver ascii_runtime cfg_demo msg_mito [] world_demo)))) = Some c1 /\
    member_entry (role_id role) ∈ channel_overwrites c1 /\
    (7, role_id role) ∈
      member_roles (fst (@deliver ascii_runtime cfg_demo msg_senju []
              (fst (@deliver ascii_runtime cfg_demo msg_mito [] world_demo)))) /\
    (9, role_id role) ∈
      member_roles (fst (@deliver ascii_runtime cfg_demo msg_senju []
              (fst (@deliver ascii_runtime cfg_demo msg_mito [] world_demo)))).
Proof.
  apply (@same_first_name_shares_role ascii_runtime cfg_demo msg_mito msg_senju 1
           world_demo 7 9).
  - apply msg_demo_in_scope.
  - unfold in_scope; simpl; auto.
  - vm_compute. lia.
  - vm_compute. lia.
  - not_listed.
  - not_listed.
  - reflexivity.
  - reflexivity.
  - reflexivity.
  - reflexivity.
Defined.

(** At [msg_webhook]: the delivery ends with the [TypeError]. *)
Lemma memberless_submission_ends_in_error_witness :
  last (snd (@deliver ascii_runtime cfg_demo msg_webhook [] world_demo)) =
  Some (Errored TypeError).
Proof.
  refine (proj1 (proj2 (@memberless_submission_ends_in_error ascii_runtime cfg_demo
                          msg_webhook 1 world_demo _ _ _ _))).
  - unfold in_scope; simpl; eauto.
  - vm_compute. lia.
  - not_listed.
  - reflexivity.
Defined.

(** At [msg_mito] under [cfg_log]: the delivery ends with the audit message
    in channel 5. *)
Lemma audit_message_sent_witness :
  exists rid cid,
    last (snd (@deliver ascii_runtime cfg_log msg_mito [] world_log)) =
    Some (Sent 5 (AuditLog (lit "Mito Uzumaki") rid cid 7)).
Proof.
  apply (@audit_message_sent ascii_runtime cfg_log msg_mito 1 world_log 7 5 channel_log).
  - unfold in_scope; simpl; auto.
  - vm_compute. lia.
  - not_listed.
  - reflexivity.
  - reflexivity.
  - reflexivity.
  - reflexivity.
Defined.

(** At the audit message of that delivery. *)
Lemma audit_message_conditions_witness :
  exists logChannel role chan who,
    Sent 5 (AuditLog (lit "Mito Uzumaki") 100 101 7) =
      Sent (channel_id logChannel)
        (AuditLog (extract_name msg_mito) (role_id role) (channel_id chan)
           (author_id msg_mito)) /\
    LOG_CHANNEL_ID cfg_log = Some (channel_id logChannel) /\
    logChannel ∈ channels (fst (@deliver ascii_runtime cfg_log msg_mito [] world_log)) /\
    isTextBased (channel_type logChannel) = true /\
    role ∈ roles (fst (@deliver ascii_runtime cfg_log msg_mito [] world_log)) /\
    @toLowerCase ascii_runtime (role_name role) =
      @toLowerCase ascii_runtime (nth 0 (split re_spaces (extract_name msg_mito)) []) /\
    chan ∈ channels (fst (@deliver ascii_runtime cfg_log msg_mito [] world_log)) /\
    channel_name chan = lit "oc-" ++ @slugify ascii_runtime (extract_name msg_mito) /\
    channel_type chan = GuildText /\
    member msg_mito = Some who /\
    (who, role_id role) ∈
      member_roles (fst (@deliver ascii_runtime cfg_log msg_mito [] world_log)) /\
    last (snd (@deliver ascii_runtime cfg_log msg_mito [] world_log)) =
      Some (Sent 5 (AuditLog (lit "Mito Uzumaki") 100 101 7)).
Proof.
  apply (@audit_message_conditions ascii_runtime cfg_log msg_mito [] world_log
           (Sent 5 (AuditLog (lit "Mito Uzumaki") 100 101 7))).
  - reflexivity.
  - apply list_elem_of_In. vm_compute. do 6 right. left. reflexivity.
Defined.

(** At [msg_embed] with the fifth call rejected: a warning and no error. *)
Lemma rejected_embed_copy_is_contained_witness :
  Warned ApiError ∈
    snd (@deliver ascii_runtime cfg_demo msg_embed [false; false; false; false; true]
           world_demo) /\
  existsb is_error
    (snd (@deliver ascii_runtime cfg_demo msg_embed [false; false; false; false; true]
            world_demo)) = false.
Proof.
  destruct (@rejected_embed_copy_is_contained ascii_runtime cfg_demo msg_embed 1
              world_demo 7 {| embed_title := None; embed_data := 42 |} [])
    as (H1 & H2 & _).
  - unfold in_scope; simpl; auto.
  - vm_compute. lia.
  - not_listed.
  - reflexivity.
  - reflexivity.
  - reflexivity.
  - split; [exact H1|exact H2].
Defined.

(** At [msg_tobi]: the fetch and the duplicate notice, and nothing else. *)
Lemma reply_is_the_only_effect_witness :
  @deliver ascii_runtime cfg_demo msg_tobi [] world_demo =
  (with_names world_demo (@roster_of ascii_runtime (sheet world_demo)),
   Fetched :: warning_of (sheet world_demo) ++
   [Replied (if bool_decide (@toLowerCase ascii_runtime (extract_name msg_tobi) ∈
                               @roster_of ascii_runtime (sheet world_demo))
             then DuplicateNotice (extract_name msg_tobi) else FormatHelp)]).
Proof.
  apply (@reply_is_the_only_effect ascii_runtime cfg_demo msg_tobi [] world_demo).
  vm_compute. reflexivity.
Defined.

(** At [msg_mito], whose name holds a space: no reply, and the guild is
    fetched. *)
Lemma format_help_iff_no_white_space_witness :
  existsb is_reply (snd (@deliver ascii_runtime cfg_demo msg_mito [] world_demo)) = false /\
  GuildFetched ∈ snd (@deliver ascii_runtime cfg_demo msg_mito [] world_demo) /\
  nth 0 (split re_spaces (extract_name msg_mito)) [] =
    take_while not_ws (extract_name msg_mito) /\
  take_while not_ws (extract_name msg_mito) <> [].
Proof.
  refine (proj2 (proj2 (@format_help_iff_no_white_space ascii_runtime cfg_demo msg_mito 1
                          [] world_demo (msg_demo_in_scope _) _ _ _)) _).
  - vm_compute. discriminate.
  - not_listed.
  - simpl. discriminate.
  - vm_compute. reflexivity.
Defined.

(** At the entry [tobi] of [sheet_demo]. *)
Lemma roster_entries_shape_witness :
  exists raw,
    lit "tobi" = @toLowerCase ascii_runtime raw /\
    raw <> [] /\
    trim raw = raw /\
    forallb plain raw = true /\
    forall q : N -> bool, forallb q sheet_demo = true -> forallb q raw = true.
Proof.
  apply (@roster_entries_shape ascii_runtime sheet_demo (lit "tobi")).
  apply (bool_decide_eq_true_1 _). vm_compute. reflexivity.
Defined.

(** At [msg_comma]: no duplicate notice. *)
Lemma name_with_comma_is_never_a_duplicate_witness :
  existsb is_duplicate_notice
    (snd (@deliver ascii_runtime cfg_demo msg_comma [] world_demo)) = false.
Proof.
  apply (@name_with_comma_is_never_a_duplicate ascii_runtime cfg_demo msg_comma []
           world_demo).
  - vm_compute. reflexivity.
  - vm_compute. reflexivity.
  - vm_compute. reflexivity.
Defined.

(** At [msg_mito] and then [msg_shout]: no second channel. *)
Lemma same_slug_shares_channel_witness :
  channels (fst (@deliver ascii_runtime cfg_demo msg_shout []
                   (fst (@deliver ascii_runtime cfg_demo msg_mito [] world_demo)))) =
  channels (fst (@deliver ascii_runtime cfg_demo msg_mito [] world_demo)) /\
  existsb for_new_channel
    (snd (@deliver ascii_runtime cfg_demo msg_shout []
            (fst (@deliver ascii_runtime cfg_demo msg_mito [] world_demo)))) = false.
Proof.
  apply (@same_slug_shares_channel ascii_runtime cfg_demo msg_mito msg_shout 1 []
           world_demo (msg_demo_in_scope _)).
  - vm_compute. lia.
  - not_listed.
  - vm_compute. reflexivity.
Defined.

(** At [msg_mito] in [world_demo]: the role 100 and the channel 101. *)
Lemma new_character_is_provisioned_witness :
  roles (fst (@deliver ascii_runtime cfg_demo msg_mito [] world_demo)) =
    [ {| role_id := 100; role_name := lit "Mito" |} ] /\
  channels (fst (@deliver ascii_runtime cfg_demo msg_mito [] world_demo)) =
    [ channel_mito ].
Proof.
  destruct (@new_character_is_provisioned ascii_runtime cfg_demo msg_mito 1 world_demo 7
              (msg_demo_in_scope _)) as (H1 & H2 & _).
  - vm_compute. lia.
  - not_listed.
  - reflexivity.
  - reflexivity.
  - reflexivity.
  - apply (bool_decide_eq_false_1 _). vm_compute. reflexivity.
  - split; [exact H1|exact H2].
Defined.

(** At [msg_mito] with the third call rejected: the role stays, alone. *)
Lemma rejected_channel_creation_leaves_the_role_witness :
  roles (fst (@deliver ascii_runtime cfg_demo msg_mito [false; false; true] world_demo)) =
    [ {| role_id := 100; role_name := lit "Mito" |} ] /\
  channels (fst (@deliver ascii_runtime cfg_demo msg_mito [false; false; true] world_demo)) =
    [].
Proof.
  destruct (@rejected_channel_creation_leaves_the_role ascii_runtime cfg_demo msg_mito 1
              world_demo (msg_demo_in_scope _)) as (H1 & H2 & _).
  - vm_compute. lia.
  - not_listed.
  - reflexivity.
  - reflexivity.
  - split; [exact H1|exact H2].
Defined.

(** C1 at [msg_mito].  In [world_demo], which has neither, one role [Mito]
    and one channel are created over the two deliveries.  In [world_reuse]
    the role [MITO] is found without case and no role is created, the channel
    whose name differs in case does not count and one channel is created, and
    the second delivery leaves the world as the first left it. *)
Lemma provision_idempotent_witness :
  (exists role,
     roles (fst (@deliver ascii_runtime cfg_demo msg_mito [] world_demo)) =
       roles world_demo ++ [role] /\
     role_name role = lit "Mito" /\
     created_roles
       (snd (@deliver ascii_runtime cfg_demo msg_mito [] world_demo) ++
        snd (@deliver ascii_runtime cfg_demo msg_mito []
               (fst (@deliver ascii_runtime cfg_demo msg_mito [] world_demo)))) =
       [role]) /\
  (roles (fst (@deliver ascii_runtime cfg_demo msg_mito [] world_reuse)) =
     roles world_reuse /\
   created_roles
     (snd (@deliver ascii_runtime cfg_demo msg_mito [] world_reuse) ++
      snd (@deliver ascii_runtime cfg_demo msg_mito []
             (fst (@deliver ascii_runtime cfg_demo msg_mito [] world_reuse)))) = []) /\
  (exists c,
     channels (fst (@deliver ascii_runtime cfg_demo msg_mito [] world_reuse)) =
       channels world_reuse ++ [c] /\
     text_channel_named (lit "oc-mito-uzumaki") c /\
     created_channels
       (snd (@deliver ascii_runtime cfg_demo msg_mito [] world_reuse) ++
        snd (@deliver ascii_runtime cfg_demo msg_mito []
               (fst (@deliver ascii_runtime cfg_demo msg_mito [] world_reuse)))) =
       [c]) /\
  fst (@deliver ascii_runtime cfg_demo msg_mito []
         (fst (@deliver ascii_runtime cfg_demo msg_mito [] world_reuse))) =
  fst (@deliver ascii_runtime cfg_demo msg_mito [] world_reuse).
Proof.
  assert (2 <= length (split re_spaces (extract_name msg_mito)))%nat as Hlen
    by (vm_compute; lia).
  destruct (@provision_idempotent ascii_runtime cfg_demo msg_mito 1 world_demo
              (msg_demo_in_scope _) Hlen) as (Hfresh & _); [not_listed|].
  destruct (@provision_idempotent ascii_runtime cfg_demo msg_mito 1 world_reuse
              (msg_demo_in_scope _) Hlen) as (_ & Hrole & Hchan & _ & _ & Hsame & _);
    [not_listed|].
  split; [|split; [|split]].
  - apply Hfresh. intros r Hr. by apply elem_of_nil in Hr.
  - apply Hrole. eexists. split; [by apply list_elem_of_singleton|]. reflexivity.
  - apply Hchan. intros c Hc. apply list_elem_of_singleton in Hc. subst c.
    intros [_ Hname]. vm_compute in Hname. discriminate.
  - exact Hsame.
Defined.

(** C5 as stated fails.  An embed title [OC: ] matches the pattern with a
    blank rest, and the handler then takes the name from the text instead of
    stopping; the text [OC:] has the prefix and an empty remainder, and the
    handler takes the whole text as the name and answers with the format help;
    and a remainder that runs over two lines makes the whole text the name. *)
Lemma name_extraction_counterexample :
  claimed_name msg_blank_title = [] /\
  extract_name msg_blank_title = lit "Mito Uzumaki" /\
  claimed_name (msg_demo "OC:") = [] /\
  extract_name (msg_demo "OC:") = lit "OC:" /\
  snd (@deliver ascii_runtime cfg_demo (msg_demo "OC:") [] world_demo) =
    [Fetched; Replied FormatHelp] /\
  claimed_name msg_two_lines = lit "Mito Uzumaki" ++ [10] ++ lit "Age: 12" /\
  extract_name msg_two_lines = two_lines.
Proof. vm_compute. repeat split. Qed.
